(** * NLP-to-SQL todo pipeline: a shallow embedding of the query route
    ([POST /api/query])

    The route translates a natural-language command into one of four SQL
    statement shapes over the single table [todos], validates and repairs the
    statement, and executes it through four regex-driven handlers that talk to
    the row store.

    Conventions of the embedding.
    - A JavaScript string is a list of code units, [str := list ascii].  The
      model is exact on ASCII text: case conversion and the classes [\s], [\w],
      [\d] act on the ASCII range, other code units are carried through
      unchanged.  The milestone texts keep their emoji as bytes; nothing
      reads them back.
    - A regular expression literal of the source is a value of [regex]; the
      matcher [rmatch] is the backtracking matcher of the ECMAScript
      specification, written with continuations as the specification does.
    - [async] functions that reach the row store or push onto the shared
      [milestones] array are functions in the monad [io], which threads the
      [world] (rows of [todos], the log of row-store calls, the trace) and
      carries a thrown [Error] message.
    - The two completion providers and [JSON.parse] are inputs of the model:
      a reply, or the failure of the call.  The prompts sent to the providers
      are not part of it.
    - Where a comment quotes a pattern of the source, DQ stands for the
      double-quote character and a blank separates a star from a closing
      parenthesis that follows it. *)

From Stdlib Require Import Ascii String List Arith Bool Lia PeanoNat.
From Stdlib Require Import Sorting.Sorted Sorting.Permutation.
From Stdlib Require Import Numbers.DecimalString.
Import ListNotations.

Set Implicit Arguments.

(** ** Strings *)

Definition str := list ascii.

Definition lit (s : string) : str := list_ascii_of_string s.

Definition code (c : ascii) : nat := nat_of_ascii c.

Definition is_upper (c : ascii) : bool := (65 <=? code c) && (code c <=? 90).
Definition is_lower (c : ascii) : bool := (97 <=? code c) && (code c <=? 122).
Definition is_digit (c : ascii) : bool := (48 <=? code c) && (code c <=? 57).

(** [\w] is [[A-Za-z0-9_]]. *)
Definition is_word (c : ascii) : bool :=
  is_upper c || is_lower c || is_digit c || (code c =? 95).

(** [\s] and the characters removed by [trim]: tab, line feed, vertical tab,
    form feed, carriage return and space. *)
Definition is_space (c : ascii) : bool :=
  ((9 <=? code c) && (code c <=? 13)) || (code c =? 32).

(** Line terminators, which [.] does not match. *)
Definition is_newline (c : ascii) : bool := (code c =? 10) || (code c =? 13).

Definition lower (c : ascii) : ascii :=
  if is_upper c then ascii_of_nat (code c + 32) else c.

Definition upper (c : ascii) : ascii :=
  if is_lower c then ascii_of_nat (code c - 32) else c.

Definition toLowerCase (s : str) : str := map lower s.
Definition toUpperCase (s : str) : str := map upper s.

Definition str_eqb (a b : str) : bool :=
  if list_eq_dec ascii_dec a b then true else false.

Fixpoint trimStart (s : str) : str :=
  match s with
  | c :: t => if is_space c then trimStart t else s
  | [] => []
  end.

Definition trimEnd (s : str) : str := rev (trimStart (rev s)).

Definition trim (s : str) : str := trimEnd (trimStart s).

Fixpoint startsWith (p s : str) : bool :=
  match p, s with
  | [], _ => true
  | a :: p', b :: s' => Ascii.eqb a b && startsWith p' s'
  | _ :: _, [] => false
  end.

(** [s.indexOf(p)]: the least index at which [p] occurs, [None] for -1. *)
Fixpoint indexOf (p s : str) : option nat :=
  if startsWith p s then Some 0
  else match s with
       | [] => None
       | _ :: t => option_map S (indexOf p t)
       end.

Definition includes (p s : str) : bool :=
  match indexOf p s with Some _ => true | None => false end.

(** [s.substring(i)] and [s.slice(i)] for [0 <= i]. *)
Definition substring (i : nat) (s : str) : str := skipn i s.

(** [s.charAt(0)]: a string of length one, or empty. *)
Definition charAt0 (s : str) : str := firstn 1 s.

(** JavaScript truthiness of a string. *)
Definition truthy (s : str) : bool :=
  match s with [] => false | _ :: _ => true end.

Definition dq : ascii := "034"%char.
Definition sq : ascii := "039"%char.

(** ** Regular expressions *)

Module Re.

Inductive citem : Type :=
| IChar (c : ascii)
| ISpace
| INonSpace
| IWord
| IDigit.

Inductive regex : Type :=
| Eps
| Lit (c : ascii)
| Cls (neg : bool) (items : list citem)
| Dot
| Seq (a b : regex)
| Alt (a b : regex)
| Star (greedy : bool) (a : regex)
| Opt (greedy : bool) (a : regex)
| Group (n : nat) (a : regex)
| Bol
| Eol.

(** [a+] is one mandatory iteration followed by [a*]. *)
Definition Plus (greedy : bool) (a : regex) : regex := Seq a (Star greedy a).

(** A run of literal characters. *)
Fixpoint word (s : str) : regex :=
  match s with
  | [] => Eps
  | [c] => Lit c
  | c :: t => Seq (Lit c) (word t)
  end.

Definition w (s : string) : regex := word (lit s).

Fixpoint seqs (rs : list regex) : regex :=
  match rs with
  | [] => Eps
  | [r] => r
  | r :: t => Seq r (seqs t)
  end.

Fixpoint alts (rs : list regex) : regex :=
  match rs with
  | [] => Eps
  | [r] => r
  | r :: t => Alt r (alts t)
  end.

Definition ws : regex := Cls false [ISpace].        (* \s *)
Definition wd : regex := Cls false [IWord].         (* \w *)
Definition dg : regex := Cls false [IDigit].        (* \d *)
Definition any : regex := Cls false [ISpace; INonSpace].  (* [\s\S] *)
Definition none_of (cs : list citem) : regex := Cls true cs.

Fixpoint groups_of (r : regex) : list nat :=
  match r with
  | Seq a b | Alt a b => groups_of a ++ groups_of b
  | Star _ a | Opt _ a => groups_of a
  | Group n a => n :: groups_of a
  | _ => []
  end.

(** The matcher state: the index reached, the input that remains there, and
    the captures made so far (most recent first). *)
Record mstate : Type := MState {
  m_pos : nat;
  m_rest : str;
  m_caps : list (nat * str)
}.

Definition advance (s : mstate) : mstate :=
  MState (S (m_pos s)) (tl (m_rest s)) (m_caps s).

Definition set_cap (n : nat) (from to : mstate) : mstate :=
  MState (m_pos to) (m_rest to)
         ((n, firstn (m_pos to - m_pos from) (m_rest from)) :: m_caps to).

Definition reset_caps (ns : list nat) (s : mstate) : mstate :=
  MState (m_pos s) (m_rest s)
         (filter (fun e => negb (existsb (Nat.eqb (fst e)) ns)) (m_caps s)).

Fixpoint get_cap (n : nat) (caps : list (nat * str)) : option str :=
  match caps with
  | [] => None
  | (k, v) :: t => if k =? n then Some v else get_cap n t
  end.

Section Matcher.

(** The [i] flag. *)
Variable icase : bool.

(** Canonicalize of the specification: upper-casing under [i]. *)
Definition canon (c : ascii) : ascii := if icase then upper c else c.

Definition char_eq (a c : ascii) : bool := Ascii.eqb (canon a) (canon c).

Definition item_ok (c : ascii) (i : citem) : bool :=
  match i with
  | IChar a => char_eq a c
  | ISpace => is_space c
  | INonSpace => negb (is_space c)
  | IWord => is_word c
  | IDigit => is_digit c
  end.

Definition cls_ok (neg : bool) (items : list citem) (c : ascii) : bool :=
  xorb neg (existsb (item_ok c) items).

Definition step (p : ascii -> bool) (k : mstate -> option mstate) (s : mstate)
  : option mstate :=
  match m_rest s with
  | c :: _ => if p c then k (advance s) else None
  | [] => None
  end.

Definition progress (x y : mstate) : bool :=
  length (m_rest y) <? length (m_rest x).

(** A quantified iteration: [m] matches the body once.  A quantifier refuses
    an iteration that consumed nothing, so [a*] needs at most one round per
    remaining character; [fuel] counts the rounds. *)
Fixpoint star_loop (greedy : bool)
  (m : (mstate -> option mstate) -> mstate -> option mstate)
  (k : mstate -> option mstate) (fuel : nat) (x : mstate) {struct fuel}
  : option mstate :=
  match fuel with
  | 0 => None
  | S fuel' =>
      let d := fun y => if progress x y then star_loop greedy m k fuel' y
                        else None in
      if greedy then
        match m d x with
        | Some z => Some z
        | None => k x
        end
      else
        match k x with
        | Some z => Some z
        | None => m d x
        end
  end.

Definition opt_once (greedy : bool)
  (m : (mstate -> option mstate) -> mstate -> option mstate)
  (k : mstate -> option mstate) (x : mstate) : option mstate :=
  let d := fun y => if progress x y then k y else None in
  if greedy then
    match m d x with
    | Some z => Some z
    | None => k x
    end
  else
    match k x with
    | Some z => Some z
    | None => m d x
    end.

(** [rmatch r k s]: match [r] at state [s] and hand every end state to the
    continuation [k], in the priority order of a backtracking matcher; the
    first end state [k] accepts wins.  Captures inside a quantified body are
    cleared when an iteration starts. *)
Fixpoint rmatch (r : regex) (k : mstate -> option mstate) (s : mstate)
  {struct r} : option mstate :=
  match r with
  | Eps => k s
  | Lit a => step (char_eq a) k s
  | Cls neg items => step (cls_ok neg items) k s
  | Dot => step (fun c => negb (is_newline c)) k s
  | Seq a b => rmatch a (rmatch b k) s
  | Alt a b =>
      match rmatch a k s with
      | Some z => Some z
      | None => rmatch b k s
      end
  | Star greedy a =>
      star_loop greedy
        (fun d x => rmatch a d (reset_caps (groups_of a) x))
        k (S (length (m_rest s))) s
  | Opt greedy a =>
      opt_once greedy
        (fun d x => rmatch a d (reset_caps (groups_of a) x)) k s
  | Group n a => rmatch a (fun y => k (set_cap n s y)) s
  | Bol => if m_pos s =? 0 then k s else None
  | Eol => match m_rest s with [] => k s | _ :: _ => None end
  end.

(** One attempt at a given start index. *)
Definition match_at (r : regex) (pos : nat) (rest : str) : option mstate :=
  rmatch r Some (MState pos rest []).

(** The result of a successful [exec]: where the match starts, the input from
    there on, and the state at its end. *)
Record found : Type := Found {
  f_index : nat;
  f_from : str;
  f_end : mstate
}.

(** [exec] without the [g] flag: the leftmost start index that matches. *)
Fixpoint search (r : regex) (pos : nat) (rest : str) : option found :=
  match match_at r pos rest with
  | Some e => Some (Found pos rest e)
  | None =>
      match rest with
      | [] => None
      | _ :: t => search r (S pos) t
      end
  end.

End Matcher.

(** A compiled literal: the pattern and its [i] flag. *)
Record t : Type := Make { pat : regex; ignoreCase : bool }.

Definition matched (f : found) : str :=
  firstn (m_pos (f_end f) - f_index f) (f_from f).

Definition after (f : found) : str := m_rest (f_end f).

(** [m[n]] for [n >= 1]; [None] is [undefined]. *)
Definition group (n : nat) (f : found) : option str :=
  get_cap n (m_caps (f_end f)).

(** [s.match(re)] for a pattern without the [g] flag. *)
Definition exec (re : t) (s : str) : option found :=
  search (ignoreCase re) (pat re) 0 s.

(** [re.test(s)]. *)
Definition test (re : t) (s : str) : bool :=
  match exec re s with Some _ => true | None => false end.

Definition digit_val (c : ascii) : nat := code c - 48.

(** GetSubstitution: expansion of [$$], [$&], [$`], [$'], [$n] and [$nn] in
    a replacement string; [m] is the number of capture groups. *)
Fixpoint expand (m : nat) (before : str) (f : found) (repl : str) : str :=
  match repl with
  | [] => []
  | c :: t =>
      if negb (Ascii.eqb c "$") then c :: expand m before f t
      else
        match t with
        | [] => [c]
        | d :: t' =>
            if Ascii.eqb d "$" then "$"%char :: expand m before f t'
            else if Ascii.eqb d "&" then matched f ++ expand m before f t'
            else if Ascii.eqb d "`" then before ++ expand m before f t'
            else if Ascii.eqb d sq then after f ++ expand m before f t'
            else if is_digit d then
              let one :=
                let n := digit_val d in
                if (1 <=? n) && (n <=? m) then
                  match group n f with
                  | Some v => v ++ expand m before f t'
                  | None => expand m before f t'
                  end
                else c :: expand m before f t
              in
              match t' with
              | e :: t'' =>
                  if is_digit e then
                    let nn := 10 * digit_val d + digit_val e in
                    if (1 <=? nn) && (nn <=? m) then
                      match group nn f with
                      | Some v => v ++ expand m before f t''
                      | None => expand m before f t''
                      end
                    else one
                  else one
              | [] => one
              end
            else c :: expand m before f t
        end
  end.

Definition ngroups (re : t) : nat := length (groups_of (pat re)).

(** [s.replace(re, repl)] for a pattern without the [g] flag: the first match
    is replaced. *)
Definition replace (re : t) (repl : str) (s : str) : str :=
  match exec re s with
  | None => s
  | Some f =>
      firstn (f_index f) s
        ++ expand (ngroups re) (firstn (f_index f) s) f repl
        ++ after f
  end.

(** [s.replace(re, repl)] for a pattern with the [g] flag: scan left to right;
    where the pattern matches, emit the replacement and skip the matched
    text, elsewhere copy the character.  [skip] counts the characters of the
    current match still to be dropped; [done] is the input already passed, in
    reverse. *)
Fixpoint replace_loop (re : t) (repl : str) (done : str) (pos skip : nat)
  (rest : str) {struct rest} : str :=
  match skip with
  | S skip' =>
      match rest with
      | [] => []
      | c :: t => replace_loop re repl (c :: done) (S pos) skip' t
      end
  | 0 =>
      match match_at (ignoreCase re) (pat re) pos rest with
      | Some e =>
          let f := Found pos rest e in
          let out := expand (ngroups re) (rev done) f repl in
          match rest with
          | [] => out
          | c :: t =>
              match m_pos e - pos with
              | 0 => out ++ c :: replace_loop re repl (c :: done) (S pos) 0 t
              | S n => out ++ replace_loop re repl (c :: done) (S pos) n t
              end
          end
      | None =>
          match rest with
          | [] => []
          | c :: t => c :: replace_loop re repl (c :: done) (S pos) 0 t
          end
      end
  end.

Definition replaceAll (re : t) (repl : str) (s : str) : str :=
  replace_loop re repl [] 0 0 s.

End Re.

Import Re.

Definition re (i : bool) (rs : list regex) : Re.t := Re.Make (seqs rs) i.

Definition star := Star true.
Definition plus := Plus true.
Definition opt := Opt true.
Definition ch (c : ascii) : regex := Lit c.
Definition quote : list citem := [IChar sq; IChar dq].

(** ** Preprocessor and intent classifier *)

(* /\s+/g *)
Definition re_spaces : Re.t := re false [plus ws].
(* /[^\w\s]/g *)
Definition re_punct : Re.t := re false [none_of [IWord; ISpace]].

Definition preprocessQuery (query : str) : str :=
  trim (replaceAll re_punct (lit " ")
          (replaceAll re_spaces (lit " ") (trim (toLowerCase query)))).

Definition addKeywords : list str :=
  map lit ["add"; "create"; "new"; "insert"; "make"]%string.
Definition deleteKeywords : list str :=
  map lit ["delete"; "remove"; "drop"]%string.
Definition updateKeywords : list str :=
  map lit ["update"; "edit"; "change"; "modify"; "mark"; "complete";
           "finish"; "done"; "set"]%string.
Definition listKeywords : list str :=
  map lit ["list"; "show"; "get"; "find"; "select"; "display"]%string.

(** [keywords.some((keyword) => query.includes(keyword))] *)
Definition some_included (keywords : list str) (query : str) : bool :=
  existsb (fun keyword => includes keyword query) keywords.

Definition has (s : string) (query : str) : bool := includes (lit s) query.

Definition classifyIntent (query : str) : str :=
  if has "show" query || has "list" query || has "display" query
     || has "get" query
  then lit "READ"
  else if has "mark" query && (has "done" query || has "complete" query)
  then lit "UPDATE"
  else if has "finish" query || (has "set" query && has "done" query)
  then lit "UPDATE"
  else if some_included addKeywords query then lit "CREATE"
  else if some_included deleteKeywords query then lit "DELETE"
  else if some_included updateKeywords query then lit "UPDATE"
  else if some_included listKeywords query then lit "READ"
  else lit "READ".

(** ** Syntax repairer *)

(* /^(create|add|new|make|insert)\s+(a\s+)?(task|todo|item)\s+(for\s+me\s+)?(to\s+)?/i *)
Definition re_command_prefix : Re.t :=
  re true
    [Bol;
     Group 1 (alts [w "create"; w "add"; w "new"; w "make"; w "insert"]);
     plus ws;
     opt (Group 2 (seqs [w "a"; plus ws]));
     Group 3 (alts [w "task"; w "todo"; w "item"]);
     plus ws;
     opt (Group 4 (seqs [w "for"; plus ws; w "me"; plus ws]));
     opt (Group 5 (seqs [w "to"; plus ws]))].

(* /,$/ *)
Definition re_trailing_comma : Re.t := re false [w ","; Eol].

Definition capitalize (s : str) : str :=
  toUpperCase (charAt0 s) ++ substring 1 s.

Definition extractTaskDescription (query : str) : str :=
  let cleaned :=
    trim (replace re_trailing_comma []
            (replace re_command_prefix [] (toLowerCase query))) in
  if startsWith (lit "order ") cleaned || startsWith (lit "buy ") cleaned
     || startsWith (lit "call ") cleaned
  then capitalize cleaned
  else
    match indexOf (lit " to ") cleaned with
    | Some toIndex => capitalize (substring (toIndex + 4) cleaned)
    | None => capitalize cleaned
    end.

(* /VALUES\s*\(\s*([^'DQ][^,)]* [^'DQ\s][^,)]* ),\s*(true|false|null|\d+)\s*\)/i *)
Definition re_values_1 : Re.t :=
  re true
    [w "VALUES"; star ws; w "("; star ws;
     Group 1 (seqs [none_of quote;
                    star (none_of [IChar ","; IChar ")"]);
                    none_of (quote ++ [ISpace]);
                    star (none_of [IChar ","; IChar ")"])]);
     w ","; star ws;
     Group 2 (alts [w "true"; w "false"; w "null"; plus dg]);
     star ws; w ")"].

(* /VALUES\s*\(\s*([^'DQ][^,)]+),\s*(true|false|null|\d+)\s*\)/i *)
Definition re_values_2 : Re.t :=
  re true
    [w "VALUES"; star ws; w "("; star ws;
     Group 1 (seqs [none_of quote; plus (none_of [IChar ","; IChar ")"])]);
     w ","; star ws;
     Group 2 (alts [w "true"; w "false"; w "null"; plus dg]);
     star ws; w ")"].

Definition valuesPatterns : list Re.t := [re_values_1; re_values_2].

(* /SET\s+(\w+)\s*=\s*([^'DQ][^,\s;]+)/i *)
Definition setPattern : Re.t :=
  re true
    [w "SET"; plus ws; Group 1 (plus wd); star ws; w "="; star ws;
     Group 2 (seqs [none_of quote;
                    plus (none_of [IChar ","; ISpace; IChar ";"])])].

(* /'/g *)
Definition re_quote : Re.t := re false [ch sq].

(** [taskDescription.replace(/'/g, "''")] *)
Definition escapeQuotes (s : str) : str := replaceAll re_quote [sq; sq] s.

Definition or_empty (o : option str) : str :=
  match o with Some v => v | None => [] end.

(** The [for (const pattern of valuesPatterns)] loop: the first pattern that
    matches rewrites the statement and ends the loop. *)
Fixpoint fix_values (patterns : list Re.t) (sql originalQuery : str) : str :=
  match patterns with
  | [] => sql
  | pattern :: more =>
      match exec pattern sql with
      | Some m =>
          let taskDescription := extractTaskDescription originalQuery in
          let escapedDescription := escapeQuotes taskDescription in
          replace pattern
            (lit "VALUES ('" ++ escapedDescription ++ lit "', "
               ++ or_empty (group 2 m) ++ lit ")")
            sql
      | None => fix_values more sql originalQuery
      end
  end.

Definition fixSQLSyntax (sql originalQuery : str) : str :=
  let fixedSQL :=
    if includes (lit "INSERT INTO TODOS") (toUpperCase sql)
    then fix_values valuesPatterns sql originalQuery
    else sql in
  if includes (lit "UPDATE TODOS SET") (toUpperCase sql) then
    match exec setPattern sql with
    | Some m =>
        if str_eqb (toLowerCase (or_empty (group 1 m))) (lit "title") then
          let taskDescription := extractTaskDescription originalQuery in
          let escapedDescription := escapeQuotes taskDescription in
          replace setPattern
            (lit "SET " ++ or_empty (group 1 m) ++ lit " = '"
               ++ escapedDescription ++ lit "'")
            sql
        else fixedSQL
    | None => fixedSQL
    end
  else fixedSQL.

(** ** SQL extractor *)

(* /```sql\n?/gi *)
Definition re_fence_sql : Re.t := re true [w "```sql"; opt (ch "010")].
(* /```\n?/g *)
Definition re_fence : Re.t := re false [w "```"; opt (ch "010")].

Definition keyword_alt : regex :=
  alts [w "SELECT"; w "INSERT"; w "UPDATE"; w "DELETE"].

(* /(SELECT|INSERT|UPDATE|DELETE)[\s\S]*?;?$/i *)
Definition re_statement : Re.t :=
  re true [Group 1 keyword_alt; Star false any; opt (ch ";"); Eol].

(* /(?:query|sql)[DQ']?\s*:?\s*[DQ']?(SELECT|INSERT|UPDATE|DELETE)[\s\S]*?[DQ']?;?/i *)
Definition re_after_label : Re.t :=
  re true
    [alts [w "query"; w "sql"];
     opt (Cls false [IChar dq; IChar sq]); star ws; opt (ch ":"); star ws;
     opt (Cls false [IChar dq; IChar sq]);
     Group 1 keyword_alt; Star false any;
     opt (Cls false [IChar dq; IChar sq]); opt (ch ";")].

(* /(?:here\s+is|query\s+is|sql\s+is)[\s\S]*?(SELECT|INSERT|UPDATE|DELETE)[\s\S]*?;?$/i *)
Definition re_after_phrase : Re.t :=
  re true
    [alts [seqs [w "here"; plus ws; w "is"];
           seqs [w "query"; plus ws; w "is"];
           seqs [w "sql"; plus ws; w "is"]];
     Star false any; Group 1 keyword_alt; Star false any;
     opt (ch ";"); Eol].

Definition sqlPatterns : list Re.t :=
  [re_statement; re_after_label; re_after_phrase].

(* /^.*?(SELECT|INSERT|UPDATE|DELETE)/i *)
Definition re_before_keyword : Re.t :=
  re true [Bol; Star false Dot; Group 1 keyword_alt].

(* /;+$/ *)
Definition re_trailing_semis : Re.t := re false [plus (ch ";"); Eol].

(* /^(SELECT|INSERT|UPDATE|DELETE)/i *)
Definition re_leading_keyword : Re.t := re true [Bol; Group 1 keyword_alt].

Definition sqlKeywords : list str :=
  map lit ["SELECT"; "INSERT"; "UPDATE"; "DELETE"]%string.

(** The first loop of [extractCleanSQL]: the first template whose cleaned-up
    match is non-empty and starts with a keyword is returned. *)
Fixpoint by_pattern (patterns : list Re.t) (cleaned : str) : option str :=
  match patterns with
  | [] => None
  | pattern :: more =>
      match exec pattern cleaned with
      | Some m =>
          let sql :=
            trim (replace re_trailing_semis []
                    (replace re_before_keyword (lit "$1") (matched m))) in
          if truthy sql && test re_leading_keyword sql then Some sql
          else by_pattern more cleaned
      | None => by_pattern more cleaned
      end
  end.

(** The second loop: the first keyword found anywhere, taken to the end. *)
Fixpoint by_keyword (keywords : list str) (cleaned : str) : option str :=
  match keywords with
  | [] => None
  | keyword :: more =>
      match indexOf keyword (toUpperCase cleaned) with
      | Some index =>
          let extracted :=
            trim (replace re_trailing_semis [] (substring index cleaned)) in
          if truthy extracted then Some extracted
          else by_keyword more cleaned
      | None => by_keyword more cleaned
      end
  end.

Definition extractCleanSQL (rawText : str) : str :=
  let cleaned :=
    trim (replaceAll re_fence [] (replaceAll re_fence_sql [] rawText)) in
  match by_pattern sqlPatterns cleaned with
  | Some sql => sql
  | None =>
      match by_keyword sqlKeywords cleaned with
      | Some extracted => extracted
      | None => trim (replace re_trailing_semis [] cleaned)
      end
  end.

(** ** The row store

    The table [todos] behind the Supabase client.  Every request is logged in
    [calls]; [faults] says, request by request, whether the store answers with
    an error (an empty list: it never does).  Assignments are modelled for
    the columns [title] and [completed]; the model refuses any other column,
    also [id] and [created_at], which the table itself lets a request write.
    What is stated below about the identity of rows is stated for UPDATE
    statements that assign [title] or [completed]. *)

Inductive value : Type :=
| VStr (s : str)
| VBool (b : bool)
| VNum (n : nat).

Record todo : Type := Todo {
  id : nat;
  title : str;
  completed : bool;
  created_at : nat
}.

Inductive filter : Type :=
| FEq (column : str) (v : value)           (* .eq(column, v) *)
| FIlike (column : str) (pattern : str).   (* .ilike(column, pattern) *)

Inductive call : Type :=
| CInsert (new_title : str) (new_completed : bool)
| CSelect (filters : list filter) (ascending : bool)
| CSelectOldest                             (* .order(asc).limit(1).single() *)
| CUpdate (column : str) (v : value) (filters : list filter)
| CDelete (filters : list filter).

Record world : Type := World {
  rows : list todo;
  next_id : nat;
  clock : nat;
  faults : list (option str);
  calls : list call;
  milestones : list str
}.

Module Store.

Fixpoint parse_digits (acc : nat) (s : str) : option nat :=
  match s with
  | [] => Some acc
  | c :: t =>
      if is_digit c then parse_digits (10 * acc + (code c - 48)) t else None
  end.

Definition parse_nat (s : str) : option nat :=
  match s with [] => None | _ => parse_digits 0 s end.

Definition bool_text (b : bool) : str := if b then lit "true" else lit "false".

Definition parse_bool (s : str) : option bool :=
  if str_eqb (toLowerCase s) (lit "true") then Some true
  else if str_eqb (toLowerCase s) (lit "false") then Some false
  else None.

(** SQL [ILIKE]: [%] matches any run of characters, [_] any one character,
    every other character itself, ignoring case. *)
Fixpoint like (p s : str) {struct p} : bool :=
  match p with
  | [] => match s with [] => true | _ :: _ => false end
  | c :: p' =>
      if Ascii.eqb c "%" then
        (fix skip (s : str) : bool :=
           like p' s || match s with [] => false | _ :: t => skip t end) s
      else
        match s with
        | [] => false
        | d :: t =>
            (Ascii.eqb c "_" || Ascii.eqb (lower c) (lower d)) && like p' t
        end
  end.

(** Whether a row passes a filter; [None] when the store rejects the filter
    (unknown column, or a value that does not fit the column). *)
Definition passes (f : filter) (r : todo) : option bool :=
  match f with
  | FEq column v =>
      if str_eqb column (lit "id") then
        match v with
        | VNum n => Some (id r =? n)
        | VStr s => option_map (Nat.eqb (id r)) (parse_nat s)
        | VBool _ => None
        end
      else if str_eqb column (lit "title") then
        match v with
        | VStr s => Some (str_eqb (title r) s)
        | VBool b => Some (str_eqb (title r) (bool_text b))
        | VNum _ => None
        end
      else if str_eqb column (lit "completed") then
        match v with
        | VBool b => Some (Bool.eqb (completed r) b)
        | VStr s => option_map (Bool.eqb (completed r)) (parse_bool s)
        | VNum _ => None
        end
      else None
  | FIlike column pattern =>
      if str_eqb column (lit "title") then Some (like pattern (title r))
      else None
  end.

Definition accepted (f : filter) : bool :=
  match passes f (Todo 0 [] false 0) with Some _ => true | None => false end.

Definition keeps (fs : list filter) (r : todo) : bool :=
  forallb (fun f => match passes f r with Some b => b | None => false end) fs.

(** [.order('created_at', { ascending })]: an insertion sort that keeps rows
    with equal keys in the order of the table. *)
Fixpoint insert_by (ascending : bool) (r : todo) (l : list todo) : list todo :=
  match l with
  | [] => [r]
  | x :: t =>
      if (if ascending then created_at r <=? created_at x
          else created_at x <=? created_at r)
      then r :: l
      else x :: insert_by ascending r t
  end.

Definition order (ascending : bool) (l : list todo) : list todo :=
  fold_right (insert_by ascending) [] l.

(** What [.update({ [column]: v })] does to one row, for the columns [title]
    and [completed]; [None] when the store rejects the assignment. *)
Definition assign (column : str) (v : value) (r : todo) : option todo :=
  if str_eqb column (lit "title") then
    match v with
    | VStr s => Some (Todo (id r) s (completed r) (created_at r))
    | VBool b => Some (Todo (id r) (bool_text b) (completed r) (created_at r))
    | VNum _ => None
    end
  else if str_eqb column (lit "completed") then
    match v with
    | VBool b => Some (Todo (id r) (title r) b (created_at r))
    | VStr s =>
        option_map (fun b => Todo (id r) (title r) b (created_at r))
                   (parse_bool s)
    | VNum _ => None
    end
  else None.

Definition assignable (column : str) (v : value) : bool :=
  match assign column v (Todo 0 [] false 0) with
  | Some _ => true
  | None => false
  end.

Definition log (c : call) (w : world) : world :=
  World (rows w) (next_id w) (clock w) (faults w) (calls w ++ [c])
        (milestones w).

(** The fault, if any, that the store answers the current request with. *)
Definition fault (w : world) : option str :=
  match faults w with
  | f :: _ => f
  | [] => None
  end.

Definition served (w : world) : world :=
  World (rows w) (next_id w) (clock w) (tl (faults w)) (calls w)
        (milestones w).

Definition with_rows (l : list todo) (w : world) : world :=
  World l (next_id w) (clock w) (faults w) (calls w) (milestones w).

Definition bad_request : str := lit "request rejected by the store".

Definition insert (t : str) (c : bool) (w : world) : (str + todo) * world :=
  let w := log (CInsert t c) w in
  match fault w with
  | Some e => (inl e, served w)
  | None =>
      let r := Todo (next_id w) t c (clock w) in
      (inr r,
       World (rows w ++ [r]) (S (next_id w)) (S (clock w)) (tl (faults w))
             (calls w) (milestones w))
  end.

Definition select (fs : list filter) (ascending : bool) (w : world)
  : (str + list todo) * world :=
  let w := log (CSelect fs ascending) w in
  match fault w with
  | Some e => (inl e, served w)
  | None =>
      if forallb accepted fs
      then (inr (order ascending (List.filter (keeps fs) (rows w))), served w)
      else (inl bad_request, served w)
  end.

Definition select_oldest (w : world) : (str + todo) * world :=
  let w := log CSelectOldest w in
  match fault w with
  | Some e => (inl e, served w)
  | None =>
      match order true (rows w) with
      | r :: _ => (inr r, served w)
      | [] => (inl (lit "no rows returned"), served w)
      end
  end.

Definition update (column : str) (v : value) (fs : list filter) (w : world)
  : (str + list todo) * world :=
  let w := log (CUpdate column v fs) w in
  match fault w with
  | Some e => (inl e, served w)
  | None =>
      if forallb accepted fs && assignable column v then
        let change r :=
          if keeps fs r then
            match assign column v r with Some r' => r' | None => r end
          else r in
        (inr (map change (List.filter (keeps fs) (rows w))),
         with_rows (map change (rows w)) (served w))
      else (inl bad_request, served w)
  end.

Definition delete (fs : list filter) (w : world) : option str * world :=
  let w := log (CDelete fs) w in
  match fault w with
  | Some e => (Some e, served w)
  | None =>
      if forallb accepted fs
      then (None,
            with_rows (List.filter (fun r => negb (keeps fs r)) (rows w))
                      (served w))
      else (Some bad_request, served w)
  end.

End Store.

(** ** Effects: the world, and thrown errors *)

Inductive outcome (A : Type) : Type :=
| Ok (a : A)
| Thrown (message : str).

Arguments Ok {A} a.
Arguments Thrown {A} message.

Definition io (A : Type) : Type := world -> outcome A * world.

Definition ret {A} (a : A) : io A := fun w => (Ok a, w).

Definition throw {A} (message : str) : io A := fun w => (Thrown message, w).

Definition bind {A B} (c : io A) (k : A -> io B) : io B :=
  fun w =>
    match c w with
    | (Ok a, w') => k a w'
    | (Thrown e, w') => (Thrown e, w')
    end.

Definition catch {A} (c : io A) (h : str -> io A) : io A :=
  fun w =>
    match c w with
    | (Ok a, w') => (Ok a, w')
    | (Thrown e, w') => h e w'
    end.

(** A request to the store never throws: it answers with data or an error. *)
Definition ask {A} (f : world -> A * world) : io A :=
  fun w => let (a, w') := f w in (Ok a, w').

(** [milestones.push(m)] *)
Definition push (m : str) : io unit :=
  fun w =>
    (Ok tt,
     World (rows w) (next_id w) (clock w) (faults w) (calls w)
           (milestones w ++ [m])).

Declare Scope io_scope.
Delimit Scope io_scope with io.
Bind Scope io_scope with io.

Notation "x <- c ;; k" := (bind c (fun x => k))
  (at level 61, c at next level, right associativity) : io_scope.
Notation "c ;; k" := (bind c (fun _ => k))
  (at level 61, right associativity) : io_scope.

Local Open Scope io_scope.

Definition show_nat (n : nat) : str :=
  lit (NilEmpty.string_of_uint (Nat.to_uint n)).

Definition quoted (s : str) : str := dq :: s ++ [dq].

Record payload : Type := Payload {
  todos : list todo;
  count : nat;
  message : str
}.

(** ** Statement executor *)

Definition getAllTodos : io payload :=
  r <- ask (Store.select [] false) ;;
  match r with
  | inl e => throw (lit "Failed to fetch todos: " ++ e)
  | inr data =>
      push (lit "📋 Returning " ++ show_nat (length data) ++ lit " todos") ;;
      ret (Payload data (length data) (lit "Operation completed successfully"))
  end.

(* /INSERT INTO todos\s*\([^)]+\)\s*VALUES\s*\(\s*'([^']+)'\s*,\s*(true|false)\s*\)/i *)
Definition insertPattern : Re.t :=
  re true
    [w "INSERT INTO todos"; star ws; w "("; plus (none_of [IChar ")"]); w ")";
     star ws; w "VALUES"; star ws; w "("; star ws;
     ch sq; Group 1 (plus (none_of [IChar sq])); ch sq;
     star ws; w ","; star ws; Group 2 (alts [w "true"; w "false"]);
     star ws; w ")"].

Definition handleInsertQuery (sql : str) : io payload :=
  match exec insertPattern sql with
  | None => throw (lit "Could not parse INSERT statement")
  | Some m =>
      let title := or_empty (group 1 m) in
      let completed := str_eqb (toLowerCase (or_empty (group 2 m))) (lit "true") in
      push (lit "🔎 Parsed INSERT: title=" ++ quoted title
              ++ lit ", completed=" ++ Store.bool_text completed) ;;
      r <- ask (Store.insert title completed) ;;
      match r with
      | inl e => throw (lit "Insert failed: " ++ e)
      | inr data =>
          push (lit "✅ Successfully created todo with ID: "
                  ++ show_nat (id data)) ;;
          getAllTodos
      end
  end.

(* /WHERE\s+(.+?)(?:\s+ORDER\s+BY|$)/i *)
Definition re_where : Re.t :=
  re true
    [w "WHERE"; plus ws; Group 1 (Plus false Dot);
     Alt (seqs [plus ws; w "ORDER"; plus ws; w "BY"]) Eol].

(* /title\s+LIKE\s+'%([^%']+)%'/i *)
Definition re_title_like : Re.t :=
  re true
    [w "title"; plus ws; w "LIKE"; plus ws; w "'%";
     Group 1 (plus (none_of [IChar "%"; IChar sq])); w "%'"].

(* /title\s*=\s*'([^']+)'/i *)
Definition re_title_eq : Re.t :=
  re true
    [w "title"; star ws; w "="; star ws; ch sq;
     Group 1 (plus (none_of [IChar sq])); ch sq].

(* /completed\s*=\s*(true|false)/i *)
Definition re_completed_eq : Re.t :=
  re true
    [w "completed"; star ws; w "="; star ws;
     Group 1 (alts [w "true"; w "false"])].

Definition col_id : str := lit "id".
Definition col_title : str := lit "title".
Definition col_completed : str := lit "completed".

Definition handleSelectQuery (sql : str) : io payload :=
  push (lit "🔎 Executing SELECT query") ;;
  match exec re_where sql with
  | Some whereMatch =>
      let whereClause := trim (or_empty (group 1 whereMatch)) in
      push (lit "🔎 Parsing WHERE clause: " ++ whereClause) ;;
      query <-
        match exec re_title_like whereClause with
        | Some likeMatch =>
            let searchTerm := or_empty (group 1 likeMatch) in
            push (lit "🔎 Filtering todos containing: " ++ quoted searchTerm) ;;
            ret [FIlike col_title (lit "%" ++ searchTerm ++ lit "%")]
        | None =>
            match exec re_title_eq whereClause with
            | Some titleMatch =>
                let exactTitle := or_empty (group 1 titleMatch) in
                push (lit "🔎 Filtering todos with exact title: "
                        ++ quoted exactTitle) ;;
                ret [FEq col_title (VStr exactTitle)]
            | None =>
                match exec re_completed_eq whereClause with
                | Some completedMatch =>
                    let completed :=
                      str_eqb (toLowerCase (or_empty (group 1 completedMatch)))
                              (lit "true") in
                    push (lit "🔎 Filtering todos by completed status: "
                            ++ Store.bool_text completed) ;;
                    ret [FEq col_completed (VBool completed)]
                | None => ret []
                end
            end
        end ;;
      r <- ask (Store.select query false) ;;
      match r with
      | inl e => throw (lit "Select failed: " ++ e)
      | inr data =>
          push (lit "📋 Found " ++ show_nat (length data)
                  ++ lit " matching todos") ;;
          ret (Payload data (length data)
                 (lit "Found " ++ show_nat (length data)
                    ++ lit " matching todos"))
      end
  | None => getAllTodos
  end.

(* /UPDATE todos SET\s+(\w+)\s*=\s*'([^']+)'(?:\s+WHERE\s+(.+))?/i *)
Definition updatePattern : Re.t :=
  re true
    [w "UPDATE todos SET"; plus ws; Group 1 (plus wd); star ws; w "=";
     star ws; ch sq; Group 2 (plus (none_of [IChar sq])); ch sq;
     opt (seqs [plus ws; w "WHERE"; plus ws; Group 3 (plus Dot)])].

(* /UPDATE todos SET\s+(\w+)\s*=\s*([^,\s]+)(?:\s+WHERE\s+(.+))?/i *)
Definition updatePatternNoQuotes : Re.t :=
  re true
    [w "UPDATE todos SET"; plus ws; Group 1 (plus wd); star ws; w "=";
     star ws; Group 2 (plus (none_of [IChar ","; ISpace]));
     opt (seqs [plus ws; w "WHERE"; plus ws; Group 3 (plus Dot)])].

(* /id\s*=\s*'?([^'\s]+)'?/ *)
Definition re_id_eq : Re.t :=
  re false
    [w "id"; star ws; w "="; star ws; opt (ch sq);
     Group 1 (plus (none_of [IChar sq; ISpace])); opt (ch sq)].

Definition show_value (v : value) : str :=
  match v with
  | VStr s => s
  | VBool b => Store.bool_text b
  | VNum n => show_nat n
  end.

Definition handleUpdateQuery (sql : str) : io payload :=
  let found :=
    match exec updatePattern sql with
    | Some m => Some m
    | None => exec updatePatternNoQuotes sql
    end in
  match found with
  | None => throw (lit "Could not parse UPDATE statement")
  | Some m =>
      let column := or_empty (group 1 m) in
      let rawValue := or_empty (group 2 m) in
      let whereClause := or_empty (group 3 m) in
      let value :=
        if str_eqb rawValue (lit "true") || str_eqb rawValue (lit "false")
        then VBool (str_eqb rawValue (lit "true"))
        else VStr rawValue in
      push (lit "🔎 Parsed UPDATE: " ++ column ++ lit "=" ++ show_value value
              ++ lit ", WHERE: "
              ++ (if truthy whereClause then whereClause else lit "none")) ;;
      if negb (truthy whereClause)
      then throw (lit "UPDATE without WHERE clause is not allowed for safety")
      else
        query <-
          (if includes (lit "id =") whereClause then
             match exec re_id_eq whereClause with
             | Some idMatch =>
                 push (lit "🔎 Updating todo with ID: "
                         ++ or_empty (group 1 idMatch)) ;;
                 ret [FEq col_id (VStr (or_empty (group 1 idMatch)))]
             | None => ret []
             end
           else if includes (lit "title =") whereClause then
             match exec re_title_eq whereClause with
             | Some titleMatch =>
                 let title := or_empty (group 1 titleMatch) in
                 push (lit "🔎 Updating todo with exact title: "
                         ++ quoted title) ;;
                 ret [FEq col_title (VStr title)]
             | None => ret []
             end
           else if includes (lit "title LIKE") whereClause then
             match exec re_title_like whereClause with
             | Some likeMatch =>
                 let searchTerm := or_empty (group 1 likeMatch) in
                 push (lit "🔎 Updating todos containing: "
                         ++ quoted searchTerm) ;;
                 ret [FIlike col_title (lit "%" ++ searchTerm ++ lit "%")]
             | None => ret []
             end
           else if includes (lit "ORDER BY") whereClause
                   && includes (lit "LIMIT") whereClause then
             r <- ask Store.select_oldest ;;
             match r with
             | inr firstTodo =>
                 push (lit "🔎 Updating first todo (ID: "
                         ++ show_nat (id firstTodo) ++ lit ")") ;;
                 ret [FEq col_id (VNum (id firstTodo))]
             | inl _ => ret []
             end
           else
             throw (lit "Unsupported WHERE clause in UPDATE: " ++ whereClause)) ;;
        r <- ask (Store.update column value query) ;;
        match r with
        | inl e => throw (lit "Update failed: " ++ e)
        | inr data =>
            push (lit "✅ Successfully updated " ++ show_nat (length data)
                    ++ lit " todo(s)") ;;
            getAllTodos
        end
  end.

(* /DELETE FROM todos(?:\s+WHERE\s+(.+))?/i *)
Definition deletePattern : Re.t :=
  re true
    [w "DELETE FROM todos";
     opt (seqs [plus ws; w "WHERE"; plus ws; Group 1 (plus Dot)])].

Definition handleDeleteQuery (sql : str) : io payload :=
  match exec deletePattern sql with
  | None => throw (lit "Could not parse DELETE statement")
  | Some m =>
      let whereClause := or_empty (group 1 m) in
      if negb (truthy whereClause)
      then throw (lit "DELETE without WHERE clause is not allowed for safety")
      else
        push (lit "🔎 Parsed DELETE with WHERE: " ++ whereClause) ;;
        query <-
          (if includes (lit "id =") whereClause then
             match exec re_id_eq whereClause with
             | Some idMatch =>
                 push (lit "🔎 Deleting todo with ID: "
                         ++ or_empty (group 1 idMatch)) ;;
                 ret [FEq col_id (VStr (or_empty (group 1 idMatch)))]
             | None => ret []
             end
           else if includes (lit "title =") whereClause then
             match exec re_title_eq whereClause with
             | Some titleMatch =>
                 let title := or_empty (group 1 titleMatch) in
                 push (lit "🔎 Deleting todo with title: " ++ quoted title) ;;
                 ret [FEq col_title (VStr title)]
             | None => ret []
             end
           else if includes (lit "title LIKE") whereClause then
             match exec re_title_like whereClause with
             | Some likeMatch =>
                 let searchTerm := or_empty (group 1 likeMatch) in
                 push (lit "🔎 Deleting todos containing: "
                         ++ quoted searchTerm) ;;
                 ret [FIlike col_title (lit "%" ++ searchTerm ++ lit "%")]
             | None => ret []
             end
           else throw (lit "Unsupported WHERE clause in DELETE statement")) ;;
        r <- ask (Store.delete query) ;;
        match r with
        | Some e => throw (lit "Delete failed: " ++ e)
        | None =>
            push (lit "✅ Successfully deleted todo(s)") ;;
            getAllTodos
        end
  end.

(* /^\s*/ *)
Definition re_leading_space : Re.t := re false [Bol; star ws].

(** [s.split(re)[0]] for a pattern that never matches the empty string: the
    text before the first match, or all of [s]. *)
Definition split_head (re : Re.t) (s : str) : str :=
  match exec re s with
  | Some f => firstn (f_index f) s
  | None => s
  end.

Definition allowedTypes : list str :=
  map lit ["select"; "insert"; "update"; "delete"]%string.

Definition member (x : str) (l : list str) : bool := existsb (str_eqb x) l.

Definition executeSQLQuery (sqlQuery : str) : io payload :=
  let cleanedSQL := extractCleanSQL sqlQuery in
  let queryType :=
    split_head re_spaces
      (replace re_leading_space [] (toLowerCase cleanedSQL)) in
  push (lit "🔎 Cleaned SQL: " ++ quoted cleanedSQL) ;;
  push (lit "🔎 Detected query type: " ++ quoted queryType) ;;
  if negb (member queryType allowedTypes) then
    throw (lit "Unsupported query type: " ++ quoted queryType
             ++ lit ". Allowed types: select, insert, update, delete"
             ++ lit ". Raw input: " ++ quoted sqlQuery)
  else
    catch
      (if str_eqb queryType (lit "insert") then handleInsertQuery cleanedSQL
       else if str_eqb queryType (lit "select") then handleSelectQuery cleanedSQL
       else if str_eqb queryType (lit "update") then handleUpdateQuery cleanedSQL
       else if str_eqb queryType (lit "delete") then handleDeleteQuery cleanedSQL
       else throw (lit "Unsupported query type: " ++ queryType))
      (fun errorMessage =>
         throw (lit "Database execution error: " ++ errorMessage)).

(** ** Validator, generator and orchestrator *)

Record verdict : Type := Verdict {
  valid : bool;
  reason : option str;
  suggestion : option str
}.

(** Truthiness of an optional string property: [undefined] and the empty
    string are both falsy. *)
Definition present (o : option str) : bool := truthy (or_empty o).

(* /\{[\s\S]*\}/ *)
Definition re_json_block : Re.t := re false [w "{"; star any; w "}"].

(* /VALUES\s*\([^'DQ][^,)]+,\s*(true|false|\d+)\)/i *)
Definition re_unquoted_values : Re.t :=
  re true
    [w "VALUES"; star ws; w "("; none_of quote;
     plus (none_of [IChar ","; IChar ")"]); w ","; star ws;
     Group 1 (alts [w "true"; w "false"; plus dg]); w ")"].

Definition dangerous : list str :=
  map lit ["drop"; "alter"; "truncate"; "delete from todos";
           "update todos set"]%string.

Definition isDangerous (sqlQuery : str) : bool :=
  existsb (fun keyword => includes (toLowerCase keyword) (toLowerCase sqlQuery))
          dangerous.

Definition dangerous_reason : str :=
  lit "Query contains potentially dangerous operations".

Definition unquoted_reason : str :=
  lit "String literals must be properly quoted with single quotes".

Definition hasUnquotedStrings (sqlQuery : str) : bool :=
  test re_unquoted_values sqlQuery.

(** The local heuristics that follow the [try] block of
    [validateSQLWithGemini]. *)
Definition fallbackValidation (originalQuery sqlQuery : str) : verdict :=
  if hasUnquotedStrings sqlQuery then
    Verdict false (Some unquoted_reason)
            (Some (fixSQLSyntax sqlQuery originalQuery))
  else
    Verdict (negb (isDangerous sqlQuery) && (0 <? length (trim sqlQuery)))
            (if isDangerous sqlQuery then Some dangerous_reason else None)
            None.

(** The request body, the environment and the replies of the two completion
    providers: everything the route reads from outside. *)
Record env : Type := Env {
  SUPABASE_URL : str;
  SUPABASE_SERVICE_ROLE_KEY : str;
  GROQ_API_KEY : str;
  body : str + option str;          (* [request.json()] throws, or [body.query] *)
  groq : str + option str;          (* the call throws, or the reply's content *)
  gemini : option str               (* [None]: the call throws *)
}.

Record bundle : Type := Bundle {
  original : option str;
  preprocessed : option str;
  intent : option str;
  generatedSQL : option str;
  validatedSQL : option str
}.

Record response : Type := Response {
  status : nat;
  success : bool;
  r_message : option str;
  r_sql : option str;
  r_data : option payload;
  r_error : option str;
  r_suggestion : option str;
  r_milestones : list str;
  r_queries : bundle
}.

Section Route.

(** [JSON.parse] restricted to the three properties the route reads; [None]
    when it throws, and also when the value it returns carries a
    [suggestedFix] that is not a string: [extractCleanSQL] then throws inside
    the same [try], and the [catch] block decides as for a reply that does
    not parse. *)
Variable JSON_parse : str -> option verdict.

Definition validateSQLWithGemini (reply : option str)
  (originalQuery sqlQuery : str) : verdict :=
  let parsed :=
    match reply with
    | None => None
    | Some text =>
        match exec re_json_block text with
        | Some jsonMatch => JSON_parse (matched jsonMatch)
        | None => None
        end
    end in
  match parsed with
  | Some parsed =>
      if present (suggestion parsed) then
        Verdict (valid parsed) (reason parsed)
                (Some (fixSQLSyntax
                         (extractCleanSQL (or_empty (suggestion parsed)))
                         originalQuery))
      else parsed
  | None => fallbackValidation originalQuery sqlQuery
  end.

(** [generateSQLWithGroq] after the provider has answered with [content]. *)
Definition generateSQLWithGroq (content : option str) (query : str) : str :=
  let sqlQuery := trim (or_empty content) in
  fixSQLSyntax (extractCleanSQL sqlQuery) query.

Definition failure (code : nat) (error : str) (suggested : option str)
  (sql : option str) (ms : list str) (queries : bundle) : response :=
  Response code false None sql None (Some error) suggested ms queries.

Definition no_queries : bundle := Bundle None None None None None.

(** The [catch] block of [POST]. *)
Definition crashed (errorMessage : str) (queries : bundle) (w : world)
  : response * world :=
  let (_, w) := push (lit "❌ Error: " ++ errorMessage) w in
  (failure 500 errorMessage None None (milestones w) queries, w).

Definition pushes (ms : list str) (w : world) : world :=
  World (rows w) (next_id w) (clock w) (faults w) (calls w)
        (milestones w ++ ms).

Definition reason_text (o : option str) : str :=
  match o with Some r => r | None => lit "undefined" end.

(** The end of [POST], from the line after
    [const validation = await validateSQLWithGemini(query, sqlQuery)]. *)
Definition conclude (query cleanedQuery intent sqlQuery : str)
  (validation : verdict) (w : world) : response * world :=
  let finalSQL :=
    if present (suggestion validation)
    then or_empty (suggestion validation)
    else sqlQuery in
  let unaided :=
    negb (valid validation) && negb (present (suggestion validation)) in
  let finalSQL :=
    if unaided then fixSQLSyntax sqlQuery query else finalSQL in
  let w :=
    if unaided then pushes [lit "🔧 Applied automatic SQL fixes"] w else w in
  let queries :=
    Bundle (Some query) (Some cleanedQuery) (Some intent)
           (Some sqlQuery) (Some finalSQL) in
  let w :=
    pushes [lit "✅ Milestone 5: SQL validation "
              ++ (if valid validation then lit "passed" else lit "failed");
            lit "🔎 Validated SQL: " ++ quoted finalSQL] w in
  if unaided && str_eqb finalSQL sqlQuery then
    (failure 400
       (lit "SQL validation failed: " ++ reason_text (reason validation)
          ++ lit ". Unable to auto-correct.")
       (Some finalSQL) (Some sqlQuery) (milestones w) queries, w)
  else
    let w :=
      pushes [lit "🔄 Milestone 6: Parsing and executing SQL query..."] w in
    match executeSQLQuery finalSQL w with
    | (Ok result, w) =>
        let w := pushes [lit "✅ Milestone 6: Query executed successfully"] w in
        (Response 200 true
           (Some (lit "Successfully processed: " ++ quoted query))
           (Some finalSQL) (Some result) None None (milestones w) queries, w)
    | (Thrown errorMessage, w) => crashed errorMessage queries w
    end.

Definition POST (e : env) (w0 : world) : response * world :=
  let w := World (rows w0) (next_id w0) (clock w0) (faults w0) (calls w0) [] in
  if negb (truthy (SUPABASE_URL e)) || negb (truthy (SUPABASE_SERVICE_ROLE_KEY e))
  then (failure 500 (lit "Database configuration missing") None None
          [lit "❌ Database not configured"] no_queries, w)
  else if negb (truthy (GROQ_API_KEY e))
  then (failure 500 (lit "AI service configuration missing") None None
          [lit "❌ AI services not configured"] no_queries, w)
  else
    match body e with
    | inl errorMessage => crashed errorMessage no_queries w
    | inr field =>
        if negb (present field)
        then (failure 400 (lit "Natural language query is required") None None
                [lit "❌ Validation failed - No query provided"] no_queries, w)
        else
          let query := or_empty field in
          let w :=
            pushes [lit "✅ Milestone 1: Query received and validated";
                    lit "🔎 Query: " ++ quoted query] w in
          let cleanedQuery := preprocessQuery query in
          let w :=
            pushes [lit "✅ Milestone 2: Query preprocessing completed";
                    lit "🔎 Preprocessed Query: " ++ quoted cleanedQuery] w in
          let intent := classifyIntent cleanedQuery in
          let w :=
            pushes [lit "✅ Milestone 3: Intent classified as " ++ quoted intent;
                    lit "🔎 Intent: " ++ quoted intent;
                    lit "🔄 Milestone 4: Generating SQL with Groq AI..."] w in
          match groq e with
          | inl errorMessage =>
              crashed errorMessage
                (Bundle (Some query) (Some cleanedQuery) (Some intent) None None)
                w
          | inr content =>
              let sqlQuery := generateSQLWithGroq content cleanedQuery in
              let w :=
                pushes [lit "✅ Milestone 4: SQL generated successfully";
                        lit "🔎 Generated SQL: " ++ quoted sqlQuery;
                        lit "🔄 Milestone 5: Validating SQL with Gemini..."] w in
              let validation :=
                validateSQLWithGemini (gemini e) query sqlQuery in
              conclude query cleanedQuery intent sqlQuery validation w
          end
    end.

End Route.

(** ** Vocabulary of the statements *)

(** What a pattern can match, as a relation between the state before and the
    state after: the declarative reading of [rmatch], without priorities. *)
Inductive matches (icase : bool) : regex -> mstate -> mstate -> Prop :=
| M_eps s : matches icase Eps s s
| M_lit a c t s :
    m_rest s = c :: t -> char_eq icase a c = true ->
    matches icase (Lit a) s (advance s)
| M_cls neg items c t s :
    m_rest s = c :: t -> cls_ok icase neg items c = true ->
    matches icase (Cls neg items) s (advance s)
| M_dot c t s :
    m_rest s = c :: t -> is_newline c = false ->
    matches icase Dot s (advance s)
| M_seq a b s1 s2 s3 :
    matches icase a s1 s2 -> matches icase b s2 s3 ->
    matches icase (Seq a b) s1 s3
| M_alt_l a b s1 s2 :
    matches icase a s1 s2 -> matches icase (Alt a b) s1 s2
| M_alt_r a b s1 s2 :
    matches icase b s1 s2 -> matches icase (Alt a b) s1 s2
| M_star_0 g a s : matches icase (Star g a) s s
| M_star_S g a s1 s2 s3 :
    matches icase a (reset_caps (groups_of a) s1) s2 ->
    matches icase (Star g a) s2 s3 ->
    matches icase (Star g a) s1 s3
| M_opt_0 g a s : matches icase (Opt g a) s s
| M_opt_1 g a s1 s2 :
    matches icase a (reset_caps (groups_of a) s1) s2 ->
    matches icase (Opt g a) s1 s2
| M_group n a s1 s2 :
    matches icase a s1 s2 ->
    matches icase (Group n a) s1 (set_cap n s1 s2)
| M_bol s : m_pos s = 0 -> matches icase Bol s s
| M_eol s : m_rest s = [] -> matches icase Eol s s.

(** Same text, letter case apart. *)
Definition same_ci (icase : bool) (u x : str) : Prop :=
  Forall2 (fun a c => char_eq icase a c = true) u x.

(** The text starts with a whitespace character, the keyword WHERE in any
    letter case, and another whitespace character. *)
Definition where_here (s : str) : bool :=
  match s with
  | c :: t =>
      is_space c && startsWith (lit "WHERE") (toUpperCase t)
      && match skipn 5 t with d :: _ => is_space d | [] => false end
  | [] => false
  end.

(** The text has a WHERE keyword somewhere, set off by whitespace on both
    sides: what the handlers' patterns need before they read a clause. *)
Fixpoint hasWhereKeyword (s : str) : bool :=
  where_here s
  || match s with
     | [] => false
     | _ :: t => hasWhereKeyword t
     end.

(** The optional tail [(?:\s+WHERE\s+(.+))?] of the UPDATE and DELETE
    patterns, with the clause in group [n]. *)
Definition where_tail (n : nat) : regex :=
  seqs [plus ws; w "WHERE"; plus ws; Group n (plus Dot)].

(** A row after [completed] has been set. *)
Definition complete_row (r : todo) : todo :=
  Todo (id r) (title r) true (created_at r).

(** The four intents. *)
Definition intents : list str :=
  map lit ["CREATE"; "READ"; "UPDATE"; "DELETE"]%string.

(** The cues of the first test of [classifyIntent]. *)
Definition read_cue (q : str) : bool :=
  has "show" q || has "list" q || has "display" q || has "get" q.

(** The cues of its second and third tests. *)
Definition compound_cue (q : str) : bool :=
  (has "mark" q && (has "done" q || has "complete" q))
  || has "finish" q || (has "set" q && has "done" q).

(** The statement holds one of the five fixed substrings, letter case
    apart. *)
Definition flagged (sqlQuery : str) : Prop :=
  includes (lit "drop") (toLowerCase sqlQuery) = true
  \/ includes (lit "alter") (toLowerCase sqlQuery) = true
  \/ includes (lit "truncate") (toLowerCase sqlQuery) = true
  \/ includes (lit "delete from todos") (toLowerCase sqlQuery) = true
  \/ includes (lit "update todos set") (toLowerCase sqlQuery) = true.

(** The provider call failed, or its reply holds no [{...}] block. *)
Definition no_json_block (reply : option str) : Prop :=
  reply = None
  \/ exists text, reply = Some text /\ test re_json_block text = false.

(** The configuration is present, the body carries a query, and the
    generation provider has answered: the request reaches validation. *)
Definition reaches_validation (e : env) (query : str) (content : option str)
  : Prop :=
  truthy (SUPABASE_URL e) = true
  /\ truthy (SUPABASE_SERVICE_ROLE_KEY e) = true
  /\ truthy (GROQ_API_KEY e) = true
  /\ body e = inr (Some query) /\ truthy query = true
  /\ groq e = inr content.

(** Two worlds with the same store: rows, counters, pending faults and the
    log of calls. *)
Definition same_store (w w' : world) : Prop :=
  rows w' = rows w /\ next_id w' = next_id w /\ clock w' = clock w
  /\ faults w' = faults w /\ calls w' = calls w.

(** A configured request for "show all tasks", answered by the generation
    provider, with the validation provider unreachable; and a small table. *)
Definition sample_env : env :=
  Env (lit "https://todos.example") (lit "service-role") (lit "groq-key")
      (inr (Some (lit "show all tasks")))
      (inr (Some (lit "SELECT * FROM todos;")))
      None.

Definition sample_world : world :=
  World [Todo 1 (lit "Learn ShadCN components") false 10;
         Todo 2 (lit "Build NLP-to-SQL app") true 20]
        3 30 [] [] [].

(** What [escapeQuotes] does to one character. *)
Definition escape_char (c : ascii) : str :=
  if Ascii.eqb c sq then [sq; sq] else [c].

(** A scanner for the shape the INSERT pattern needs around its title: a
    quote that follows a character other than a quote, one or more characters
    other than a quote, and a quote followed by a character other than a
    quote. *)
Inductive scan : Type :=
| Fresh      (* at the start, or after a quote that opens nothing *)
| Plain      (* after a character other than a quote *)
| Opened     (* after an opening quote *)
| Inside     (* inside the title *)
| Closed     (* after the closing quote *)
| Seen.      (* the shape has occurred *)

Definition scan_step (st : scan) (c : ascii) : scan :=
  if Ascii.eqb c sq then
    match st with
    | Plain => Opened
    | Inside => Closed
    | Seen => Seen
    | _ => Fresh
    end
  else
    match st with
    | Fresh | Plain => Plain
    | Opened | Inside => Inside
    | Closed | Seen => Seen
    end.

Definition scan_all (s : str) (st : scan) : scan := fold_left scan_step s st.

Definition no_quote (s : str) : Prop := Forall (fun c => c <> sq) s.

(** Scanner states with no quote pending, and states before the closing
    quote. *)
Definition settled (st : scan) : bool :=
  match st with Fresh | Plain => true | _ => false end.

Definition unseen (st : scan) : bool :=
  match st with Closed | Seen => false | _ => true end.

(** Newest first: no row is followed by one created later. *)
Definition newest_first (l : list todo) : Prop :=
  StronglySorted (fun a b => created_at b <= created_at a) l.

(** The filter a WHERE clause stands for: the first of the three shapes found
    in it, tried in the order LIKE, exact title, completed flag, or none. *)
Definition clause_filter (clause : str) : list filter :=
  match exec re_title_like clause with
  | Some likeMatch =>
      [FIlike col_title (lit "%" ++ or_empty (group 1 likeMatch) ++ lit "%")]
  | None =>
      match exec re_title_eq clause with
      | Some titleMatch => [FEq col_title (VStr (or_empty (group 1 titleMatch)))]
      | None =>
          match exec re_completed_eq clause with
          | Some completedMatch =>
              [FEq col_completed
                   (VBool (str_eqb
                             (toLowerCase (or_empty (group 1 completedMatch)))
                             (lit "true")))]
          | None => []
          end
      end
  end.

(** The filter a SELECT statement stands for: that of its WHERE clause, none
    when it has no such clause. *)
Definition statement_filter (sql : str) : list filter :=
  match exec re_where sql with
  | Some whereMatch => clause_filter (trim (or_empty (group 1 whereMatch)))
  | None => []
  end.










(** [s] holds the keyword [k] in some letter case. *)
Definition holds_ci (k s : str) : Prop :=
  exists pre mid post, s = pre ++ mid ++ post /\ toUpperCase mid = k.

(** One of the two texts is a prefix of the other. *)
Definition compat (a b : str) : bool := startsWith a b || startsWith b a.

(** An occurrence of [X] and an occurrence of [k] can share a character:
    [k] can start inside [X], or [X] inside [k]. *)
Definition clashes (X k : str) : bool :=
  existsb (fun j => compat (skipn j X) k) (seq 0 (length X))
  || existsb (fun j => compat X (skipn j k)) (seq 0 (length k)).

Definition nl : ascii := "010"%char.

(** ** Vocabulary of the further properties *)

(** Requests that change the table. *)
Definition mutating (c : call) : bool :=
  match c with
  | CInsert _ _ | CUpdate _ _ _ | CDelete _ => true
  | CSelect _ _ | CSelectOldest => false
  end.

(** What running a statement leaves behind: the requests [cs] appended to
    the log, one pending fault used up by each, and milestones appended. *)
Definition footprint (w w' : world) (cs : list call) : Prop :=
  calls w' = calls w ++ cs
  /\ faults w' = skipn (length cs) (faults w)
  /\ exists ms, milestones w' = milestones w ++ ms.

(** The same row after an UPDATE: its id and creation time are kept, and at
    most one of its two other columns has changed. *)
Definition same_identity (r r' : todo) : Prop :=
  id r' = id r /\ created_at r' = created_at r
  /\ (title r' = title r \/ completed r' = completed r).

(** The first word of the cleaned statement, as [executeSQLQuery] reads
    it. *)
Definition queryType (sqlQuery : str) : str :=
  split_head re_spaces
    (replace re_leading_space [] (toLowerCase (extractCleanSQL sqlQuery))).

(** The column an UPDATE statement assigns, as [handleUpdateQuery] reads it:
    the first group of the quoted pattern, or else of the unquoted one. *)
Definition assigned_column (sql : str) : option str :=
  option_map (fun m => or_empty (group 1 m))
    (match exec updatePattern sql with
     | Some m => Some m
     | None => exec updatePatternNoQuotes sql
     end).

(** The UPDATE statement assigns [title] or [completed], or cannot be read
    at all. *)
Definition keeps_keys (sql : str) : bool :=
  match assigned_column sql with
  | Some column => str_eqb column col_title || str_eqb column col_completed
  | None => true
  end.

(** The statement is dispatched as an UPDATE and assigns another column:
    [id], [created_at], or one the table does not have. *)
Definition rewrites_keys (sqlQuery : str) : bool :=
  str_eqb (queryType sqlQuery) (lit "update")
  && negb (keeps_keys (extractCleanSQL sqlQuery)).

(** The rows of [w'] are rows of [w] with their identity kept, or carry the
    id the store would give next. *)
Definition rows_kept (w w' : world) : Prop :=
  forall r', In r' (rows w') ->
    (exists r, In r (rows w) /\ same_identity r r') \/ id r' = next_id w.

(** What every handler keeps to: at most three requests, at most one of them
    changing the table; the table grows by at most one row; at most one id
    is used. *)
Definition handled (w w' : world) : Prop :=
  (exists cs,
      footprint w w' cs
      /\ length (List.filter mutating cs) <= 1 /\ length cs <= 3)
  /\ length (rows w') <= S (length (rows w))
  /\ next_id w <= next_id w' <= S (next_id w).

(** The three configuration values are set. *)
Definition configured (e : env) : Prop :=
  truthy (SUPABASE_URL e) = true
  /\ truthy (SUPABASE_SERVICE_ROLE_KEY e) = true
  /\ truthy (GROQ_API_KEY e) = true.

(** The two shapes of a response: a success carries data, a message and the
    statement that was run; a failure carries an error and no data. *)
Definition well_formed (r : response) : Prop :=
  (status r = 200 /\ success r = true
   /\ r_data r <> None /\ r_message r <> None
   /\ r_sql r <> None /\ r_sql r = validatedSQL (r_queries r)
   /\ r_error r = None /\ r_suggestion r = None)
  \/ ((status r = 400 \/ status r = 500) /\ success r = false
      /\ r_data r = None /\ r_message r = None /\ r_error r <> None).

(** The milestones of a request up to the call of the validator. *)
Definition opening (query sqlQuery : str) : list str :=
  [lit "✅ Milestone 1: Query received and validated";
   lit "🔎 Query: " ++ quoted query;
   lit "✅ Milestone 2: Query preprocessing completed";
   lit "🔎 Preprocessed Query: " ++ quoted (preprocessQuery query);
   lit "✅ Milestone 3: Intent classified as "
     ++ quoted (classifyIntent (preprocessQuery query));
   lit "🔎 Intent: " ++ quoted (classifyIntent (preprocessQuery query));
   lit "🔄 Milestone 4: Generating SQL with Groq AI...";
   lit "✅ Milestone 4: SQL generated successfully";
   lit "🔎 Generated SQL: " ++ quoted sqlQuery;
   lit "🔄 Milestone 5: Validating SQL with Gemini..."].

(** The last milestone of a response that went through validation. *)
Definition closing (r : response) : str :=
  if status r =? 200
  then lit "✅ Milestone 6: Query executed successfully"
  else if status r =? 400
  then lit "🔎 Validated SQL: " ++ quoted (or_empty (r_suggestion r))
  else lit "❌ Error: " ++ or_empty (r_error r).

(** The world as a request finds it: the store as it is, the trace empty. *)
Definition fresh (w : world) : world :=
  World (rows w) (next_id w) (clock w) (faults w) (calls w) [].

(** The statement [POST] hands to [executeSQLQuery] after the verdict [v] on
    the generated statement [sqlQuery]. *)
Definition executed (query sqlQuery : str) (v : verdict) : str :=
  if present (suggestion v) then or_empty (suggestion v)
  else if valid v then sqlQuery else fixSQLSyntax sqlQuery query.

(** A request to delete task 3, with the validation provider unreachable;
    and a request the generation provider answers with a DROP statement that
    the validation provider approves. *)
Definition delete_env : env :=
  Env (lit "https://todos.example") (lit "service-role") (lit "groq-key")
      (inr (Some (lit "delete task 3")))
      (inr (Some (lit "DELETE FROM todos WHERE id = 3")))
      None.

Definition drop_env : env :=
  Env (lit "https://todos.example") (lit "service-role") (lit "groq-key")
      (inr (Some (lit "clear the table")))
      (inr (Some (lit "DROP TABLE todos")))
      (Some (lit "{}")).

(** A request to finish task 1, which the validation provider approves. *)
Definition finish_env : env :=
  Env (lit "https://todos.example") (lit "service-role") (lit "groq-key")
      (inr (Some (lit "mark task 1 done")))
      (inr (Some (lit "UPDATE todos SET completed = true WHERE id = 1")))
      (Some (lit "{}")).

(** A [JSON.parse] that reads every block as an approval. *)
Definition approve (text : str) : option verdict :=
  Some (Verdict true None None).

(** The small table again, behind a store that answers the next request
    with an error. *)
Definition failing_world : world :=
  World [Todo 1 (lit "Learn ShadCN components") false 10;
         Todo 2 (lit "Build NLP-to-SQL app") true 20]
        3 30 [Some (lit "connection lost")] [] [].

(** A payload that shows rows of the table [w'] holds: newest first, with
    the count it announces. *)
Definition shown (w' : world) (p : payload) : Prop :=
  count p = length (todos p)
  /\ newest_first (todos p)
  /\ forall r, In r (todos p) -> In r (rows w').

(** The last request in the log is a read. *)
Definition ends_with_read (w' : world) : Prop :=
  exists l fs, calls w' = l ++ [CSelect fs false].

(** A text in the ASCII range, where the case conversions of the model are
    those of JavaScript. *)
Definition ascii_text (s : str) : bool := forallb (fun c => code c <? 128) s.

(** A text that neither starts nor ends with a whitespace character. *)
Definition trimmed (s : str) : Prop :=
  match s with
  | [] => True
  | c :: _ => is_space c = false /\ is_space (last s c) = false
  end.

(** The text starts with one of the four statement keywords, letter case
    apart. *)
Definition starts_with_keyword (s : str) : Prop :=
  exists k, In k sqlKeywords /\ startsWith k (toUpperCase s) = true.

(** What [.replace(/[^\w\s]/g, ' ')] does to one character. *)
Definition blank_punct (c : ascii) : ascii :=
  if is_word c || is_space c then c else " "%char.

(** What [.replace(/\s+/g, ' ')] does: every run of whitespace becomes one
    blank.  [inside] says that the text follows whitespace of a run already
    replaced. *)
Fixpoint collapse (inside : bool) (s : str) : str :=
  match s with
  | [] => []
  | c :: t =>
      if is_space c
      then if inside then collapse true t else " "%char :: collapse true t
      else c :: collapse false t
  end.

(** The length of the run of whitespace a text starts with. *)
Fixpoint lead (s : str) : nat :=
  match s with
  | c :: t => if is_space c then S (lead t) else 0
  | [] => 0
  end.

(** The characters [preprocessQuery] can return: lower-case letters, digits,
    the underscore and the blank. *)
Definition plain (c : ascii) : bool :=
  is_lower c || is_digit c || Ascii.eqb c "_" || Ascii.eqb c " ".

(** A request the generation provider answers with nothing, with the
    validation provider unreachable. *)
Definition silent_env : env :=
  Env (lit "https://todos.example") (lit "service-role") (lit "groq-key")
      (inr (Some (lit "what should I do today")))
      (inr None)
      None.

(** The number of characters of a text up to its last closing brace, that
    brace included; [None] when it has none. *)
Fixpoint to_last_brace (s : str) : option nat :=
  match s with
  | [] => None
  | c :: t =>
      match to_last_brace t with
      | Some n => Some (S n)
      | None => if Ascii.eqb c "}" then Some 1 else None
      end
  end.

(** The text from the first opening brace to the last closing brace after
    it. *)
Fixpoint json_block (s : str) : option str :=
  match s with
  | [] => None
  | c :: t =>
      if Ascii.eqb c "{" then
        match to_last_brace t with
        | Some n => Some (firstn (S n) s)
        | None => json_block t
        end
      else json_block t
  end.

(** The INSERT statement of the generation prompt's examples, for a title
    [t] and a flag. *)
Definition insert_statement (t : str) (flag : bool) : str :=
  lit "INSERT INTO todos (title, completed) VALUES ('" ++ t ++ lit "', "
    ++ Store.bool_text flag ++ lit ")".
(** The text [rest] does not go on with a character that passes [p]. *)
Definition stops (p : ascii -> bool) (rest : str) : Prop :=
  match rest with
  | [] => True
  | c :: _ => p c = false
  end.

(** The characters a pattern for one character takes: a class, or [.]. *)
Definition takes (icase : bool) (r : regex) (c : ascii) : bool :=
  match r with
  | Cls neg items => cls_ok icase neg items c
  | Dot => negb (is_newline c)
  | Lit a => char_eq icase a c
  | _ => false
  end.

(** Patterns for one character. *)
Definition single (r : regex) : bool :=
  match r with
  | Cls _ _ | Dot | Lit _ => true
  | _ => false
  end.

(** The statements for "delete task n" and "mark task n done", with the id
    written in digits [d]. *)
Definition delete_statement (d : str) : str :=
  lit "DELETE FROM todos WHERE id = " ++ d.

Definition complete_statement (flag : bool) (d : str) : str :=
  lit "UPDATE todos SET completed = " ++ Store.bool_text flag
    ++ lit " WHERE id = " ++ d.

(** The row [r] with its flag set to [flag]. *)
Definition flagged_row (flag : bool) (r : todo) : todo :=
  Todo (id r) (title r) flag (created_at r).

(** ** The matcher *)

Lemma star_loop_sound (icase greedy : bool) (a : regex) m k :
  (forall d x z, m d x = Some z ->
     exists y, matches icase a (reset_caps (groups_of a) x) y /\ d y = Some z) ->
  forall fuel x z,
    star_loop greedy m k fuel x = Some z ->
    exists s', matches icase (Star greedy a) x s' /\ k s' = Some z.
Proof.
  intros Hm. induction fuel as [|fuel IH]; intros x z H; [discriminate|].
  simpl in H.
  assert (Hiter : forall y,
             m (fun y => if progress x y then star_loop greedy m k fuel y
                         else None) x = Some y ->
             exists s', matches icase (Star greedy a) x s' /\ k s' = Some y).
  { intros y E. apply Hm in E as (s1 & M1 & E).
    destruct (progress x s1); [|discriminate].
    apply IH in E as (s2 & M2 & E).
    exists s2; split; [eapply M_star_S; eauto | exact E]. }
  destruct greedy.
  - match type of H with
    | match ?e with _ => _ end = _ => destruct e eqn:E
    end.
    + apply Hiter; exact H.
    + exists x; split; [constructor | exact H].
  - destruct (k x) eqn:Ek.
    + inversion H; subst. exists x; split; [constructor | exact Ek].
    + apply Hiter; exact H.
Qed.

Lemma rmatch_sound (icase : bool) :
  forall r k s z,
    rmatch icase r k s = Some z ->
    exists s', matches icase r s s' /\ k s' = Some z.
Proof.
  induction r; intros k s z H; cbn [rmatch] in H.
  - exists s; split; [constructor | exact H].
  - unfold step in H. destruct (m_rest s) eqn:E; [discriminate|].
    destruct (char_eq icase c a) eqn:C; [|discriminate].
    exists (advance s); split; [econstructor; eauto | exact H].
  - unfold step in H. destruct (m_rest s) eqn:E; [discriminate|].
    destruct (cls_ok icase neg items a) eqn:C; [|discriminate].
    exists (advance s); split; [econstructor; eauto | exact H].
  - unfold step in H. destruct (m_rest s) eqn:E; [discriminate|].
    destruct (is_newline a) eqn:C; [discriminate|].
    exists (advance s); split; [econstructor; eauto | exact H].
  - apply IHr1 in H as (s1 & M1 & H). apply IHr2 in H as (s2 & M2 & H).
    exists s2; split; [econstructor; eauto | exact H].
  - destruct (rmatch icase r1 k s) eqn:E.
    + inversion H; subst. apply IHr1 in E as (s1 & M1 & E).
      exists s1; split; [apply M_alt_l; auto | exact E].
    + apply IHr2 in H as (s1 & M1 & H).
      exists s1; split; [apply M_alt_r; auto | exact H].
  - eapply star_loop_sound; [|exact H].
    intros d x y E. apply IHr in E. exact E.
  - unfold opt_once in H.
    assert (Hiter : forall y,
               rmatch icase r (fun y => if progress s y then k y else None)
                 (reset_caps (groups_of r) s) = Some y ->
               exists s', matches icase (Opt greedy r) s s' /\ k s' = Some y).
    { intros y E. apply IHr in E as (s1 & M1 & E).
      destruct (progress s s1); [|discriminate].
      exists s1; split; [apply M_opt_1; auto | exact E]. }
    destruct greedy.
    + match type of H with
      | match ?e with _ => _ end = _ => destruct e eqn:E
      end.
      * apply Hiter; exact H.
      * exists s; split; [constructor | exact H].
    + destruct (k s) eqn:Ek.
      * inversion H; subst. exists s; split; [constructor | exact Ek].
      * apply Hiter; exact H.
  - apply IHr in H as (s1 & M1 & H).
    exists (set_cap n s s1); split; [constructor; auto | exact H].
  - destruct (m_pos s =? 0) eqn:E; [|discriminate].
    exists s; split; [constructor; apply Nat.eqb_eq; auto | exact H].
  - destruct (m_rest s) eqn:E; [|discriminate].
    exists s; split; [constructor; auto | exact H].
Qed.

Lemma reset_caps_rest ns s : m_rest (reset_caps ns s) = m_rest s.
Proof. reflexivity. Qed.

Lemma reset_caps_pos ns s : m_pos (reset_caps ns s) = m_pos s.
Proof. reflexivity. Qed.

(** A match consumes a prefix of the remaining input and moves the index by
    its length. *)
Lemma matches_consumes icase r s s' :
  matches icase r s s' ->
  exists x, m_rest s = x ++ m_rest s' /\ m_pos s' = m_pos s + length x.
Proof.
  induction 1.
  - exists []; split; [reflexivity | simpl; lia].
  - exists [c]; simpl; rewrite H; split; [reflexivity | lia].
  - exists [c]; simpl; rewrite H; split; [reflexivity | lia].
  - exists [c]; simpl; rewrite H; split; [reflexivity | lia].
  - destruct IHmatches1 as (x & E1 & P1), IHmatches2 as (y & E2 & P2).
    exists (x ++ y); rewrite E1, E2, <- app_assoc, length_app.
    split; [reflexivity | lia].
  - exact IHmatches.
  - exact IHmatches.
  - exists []; split; [reflexivity | simpl; lia].
  - destruct IHmatches1 as (x & E1 & P1), IHmatches2 as (y & E2 & P2).
    rewrite reset_caps_rest in E1. rewrite reset_caps_pos in P1.
    exists (x ++ y); rewrite E1, E2, <- app_assoc, length_app.
    split; [reflexivity | lia].
  - exists []; split; [reflexivity | simpl; lia].
  - exact IHmatches.
  - exact IHmatches.
  - exists []; split; [reflexivity | simpl; lia].
  - exists []; split; [reflexivity | simpl; lia].
Qed.

Lemma get_cap_reset n ns caps :
  ~ In n ns ->
  get_cap n (List.filter (fun e => negb (existsb (Nat.eqb (fst e)) ns)) caps)
  = get_cap n caps.
Proof.
  intros Hn. induction caps as [|[k v] t IH]; [reflexivity|].
  simpl. destruct (existsb (Nat.eqb k) ns) eqn:E; simpl.
  - destruct (k =? n) eqn:Ek; [|exact IH].
    apply Nat.eqb_eq in Ek; subst k.
    apply existsb_exists in E as (x & Hx & Ex).
    apply Nat.eqb_eq in Ex; subst x. contradiction.
  - rewrite IH. reflexivity.
Qed.

(** A match leaves alone the captures of groups that are not in the pattern. *)
Lemma matches_keeps_cap icase r s s' :
  matches icase r s s' ->
  forall n, ~ In n (groups_of r) ->
  get_cap n (m_caps s') = get_cap n (m_caps s).
Proof.
  induction 1; intros k Hk; try reflexivity; simpl in Hk.
  - rewrite IHmatches2, IHmatches1; auto; intro; apply Hk, in_or_app; auto.
  - apply IHmatches; intro; apply Hk, in_or_app; auto.
  - apply IHmatches; intro; apply Hk, in_or_app; auto.
  - rewrite IHmatches2, IHmatches1; auto. apply get_cap_reset; auto.
  - rewrite IHmatches; auto. apply get_cap_reset; auto.
  - simpl. destruct (n =? k) eqn:E.
    + apply Nat.eqb_eq in E. exfalso; apply Hk; auto.
    + apply IHmatches. intro; apply Hk; auto.
Qed.

Lemma search_sound icase r :
  forall rest pos f,
    search icase r pos rest = Some f ->
    exists pre,
      rest = pre ++ f_from f /\ f_index f = pos + length pre /\
      match_at icase r (f_index f) (f_from f) = Some (f_end f).
Proof.
  induction rest as [|c t IH]; intros pos f H; simpl in H.
  - destruct (match_at icase r pos []) eqn:E; [|discriminate].
    inversion H; subst; simpl. exists []; repeat split; auto.
  - destruct (match_at icase r pos (c :: t)) eqn:E.
    + inversion H; subst; simpl. exists []; repeat split; auto.
    + apply IH in H as (pre & E1 & E2 & E3).
      exists (c :: pre); simpl; rewrite E1 at 1.
      repeat split; auto. lia.
Qed.

(** What [exec] finds is a match of the pattern at some index of the input. *)
Lemma exec_sound re0 s f :
  exec re0 s = Some f ->
  exists pre,
    s = pre ++ f_from f /\ f_index f = length pre /\
    matches (ignoreCase re0) (pat re0)
            (MState (f_index f) (f_from f) []) (f_end f).
Proof.
  unfold exec. intros H. apply search_sound in H as (pre & E1 & E2 & E3).
  exists pre; repeat split; auto.
  unfold match_at in E3. apply rmatch_sound in E3 as (s' & M1 & E3).
  inversion E3; subst; exact M1.
Qed.

Lemma matches_seq_inv icase a b s s' :
  matches icase (Seq a b) s s' ->
  exists s1, matches icase a s s1 /\ matches icase b s1 s'.
Proof. inversion 1; subst; eauto. Qed.

Lemma matches_opt_inv icase g a s s' :
  matches icase (Opt g a) s s' ->
  s' = s \/ matches icase a (reset_caps (groups_of a) s) s'.
Proof. inversion 1; subst; auto. Qed.

Lemma matches_alt_inv icase a b s s' :
  matches icase (Alt a b) s s' ->
  matches icase a s s' \/ matches icase b s s'.
Proof. inversion 1; subst; auto. Qed.

Lemma matches_group_inv icase n a s s' :
  matches icase (Group n a) s s' ->
  exists s1, matches icase a s s1 /\ s' = set_cap n s s1.
Proof. inversion 1; subst; eauto. Qed.

Lemma matches_lit_inv icase a s s' :
  matches icase (Lit a) s s' ->
  exists c, m_rest s = c :: m_rest s' /\ char_eq icase a c = true
            /\ m_caps s' = m_caps s.
Proof.
  inversion 1; subst. exists c. simpl. rewrite H1. auto.
Qed.

Lemma matches_cls_inv icase neg items s s' :
  matches icase (Cls neg items) s s' ->
  exists c, m_rest s = c :: m_rest s' /\ cls_ok icase neg items c = true
            /\ m_caps s' = m_caps s.
Proof.
  inversion 1; subst. exists c. simpl. rewrite H2. auto.
Qed.

Lemma matches_eol_inv icase s s' :
  matches icase Eol s s' -> s' = s /\ m_rest s = [].
Proof. inversion 1; subst; auto. Qed.

(** A run of literals matches its own text, letter case apart under [i]. *)
Lemma matches_word_inv icase u :
  forall s s',
    matches icase (word u) s s' ->
    exists x, m_rest s = x ++ m_rest s' /\ same_ci icase u x
              /\ m_caps s' = m_caps s.
Proof.
  induction u as [|a [|b t] IH]; intros s s' H.
  - inversion H; subst. exists []; repeat split; constructor.
  - apply matches_lit_inv in H as (c & E & C & K).
    exists [c]; repeat split; auto. repeat constructor; auto.
  - change (word (a :: b :: t)) with (Seq (Lit a) (word (b :: t))) in H.
    apply matches_seq_inv in H as (s1 & H1 & H2).
    apply matches_lit_inv in H1 as (c & E & C & K).
    apply IH in H2 as (x & E2 & F & K2).
    exists (c :: x); simpl. rewrite E, E2. repeat split.
    + constructor; auto.
    + congruence.
Qed.

(** A starred character class matches a run of characters of the class. *)
Lemma matches_star_cls_inv icase g neg items :
  forall s s',
    matches icase (Star g (Cls neg items)) s s' ->
    exists x, m_rest s = x ++ m_rest s'
              /\ Forall (fun c => cls_ok icase neg items c = true) x
              /\ m_caps s' = m_caps s.
Proof.
  intros s s' H. remember (Star g (Cls neg items)) as r eqn:R.
  induction H; try discriminate.
  - exists []; repeat split; constructor.
  - inversion R; subst. clear IHmatches1.
    destruct (IHmatches2 eq_refl) as (x & E & F & K).
    apply matches_cls_inv in H as (c & E1 & C & K1).
    rewrite reset_caps_rest in E1.
    exists (c :: x); simpl. rewrite E1, E. repeat split; auto.
    rewrite K, K1. simpl.
    clear. induction (m_caps s1) as [|e t IH]; simpl; congruence.
Qed.

Lemma matches_plus_cls_inv icase g neg items s s' :
  matches icase (Plus g (Cls neg items)) s s' ->
  exists c x, m_rest s = c :: x ++ m_rest s'
              /\ Forall (fun c => cls_ok icase neg items c = true) (c :: x)
              /\ m_caps s' = m_caps s.
Proof.
  intros H. apply matches_seq_inv in H as (s1 & H1 & H2).
  apply matches_cls_inv in H1 as (c & E1 & C & K1).
  apply matches_star_cls_inv in H2 as (x & E2 & F & K2).
  exists c, x. rewrite E1, E2. repeat split; auto. congruence.
Qed.

(** ** Fuel of the quantifier loop *)

Lemma star_loop_ext greedy m k1 k2 :
  (forall d1 d2 x, (forall y, d1 y = d2 y) -> m d1 x = m d2 x) ->
  (forall y, k1 y = k2 y) ->
  forall fuel x, star_loop greedy m k1 fuel x = star_loop greedy m k2 fuel x.
Proof.
  intros Hm Hk. induction fuel as [|fuel IH]; intros x; [reflexivity|].
  cbn [star_loop]. rewrite (Hk x).
  rewrite (Hm _ (fun y => if progress x y
                          then star_loop greedy m k2 fuel y else None) x).
  - reflexivity.
  - intros y. destruct (progress x y); [apply IH | reflexivity].
Qed.

(** The result of [rmatch] depends on the continuation only through its
    values. *)
Lemma rmatch_ext icase r :
  forall k1 k2 s, (forall y, k1 y = k2 y) ->
                  rmatch icase r k1 s = rmatch icase r k2 s.
Proof.
  induction r; intros k1 k2 s H; cbn [rmatch].
  - apply H.
  - unfold step. destruct (m_rest s); [reflexivity|].
    destruct (char_eq icase c a); [apply H | reflexivity].
  - unfold step. destruct (m_rest s); [reflexivity|].
    destruct (cls_ok icase neg items a); [apply H | reflexivity].
  - unfold step. destruct (m_rest s); [reflexivity|].
    destruct (negb (is_newline a)); [apply H | reflexivity].
  - apply IHr1. intros y. apply IHr2. exact H.
  - rewrite (IHr1 k1 k2 s H), (IHr2 k1 k2 s H). reflexivity.
  - apply star_loop_ext; [|exact H].
    intros d1 d2 x Hd. apply IHr. exact Hd.
  - unfold opt_once. rewrite (H s).
    rewrite (IHr (fun y => if progress s y then k1 y else None)
                 (fun y => if progress s y then k2 y else None)).
    + reflexivity.
    + intros y. destruct (progress s y); [apply H | reflexivity].
  - apply IHr. intros y. apply H.
  - destruct (m_pos s =? 0); [apply H | reflexivity].
  - destruct (m_rest s); [apply H | reflexivity].
Qed.

(** Any fuel above the length of the remaining input gives the same result:
    the loop never stops for lack of fuel. *)
Lemma star_loop_fuel greedy m k :
  (forall d1 d2 x, (forall y, d1 y = d2 y) -> m d1 x = m d2 x) ->
  forall f1 f2 x,
    length (m_rest x) < f1 -> length (m_rest x) < f2 ->
    star_loop greedy m k f1 x = star_loop greedy m k f2 x.
Proof.
  intros Hm. induction f1 as [|f1 IH]; intros f2 x L1 L2; [lia|].
  destruct f2 as [|f2]; [lia|]. cbn [star_loop].
  rewrite (Hm _ (fun y => if progress x y
                          then star_loop greedy m k f2 y else None) x).
  - reflexivity.
  - intros y. unfold progress. destruct (_ <? _) eqn:P; [|reflexivity].
    apply Nat.ltb_lt in P. apply IH; lia.
Qed.

Lemma star_fuel_enough icase greedy a k s fuel :
  length (m_rest s) < fuel ->
  rmatch icase (Star greedy a) k s
  = star_loop greedy
      (fun d x => rmatch icase a d (reset_caps (groups_of a) x)) k fuel s.
Proof.
  intros L. cbn [rmatch]. apply star_loop_fuel; [|lia|exact L].
  intros d1 d2 x H. apply rmatch_ext. exact H.
Qed.

(** ** UPDATE and DELETE without WHERE *)

Lemma hasWhereKeyword_app pre post :
  where_here post = true -> hasWhereKeyword (pre ++ post) = true.
Proof.
  intros H. induction pre as [|c t IH]; simpl.
  - destruct post; simpl in *; [discriminate|].
    rewrite H. reflexivity.
  - rewrite IH. apply orb_true_r.
Qed.

Lemma char_eq_upper a c : char_eq true a c = true -> upper c = upper a.
Proof.
  unfold char_eq, canon. intros H. apply Ascii.eqb_eq in H. auto.
Qed.

Lemma same_ci_upper u x :
  same_ci true u x -> toUpperCase x = toUpperCase u.
Proof.
  induction 1; simpl; [reflexivity|].
  f_equal; [apply char_eq_upper; auto | auto].
Qed.

Lemma same_ci_length icase u x : same_ci icase u x -> length x = length u.
Proof. induction 1; simpl; auto. Qed.

Lemma startsWith_app p s : startsWith p (p ++ s) = true.
Proof.
  induction p as [|a t IH]; simpl; [reflexivity|].
  rewrite Ascii.eqb_refl. exact IH.
Qed.

Lemma ws_ok icase c : cls_ok icase false [ISpace] c = true -> is_space c = true.
Proof.
  unfold cls_ok; simpl. rewrite orb_false_r. auto.
Qed.

Lemma where_tail_found n s s' :
  matches true (where_tail n) s s' ->
  exists pre post, m_rest s = pre ++ post /\ where_here post = true.
Proof.
  unfold where_tail. cbn [seqs]. intros H.
  apply matches_seq_inv in H as (s1 & H1 & H).
  apply matches_seq_inv in H as (s2 & H2 & H).
  apply matches_seq_inv in H as (s3 & H3 & _).
  apply matches_plus_cls_inv in H1 as (c & x & E1 & F1 & _).
  apply matches_word_inv in H2 as (y & E2 & F2 & _).
  apply matches_plus_cls_inv in H3 as (d & z & E3 & F3 & _).
  destruct (@exists_last _ (c :: x)) as (x' & c' & Ex); [discriminate|].
  assert (Hc' : is_space c' = true).
  { rewrite Ex in F1. apply Forall_app in F1 as [_ F1].
    inversion F1; subst. eapply ws_ok; eauto. }
  assert (Hd : is_space d = true).
  { inversion F3; subst. eapply ws_ok; eauto. }
  exists x', (c' :: y ++ d :: z ++ m_rest s3). split.
  - rewrite E1, E2, E3. change (c :: x ++ ?t) with ((c :: x) ++ t).
    rewrite Ex, <- app_assoc. reflexivity.
  - unfold where_here. rewrite Hc'. cbn [andb].
    unfold toUpperCase. rewrite map_app.
    change (map upper y) with (toUpperCase y).
    rewrite (same_ci_upper F2).
    change (toUpperCase (lit "WHERE")) with (lit "WHERE").
    rewrite startsWith_app. cbn [andb].
    apply same_ci_length in F2. change (length (lit "WHERE")) with 5 in F2.
    rewrite <- F2, skipn_app, skipn_all, Nat.sub_diag. simpl.
    exact Hd.
Qed.

Lemma matches_seqs_snoc icase r :
  forall rs s s',
    matches icase (seqs (rs ++ [r])) s s' ->
    exists s1, matches icase (seqs rs) s s1 /\ matches icase r s1 s'.
Proof.
  induction rs as [|a [|b t] IH]; intros s s' H.
  - exists s; split; [constructor | exact H].
  - apply matches_seq_inv in H as (s1 & H1 & H2). eauto.
  - change (seqs ((a :: b :: t) ++ [r]))
      with (Seq a (seqs ((b :: t) ++ [r]))) in H.
    apply matches_seq_inv in H as (s1 & H1 & H2).
    apply IH in H2 as (s2 & H2 & H3).
    exists s2; split; [|exact H3].
    change (seqs (a :: b :: t)) with (Seq a (seqs (b :: t))).
    econstructor; eauto.
Qed.

(** The clause group of a pattern that ends in the optional WHERE tail is
    set only when the text has a WHERE keyword. *)
Lemma where_group_needs_keyword n front re0 sql m :
  pat re0 = seqs (front ++ [opt (where_tail n)]) ->
  ignoreCase re0 = true ->
  ~ In n (groups_of (seqs front)) ->
  exec re0 sql = Some m ->
  hasWhereKeyword sql = false ->
  group n m = None.
Proof.
  intros Hp Hi Hn E Hw.
  apply exec_sound in E as (pre & Es & _ & M0).
  rewrite Hp, Hi in M0.
  apply matches_seqs_snoc in M0 as (s1 & M1 & M2).
  pose proof (matches_keeps_cap M1 n Hn) as K. simpl in K.
  apply matches_consumes in M1 as (x & Ex & _). simpl in Ex.
  apply matches_opt_inv in M2 as [M2 | M2].
  - unfold group. rewrite M2. exact K.
  - apply where_tail_found in M2 as (pre' & post & Ep & Wh).
    rewrite reset_caps_rest in Ep.
    exfalso. rewrite Es, Ex, Ep in Hw.
    rewrite !app_assoc in Hw.
    rewrite (hasWhereKeyword_app _ _ Wh) in Hw. discriminate.
Qed.

Lemma delete_needs_where sql m :
  exec deletePattern sql = Some m ->
  hasWhereKeyword sql = false ->
  group 1 m = None.
Proof.
  apply (@where_group_needs_keyword 1 [w "DELETE FROM todos"]);
    [reflexivity | reflexivity | simpl; tauto].
Qed.

Lemma update_needs_where sql m :
  exec updatePattern sql = Some m ->
  hasWhereKeyword sql = false ->
  group 3 m = None.
Proof.
  apply (@where_group_needs_keyword 3
           [w "UPDATE todos SET"; plus ws; Group 1 (plus wd); star ws; w "=";
            star ws; ch sq; Group 2 (plus (none_of [IChar sq])); ch sq]);
    [reflexivity | reflexivity | simpl; intuition discriminate].
Qed.

Lemma update_unquoted_needs_where sql m :
  exec updatePatternNoQuotes sql = Some m ->
  hasWhereKeyword sql = false ->
  group 3 m = None.
Proof.
  apply (@where_group_needs_keyword 3
           [w "UPDATE todos SET"; plus ws; Group 1 (plus wd); star ws; w "=";
            star ws; Group 2 (plus (none_of [IChar ","; ISpace]))]);
    [reflexivity | reflexivity | simpl; intuition discriminate].
Qed.

(** C1. An UPDATE or DELETE statement whose text has no WHERE keyword makes
    its handler throw, either the parse error or the "without WHERE clause"
    error, without a single request to the row store: the rows and the log
    of store calls are as before.  The fixture [DELETE FROM todos] throws the
    "without WHERE clause" error and leaves the world untouched. *)
Theorem update_delete_without_where_rejected :
  forall sql w,
    hasWhereKeyword sql = false ->
    (exists e w',
        handleUpdateQuery sql w = (Thrown e, w')
        /\ (e = lit "Could not parse UPDATE statement"
            \/ e = lit "UPDATE without WHERE clause is not allowed for safety")
        /\ rows w' = rows w /\ calls w' = calls w /\ faults w' = faults w
        /\ next_id w' = next_id w /\ clock w' = clock w)
    /\ (exists e,
           handleDeleteQuery sql w = (Thrown e, w)
           /\ (e = lit "Could not parse DELETE statement"
               \/ e = lit "DELETE without WHERE clause is not allowed for safety"))
    /\ handleDeleteQuery (lit "DELETE FROM todos") w
       = (Thrown (lit "DELETE without WHERE clause is not allowed for safety"),
          w).
Proof.
  intros sql w Hw. split; [|split].
  - unfold handleUpdateQuery.
    destruct (exec updatePattern sql) as [m|] eqn:E1.
    + rewrite (update_needs_where _ E1 Hw). simpl.
      unfold bind, push, throw; simpl. eauto 12.
    + destruct (exec updatePatternNoQuotes sql) as [m|] eqn:E2.
      * rewrite (update_unquoted_needs_where _ E2 Hw). simpl.
        unfold bind, push, throw; simpl. eauto 12.
      * unfold throw. eauto 12.
  - unfold handleDeleteQuery.
    destruct (exec deletePattern sql) as [m|] eqn:E1.
    + rewrite (delete_needs_where _ E1 Hw). simpl. unfold throw. eauto.
    + unfold throw. eauto.
  - vm_compute. reflexivity.
Qed.

Lemma update_delete_without_where_rejected_witness :
  exists e,
    handleDeleteQuery (lit "DELETE FROM todos ORDER BY id") sample_world
    = (Thrown e, sample_world)
    /\ (e = lit "Could not parse DELETE statement"
        \/ e = lit "DELETE without WHERE clause is not allowed for safety").
Proof.
  apply (update_delete_without_where_rejected
           (lit "DELETE FROM todos ORDER BY id") sample_world).
  vm_compute. reflexivity.
Defined.

(** ** A WHERE clause that filters nothing *)

Lemma snoc2 {A} (l : list A) a b : (l ++ [a]) ++ [b] = l ++ [a; b].
Proof. rewrite <- app_assoc. reflexivity. Qed.

Lemma snoc3 {A} (l : list A) a b c :
  ((l ++ [a]) ++ [b]) ++ [c] = l ++ [a; b; c].
Proof. rewrite <- !app_assoc. reflexivity. Qed.

Lemma filter_keeps_nil (rs : list todo) :
  List.filter (fun r => negb (Store.keeps [] r)) rs = [].
Proof. induction rs; simpl; auto. Qed.

(** C2. Statements that do carry a WHERE clause and still reach the row
    store with no filter at all.  For [DELETE FROM todos WHERE id = ''] and
    [DELETE FROM todos WHERE id =] the handler takes the [id =] branch, the
    id pattern finds nothing, and the delete request goes out unfiltered:
    every row is gone.  [UPDATE todos SET completed = true WHERE id = '']
    updates every row the same way, and on an empty table the ORDER BY/LIMIT
    branch finds no first row and also sends the update unfiltered. *)
Theorem where_clause_without_filter :
  forall rs n c cl ms,
    let w := World rs n c [] cl ms in
    (includes (lit "id =") (lit "id = ''") = true
     /\ exec re_id_eq (lit "id = ''") = None
     /\ includes (lit "id =") (lit "id =") = true
     /\ exec re_id_eq (lit "id =") = None)
    /\ (hasWhereKeyword (lit "DELETE FROM todos WHERE id = ''") = true
     /\ exists p w',
         handleDeleteQuery (lit "DELETE FROM todos WHERE id = ''") w = (Ok p, w')
         /\ calls w' = cl ++ [CDelete []; CSelect [] false]
         /\ rows w' = [])
    /\ (hasWhereKeyword (lit "DELETE FROM todos WHERE id =") = true
        /\ exists p w',
            handleDeleteQuery (lit "DELETE FROM todos WHERE id =") w = (Ok p, w')
            /\ calls w' = cl ++ [CDelete []; CSelect [] false]
            /\ rows w' = [])
    /\ (exists p w',
           handleUpdateQuery
             (lit "UPDATE todos SET completed = true WHERE id = ''") w
           = (Ok p, w')
           /\ calls w'
              = cl ++ [CUpdate col_completed (VBool true) []; CSelect [] false]
           /\ rows w' = map complete_row rs)
    /\ (exists p w',
           handleUpdateQuery
             (lit "UPDATE todos SET completed = true WHERE title IN (SELECT title FROM todos ORDER BY created_at LIMIT 1)")
             (World [] n c [] cl ms)
           = (Ok p, w')
           /\ calls w'
              = cl ++ [CSelectOldest; CUpdate col_completed (VBool true) [];
                       CSelect [] false]).
Proof.
  intros rs n c cl ms w. subst w.
  split; [repeat split; vm_compute; reflexivity|].
  repeat split.
  - eexists; eexists; split; [vm_compute; reflexivity|].
    split; [exact (snoc2 _ _ _)|]. exact (filter_keeps_nil rs).
  - eexists; eexists; split; [vm_compute; reflexivity|].
    split; [exact (snoc2 _ _ _)|]. exact (filter_keeps_nil rs).
  - eexists; eexists; split; [vm_compute; reflexivity|].
    split; [exact (snoc2 _ _ _)|].
    simpl. induction rs; simpl; [reflexivity | f_equal; assumption].
  - eexists; eexists; split; [vm_compute; reflexivity|].
    exact (snoc3 _ _ _ _).
Qed.

(** ** Preprocessor *)

(** C5, at the input ["a, b"].  The comma is replaced by a blank after the
    runs of whitespace have been collapsed, so the output keeps two blanks
    in a row; a second pass collapses them. *)
Theorem preprocessQuery_not_idempotent :
  preprocessQuery (lit "a, b") = lit "a  b"
  /\ preprocessQuery (preprocessQuery (lit "a, b")) = lit "a b"
  /\ preprocessQuery (preprocessQuery (lit "a, b"))
     <> preprocessQuery (lit "a, b").
Proof.
  repeat split; try (vm_compute; reflexivity).
  vm_compute. discriminate.
Qed.

(** ** Repairer *)

(** C6. The round-trip fixture of the repairer. *)
Theorem fixSQLSyntax_buy_milk :
  extractTaskDescription (lit "add a task to buy milk") = lit "Buy milk"
  /\ fixSQLSyntax
       (lit "INSERT INTO todos (title, completed) VALUES (buy milk, false)")
       (lit "add a task to buy milk")
     = lit "INSERT INTO todos (title, completed) VALUES ('Buy milk', false)".
Proof. split; vm_compute; reflexivity. Qed.

(** ** Intent classifier *)

(** C7. [classifyIntent] is a function into the four intents; text with
    none of the keywords is READ; "mark task as done" is UPDATE; and the
    tests come in a fixed order: the read cues, then the compound cues, then
    the keyword sets for CREATE, DELETE, UPDATE and READ. *)
Theorem classifyIntent_total_with_precedence :
  (forall q, In (classifyIntent q) intents)
  /\ (forall q,
         some_included
           (addKeywords ++ deleteKeywords ++ updateKeywords ++ listKeywords) q
         = false ->
         classifyIntent q = lit "READ")
  /\ classifyIntent (lit "mark task as done") = lit "UPDATE"
  /\ (forall q, read_cue q = true -> classifyIntent q = lit "READ")
  /\ (forall q, read_cue q = false -> compound_cue q = true ->
                classifyIntent q = lit "UPDATE")
  /\ (forall q, read_cue q = false -> compound_cue q = false ->
                classifyIntent q
                = if some_included addKeywords q then lit "CREATE"
                  else if some_included deleteKeywords q then lit "DELETE"
                  else if some_included updateKeywords q then lit "UPDATE"
                  else lit "READ").
Proof.
  split; [|split; [|split; [|split; [|split]]]].
  - intros q. unfold classifyIntent, intents.
    repeat match goal with
           | |- context [if ?b then _ else _] => destruct b
           end; simpl; auto 8.
  - intros q H. unfold classifyIntent.
    assert (Ha : some_included addKeywords q = false
                 /\ some_included deleteKeywords q = false
                 /\ some_included updateKeywords q = false
                 /\ some_included listKeywords q = false).
    { unfold some_included in *. rewrite !existsb_app in H.
      apply orb_false_elim in H as [H0 H].
      apply orb_false_elim in H as [H1 H].
      apply orb_false_elim in H as [H2 H3]. repeat split; assumption. }
    destruct Ha as (Ha & Hd & Hu & Hl). rewrite Ha, Hd, Hu, Hl.
    assert (N : forall k,
               In k (addKeywords ++ deleteKeywords ++ updateKeywords
                       ++ listKeywords) ->
               includes k q = false).
    { intros k Hk. destruct (includes k q) eqn:E; [|reflexivity].
      unfold some_included in H. rewrite <- H. symmetry.
      apply existsb_exists. exists k. split; assumption. }
    unfold has. rewrite !N by (vm_compute; tauto). reflexivity.
  - vm_compute. reflexivity.
  - intros q H. unfold classifyIntent. unfold read_cue in H. rewrite H.
    reflexivity.
  - intros q H1 H2. unfold classifyIntent. unfold read_cue in H1.
    rewrite H1. unfold compound_cue in H2.
    destruct (has "mark" q && (has "done" q || has "complete" q));
      [reflexivity|].
    simpl in H2. rewrite H2. reflexivity.
  - intros q H1 H2. unfold classifyIntent. unfold read_cue in H1.
    rewrite H1. unfold compound_cue in H2.
    apply orb_false_elim in H2 as [H2 H3].
    apply orb_false_elim in H2 as [H2 H4].
    rewrite H2. replace (has "finish" q || has "set" q && has "done" q)
      with false by (rewrite H4, H3; reflexivity).
    destruct (some_included addKeywords q); [reflexivity|].
    destruct (some_included deleteKeywords q); [reflexivity|].
    destruct (some_included updateKeywords q); [reflexivity|].
    destruct (some_included listKeywords q); reflexivity.
Qed.

Lemma classifyIntent_total_with_precedence_witness :
  classifyIntent (lit "hello there") = lit "READ"
  /\ classifyIntent (lit "show me what to mark done") = lit "READ"
  /\ classifyIntent (lit "set task 2 to done") = lit "UPDATE"
  /\ classifyIntent (lit "remove the new task") = lit "CREATE".
Proof.
  destruct classifyIntent_total_with_precedence
    as (_ & Hnone & _ & Hread & Hcompound & Hsets).
  split; [|split; [|split]].
  - apply Hnone. vm_compute. reflexivity.
  - apply Hread. vm_compute. reflexivity.
  - apply Hcompound; vm_compute; reflexivity.
  - rewrite Hsets; vm_compute; reflexivity.
Defined.

(** ** Validator fallback *)

Lemma isDangerous_flagged sqlQuery :
  isDangerous sqlQuery = true <-> flagged sqlQuery.
Proof.
  unfold isDangerous, flagged, dangerous.
  cbn [existsb map].
  change (toLowerCase (lit "drop")) with (lit "drop").
  change (toLowerCase (lit "alter")) with (lit "alter").
  change (toLowerCase (lit "truncate")) with (lit "truncate").
  change (toLowerCase (lit "delete from todos")) with (lit "delete from todos").
  change (toLowerCase (lit "update todos set")) with (lit "update todos set").
  rewrite !orb_true_iff. intuition (try discriminate).
Qed.

Lemma fallback_when_no_json JSON_parse reply originalQuery sqlQuery :
  no_json_block reply ->
  validateSQLWithGemini JSON_parse reply originalQuery sqlQuery
  = fallbackValidation originalQuery sqlQuery.
Proof.
  unfold validateSQLWithGemini.
  intros [-> | (text & -> & H)]; [reflexivity|].
  unfold test in H. destruct (exec re_json_block text); [discriminate | reflexivity].
Qed.

(** C4, as the code has it.  On the fallback path the verdict is invalid
    exactly when the statement holds one of the five fixed substrings in any
    letter case (a DELETE or UPDATE on todos is flagged whether or not a
    WHERE clause follows), or the unquoted-VALUES pattern matches, or the
    statement is blank.  When the pattern matches, the suggestion is the
    repaired statement; otherwise there is no suggestion and the reason is
    the dangerous-operations text exactly for flagged statements. *)
Theorem fallback_verdict :
  forall JSON_parse reply originalQuery sqlQuery,
    no_json_block reply ->
    let v := validateSQLWithGemini JSON_parse reply originalQuery sqlQuery in
    (valid v = false
     <-> flagged sqlQuery \/ hasUnquotedStrings sqlQuery = true
         \/ trim sqlQuery = [])
    /\ (hasUnquotedStrings sqlQuery = true ->
        v = Verdict false (Some unquoted_reason)
                    (Some (fixSQLSyntax sqlQuery originalQuery)))
    /\ (hasUnquotedStrings sqlQuery = false ->
        suggestion v = None
        /\ (flagged sqlQuery -> reason v = Some dangerous_reason)
        /\ (~ flagged sqlQuery -> reason v = None)).
Proof.
  intros JSON_parse reply originalQuery sqlQuery Hr v. subst v.
  rewrite (fallback_when_no_json JSON_parse originalQuery sqlQuery Hr).
  unfold fallbackValidation.
  pose proof (isDangerous_flagged sqlQuery) as D.
  destruct (hasUnquotedStrings sqlQuery) eqn:T; simpl.
  - split; [|split]; [split; auto | reflexivity | intros; discriminate].
  - split; [|split]; [|intros; discriminate|].
    + destruct (isDangerous sqlQuery) eqn:Di; simpl.
      * split; auto. intros _. left. apply D. reflexivity.
      * destruct (trim sqlQuery) eqn:Et; simpl.
        -- split; auto.
        -- split; [discriminate|].
           intros [F | [F | F]]; try discriminate.
           apply D in F. discriminate.
    + intros _. split; [reflexivity|]. split.
      * intros F. apply D in F. rewrite F. reflexivity.
      * intros F. destruct (isDangerous sqlQuery); [|reflexivity].
        exfalso. apply F, D. reflexivity.
Qed.

Lemma fallback_verdict_witness :
  validateSQLWithGemini (fun _ => None) (Some (lit "I cannot answer"))
    (lit "remove everything") (lit "drop table todos")
  = Verdict false (Some dangerous_reason) None.
Proof.
  assert (Hr : no_json_block (Some (lit "I cannot answer"))).
  { right. exists (lit "I cannot answer"). split; [reflexivity|].
    vm_compute. reflexivity. }
  destruct (fallback_verdict (fun _ => None) (lit "remove everything")
              (lit "drop table todos") Hr) as (Hv & _ & Hs).
  destruct Hs as (Hs & Hd & _); [vm_compute; reflexivity|].
  assert (F : flagged (lit "drop table todos")).
  { left. vm_compute. reflexivity. }
  specialize (Hd F). apply proj2 in Hv. specialize (Hv (or_introl F)).
  destruct (validateSQLWithGemini (fun _ => None) (Some (lit "I cannot answer"))
              (lit "remove everything") (lit "drop table todos"))
    as [va re su].
  simpl in *. subst. reflexivity.
Defined.

(** C4 as stated fails: on the fallback path a DELETE qualified by a WHERE
    clause is flagged as dangerous, and so is a qualified UPDATE; a blank
    statement is non-empty and invalid. *)
Lemma fallback_flags_qualified_delete :
  hasWhereKeyword (lit "DELETE FROM todos WHERE id = 3") = true
  /\ validateSQLWithGemini (fun _ => None) None (lit "delete task 3")
       (lit "DELETE FROM todos WHERE id = 3")
     = Verdict false (Some dangerous_reason) None
  /\ validateSQLWithGemini (fun _ => None) None (lit "finish task 3")
       (lit "UPDATE todos SET completed = true WHERE id = 3")
     = Verdict false (Some dangerous_reason) None
  /\ validateSQLWithGemini (fun _ => None) None (lit "hello") (lit " ")
     = Verdict false None None.
Proof. repeat split; vm_compute; reflexivity. Qed.

(** ** Orchestrator: the decision after validation *)

Lemma POST_concludes JSON_parse e w query content :
  reaches_validation e query content ->
  exists w0,
    same_store w w0
    /\ POST JSON_parse e w
       = conclude query (preprocessQuery query)
           (classifyIntent (preprocessQuery query))
           (generateSQLWithGroq content (preprocessQuery query))
           (validateSQLWithGemini JSON_parse (gemini e) query
              (generateSQLWithGroq content (preprocessQuery query)))
           w0.
Proof.
  intros (H1 & H2 & H3 & H4 & H5 & H6).
  assert (HP : present (Some query) = true) by exact H5.
  unfold POST. rewrite H1, H2, H3, H4, H6, HP.
  cbn [negb orb or_empty]. eexists. split; [|reflexivity].
  repeat split; reflexivity.
Qed.

Lemma conclude_cases query cleanedQuery intent sqlQuery v w0 :
  let repaired := fixSQLSyntax sqlQuery query in
  let executed :=
    if present (suggestion v) then or_empty (suggestion v)
    else if valid v then sqlQuery else repaired in
  let r := conclude query cleanedQuery intent sqlQuery v w0 in
  if negb (valid v) && negb (present (suggestion v))
     && str_eqb repaired sqlQuery
  then
    status (fst r) = 400 /\ success (fst r) = false
    /\ r_error (fst r)
       = Some (lit "SQL validation failed: " ++ reason_text (reason v)
                 ++ lit ". Unable to auto-correct.")
    /\ r_data (fst r) = None
    /\ same_store w0 (snd r)
  else
    exists w1,
      same_store w0 w1
      /\ validatedSQL (r_queries (fst r)) = Some executed
      /\ match executeSQLQuery executed w1 with
         | (Ok result, w2) =>
             status (fst r) = 200 /\ success (fst r) = true
             /\ r_sql (fst r) = Some executed
             /\ r_data (fst r) = Some result
             /\ same_store w2 (snd r)
         | (Thrown errorMessage, w2) =>
             status (fst r) = 500 /\ success (fst r) = false
             /\ r_error (fst r) = Some errorMessage
             /\ same_store w2 (snd r)
         end.
Proof.
  intros repaired executed r.
  assert (R : r = conclude query cleanedQuery intent sqlQuery v w0)
    by reflexivity.
  clearbody r. unfold conclude in R. fold repaired in R. clearbody repaired.
  unfold same_store. subst executed.
  destruct (valid v) eqn:Hv; destruct (present (suggestion v)) eqn:Hs;
    cbn [negb andb] in R |- *;
    [ | | |destruct (str_eqb repaired sqlQuery) eqn:Hq];
    try match type of R with
      | context [executeSQLQuery ?x ?w1] =>
          exists w1; destruct (executeSQLQuery x w1) as [[res|err] w2]
      end;
    subst r;
    cbn [fst snd status success r_error r_sql r_data r_queries
         validatedSQL pushes rows next_id clock faults calls crashed
         push failure];
    repeat split; reflexivity.
Qed.

(** C3. Once a request has reached validation: an invalid verdict without a
    suggestion sends the generated statement through [fixSQLSyntax]; if that
    changes nothing the route answers 400 with the verdict's reason and the
    store is untouched; in every other case [executeSQLQuery] runs on the
    validator's suggestion when there is one, else on the generated
    statement, repaired when the verdict was invalid, and the response is
    built from that run. *)
Theorem POST_after_validation :
  forall JSON_parse e w query content,
    reaches_validation e query content ->
    let sqlQuery := generateSQLWithGroq content (preprocessQuery query) in
    let v := validateSQLWithGemini JSON_parse (gemini e) query sqlQuery in
    let repaired := fixSQLSyntax sqlQuery query in
    let executed :=
      if present (suggestion v) then or_empty (suggestion v)
      else if valid v then sqlQuery else repaired in
    let r := POST JSON_parse e w in
    if negb (valid v) && negb (present (suggestion v))
       && str_eqb repaired sqlQuery
    then
      status (fst r) = 400 /\ success (fst r) = false
      /\ r_error (fst r)
         = Some (lit "SQL validation failed: " ++ reason_text (reason v)
                   ++ lit ". Unable to auto-correct.")
      /\ r_data (fst r) = None
      /\ same_store w (snd r)
    else
      exists w1,
        same_store w w1
        /\ validatedSQL (r_queries (fst r)) = Some executed
        /\ match executeSQLQuery executed w1 with
           | (Ok result, w2) =>
               status (fst r) = 200 /\ success (fst r) = true
               /\ r_sql (fst r) = Some executed
               /\ r_data (fst r) = Some result
               /\ same_store w2 (snd r)
           | (Thrown errorMessage, w2) =>
               status (fst r) = 500 /\ success (fst r) = false
               /\ r_error (fst r) = Some errorMessage
               /\ same_store w2 (snd r)
           end.
Proof.
  intros JSON_parse e w query content H sqlQuery v repaired executed r.
  destruct (POST_concludes JSON_parse w H) as (w0 & S & R).
  fold sqlQuery in R. fold v in R.
  assert (Hr : r = conclude query (preprocessQuery query)
                     (classifyIntent (preprocessQuery query)) sqlQuery v w0)
    by exact R.
  clearbody r. subst executed repaired. clearbody v. clearbody sqlQuery.
  pose proof (conclude_cases query (preprocessQuery query)
                (classifyIntent (preprocessQuery query)) sqlQuery v w0) as C.
  cbv zeta in C. rewrite <- Hr in C.
  destruct S as (S1 & S2 & S3 & S4 & S5). unfold same_store in *.
  rewrite S1, S2, S3, S4, S5 in C. exact C.
Qed.

Lemma POST_after_validation_witness :
  validatedSQL (r_queries (fst (POST (fun _ => None) sample_env sample_world)))
  = Some (lit "SELECT * FROM todos").
Proof.
  assert (H : reaches_validation sample_env (lit "show all tasks")
                (Some (lit "SELECT * FROM todos;"))).
  { repeat split; reflexivity. }
  pose proof (POST_after_validation (fun _ => None) sample_world H) as P.
  cbv zeta in P.
  match type of P with
  | (if ?c then _ else _) =>
      replace c with false in P by (vm_compute; reflexivity)
  end.
  destruct P as (w1 & _ & Hq & _).
  exact Hq.
Defined.

(** ** Escaped quotes and the INSERT handler *)

Lemma matches_seqs_app icase l1 l2 :
  forall s s',
    matches icase (seqs (l1 ++ l2)) s s' ->
    exists s1, matches icase (seqs l1) s s1 /\ matches icase (seqs l2) s1 s'.
Proof.
  induction l1 as [|a [|b t] IH]; intros s s' H.
  - exists s; split; [constructor | exact H].
  - destruct l2 as [|c l2].
    + exists s'; split; [exact H | constructor].
    + apply matches_seq_inv in H as (s1 & H1 & H2). eauto.
  - change (seqs ((a :: b :: t) ++ l2))
      with (Seq a (seqs ((b :: t) ++ l2))) in H.
    apply matches_seq_inv in H as (s1 & H1 & H2).
    apply IH in H2 as (s2 & H2 & H3).
    exists s2; split; [|exact H3].
    change (seqs (a :: b :: t)) with (Seq a (seqs (b :: t))).
    econstructor; eauto.
Qed.

Lemma lower_upper_is_upper c : is_lower c = true -> is_upper (upper c) = true.
Proof.
  destruct c as [[] [] [] [] [] [] [] []]; vm_compute; intros H;
    try reflexivity; discriminate.
Qed.

(** Under [i], a literal that is not a letter matches only itself. *)
Lemma char_eq_plain icase a c :
  is_upper a = false -> is_lower a = false ->
  char_eq icase a c = true -> c = a.
Proof.
  unfold char_eq, canon. intros Ha Hl H. apply Ascii.eqb_eq in H.
  destruct icase; [|auto].
  unfold upper in H. rewrite Hl in H.
  destruct (is_lower c) eqn:Hc; [|auto].
  pose proof (lower_upper_is_upper c Hc) as U. unfold upper in U.
  rewrite Hc, <- H, Ha in U. discriminate.
Qed.

Lemma not_quote_ok icase c :
  cls_ok icase true [IChar sq] c = true -> c <> sq.
Proof.
  unfold cls_ok. simpl. rewrite orb_false_r. intros H E. subst c.
  unfold char_eq in H. rewrite Ascii.eqb_refl in H. discriminate.
Qed.

Lemma space_not_quote c : is_space c = true -> c <> sq.
Proof. intros H E; subst c; discriminate. Qed.

Lemma scan_seen s : scan_all s Seen = Seen.
Proof.
  induction s as [|c t IH]; [reflexivity|].
  unfold scan_all in *. simpl. unfold scan_step at 2.
  destruct (Ascii.eqb c sq); exact IH.
Qed.

Lemma scan_step_plain st c :
  c <> sq -> scan_step st c = match st with
                              | Fresh | Plain => Plain
                              | Opened | Inside => Inside
                              | Closed | Seen => Seen
                              end.
Proof.
  intros H. unfold scan_step.
  destruct (Ascii.eqb c sq) eqn:E; [|reflexivity].
  apply Ascii.eqb_eq in E. contradiction.
Qed.

Lemma scan_all_app a b st : scan_all (a ++ b) st = scan_all b (scan_all a st).
Proof. apply fold_left_app. Qed.

Lemma scan_inside x st :
  no_quote x -> st = Inside \/ st = Seen ->
  scan_all x st = Inside /\ st = Inside \/ scan_all x st = Seen.
Proof.
  intros H. revert st. induction H as [|c t Hc _ IH]; intros st Hs.
  - destruct Hs; subst; auto.
  - unfold scan_all in *. simpl. rewrite (scan_step_plain _ Hc).
    destruct Hs; subst.
    + destruct (IH Inside) as [[? _]|?]; auto.
    + destruct (IH Seen) as [[_ ?]|?]; auto; discriminate.
Qed.

(** The shape, once present, is seen by the scanner. *)
Lemma scan_finds_shape u c x0 x d t :
  c <> sq -> no_quote (x0 :: x) -> d <> sq ->
  scan_all (u ++ c :: sq :: (x0 :: x) ++ sq :: d :: t) Fresh = Seen.
Proof.
  intros Hc Hx Hd.
  rewrite scan_all_app. generalize (scan_all u Fresh). intros st.
  change (c :: sq :: (x0 :: x) ++ sq :: d :: t)
    with ([c; sq; x0] ++ x ++ [sq; d] ++ t).
  rewrite !scan_all_app.
  inversion Hx as [|? ? Hx0 Hx']; subst.
  assert (H1 : scan_all [c; sq; x0] st = Inside
               \/ scan_all [c; sq; x0] st = Seen).
  { unfold scan_all. simpl. rewrite (scan_step_plain st Hc).
    rewrite (scan_step_plain _ Hx0).
    destruct st; simpl; auto. }
  destruct (scan_inside Hx' H1) as [[H2 _]|H2]; rewrite H2.
  - unfold scan_all at 2. simpl. rewrite (scan_step_plain _ Hd). simpl.
    apply scan_seen.
  - unfold scan_all at 2. simpl. rewrite (scan_step_plain _ Hd). simpl.
    apply scan_seen.
Qed.

(** A statement the INSERT pattern matches has the shape the scanner looks
    for. *)
Lemma insert_match_shape sql m :
  exec insertPattern sql = Some m -> scan_all sql Fresh = Seen.
Proof.
  intros E. apply exec_sound in E as (pre & Es & _ & M0).
  change (pat insertPattern)
    with (seqs ([w "INSERT INTO todos"; star ws; w "(";
                 plus (none_of [IChar ")"]); w ")"; star ws; w "VALUES";
                 star ws]
                ++ [Lit "("; Star true (Cls false [ISpace]); Lit sq;
                    Group 1 (Plus true (Cls true [IChar sq])); Lit sq;
                    Star true (Cls false [ISpace]); Lit ","]
                ++ [star ws; Group 2 (alts [w "true"; w "false"]); star ws;
                    w ")"])) in M0.
  change (ignoreCase insertPattern) with true in M0.
  apply matches_seqs_app in M0 as (s1 & M1 & M0).
  apply matches_seqs_app in M0 as (s2 & M2 & M3).
  apply matches_consumes in M1 as (u & Eu & _). simpl in Eu.
  apply matches_consumes in M3 as (v & Ev & _).
  cbn [seqs] in M2.
  apply matches_seq_inv in M2 as (a1 & A1 & M2).
  apply matches_seq_inv in M2 as (a2 & A2 & M2).
  apply matches_seq_inv in M2 as (a3 & A3 & M2).
  apply matches_seq_inv in M2 as (a4 & A4 & M2).
  apply matches_seq_inv in M2 as (a5 & A5 & M2).
  apply matches_seq_inv in M2 as (a6 & A6 & A7).
  apply matches_lit_inv in A1 as (c1 & E1 & C1 & _).
  apply matches_star_cls_inv in A2 as (y & E2 & F2 & _).
  apply matches_lit_inv in A3 as (c3 & E3 & C3 & _).
  apply matches_group_inv in A4 as (a4' & A4 & Ea4).
  apply matches_plus_cls_inv in A4 as (x0 & x & E4 & F4 & _).
  apply matches_lit_inv in A5 as (c5 & E5 & C5 & _).
  apply matches_star_cls_inv in A6 as (z & E6 & F6 & _).
  apply matches_lit_inv in A7 as (c7 & E7 & C7 & _).
  apply char_eq_plain in C1; [|reflexivity|reflexivity].
  apply char_eq_plain in C3; [|reflexivity|reflexivity].
  apply char_eq_plain in C5; [|reflexivity|reflexivity].
  apply char_eq_plain in C7; [|reflexivity|reflexivity].
  subst c1 c3 c5 c7. subst a4. simpl in E5.
  assert (Hx : no_quote (x0 :: x)).
  { eapply Forall_impl; [|exact F4]. intros c. apply not_quote_ok. }
  assert (Hy : Forall (fun c => c <> sq) y).
  { eapply Forall_impl; [|exact F2]. intros c Hc.
    apply space_not_quote. exact (ws_ok true c Hc). }
  assert (Hz : Forall (fun c => c <> sq) z).
  { eapply Forall_impl; [|exact F6]. intros c Hc.
    apply space_not_quote. exact (ws_ok true c Hc). }
  (* the character before the opening quote *)
  destruct (@exists_last _ ("("%char :: y)) as (y' & c & Ey); [discriminate|].
  assert (Hc : c <> sq).
  { assert (F : Forall (fun c => c <> sq) ("("%char :: y)).
    { constructor; [discriminate | exact Hy]. }
    rewrite Ey in F. apply Forall_app in F as [_ F]. inversion F; auto. }
  (* the character after the closing quote *)
  assert (Hd : exists d t, z ++ ","%char :: m_rest s2 = d :: t /\ d <> sq).
  { destruct z as [|d z'].
    - exists ","%char, (m_rest s2). split; [reflexivity | discriminate].
    - exists d, (z' ++ ","%char :: m_rest s2). split; [reflexivity|].
      inversion Hz; auto. }
  destruct Hd as (d & t & Ed & Hd).
  assert (Esql : sql = (pre ++ u ++ y') ++ c :: sq :: (x0 :: x) ++ sq :: d :: t).
  { rewrite Es, Eu, E1, E2, E3, E4, E5, E6, E7, <- Ed.
    change ("("%char :: y ++ ?r) with (("("%char :: y) ++ r).
    rewrite Ey. rewrite <- !app_assoc. reflexivity. }
  rewrite Esql. apply scan_finds_shape; auto.
Qed.

Lemma escape_loop d :
  forall done pos,
    replace_loop re_quote [sq; sq] done pos 0 d = flat_map escape_char d.
Proof.
  induction d as [|c t IH]; intros done pos; [reflexivity|].
  cbn [replace_loop flat_map].
  unfold match_at. cbn [re_quote re pat ignoreCase seqs ch rmatch].
  unfold step. cbn [m_rest].
  unfold char_eq, canon, escape_char. rewrite Ascii.eqb_sym.
  destruct (Ascii.eqb c sq) eqn:E.
  - cbn [advance m_pos]. replace (S pos - pos) with 1 by lia.
    rewrite IH. reflexivity.
  - rewrite IH. reflexivity.
Qed.

Lemma escapeQuotes_flat_map d : escapeQuotes d = flat_map escape_char d.
Proof. apply escape_loop. Qed.

Lemma scan_escaped_settled d :
  forall st, settled st = true ->
             settled (scan_all (flat_map escape_char d) st) = true.
Proof.
  induction d as [|c t IH]; intros st H; [exact H|].
  cbn [flat_map]. rewrite scan_all_app. apply IH.
  unfold escape_char. destruct (Ascii.eqb c sq) eqn:E.
  - destruct st; try discriminate; reflexivity.
  - unfold scan_all. simpl. rewrite scan_step_plain.
    + destruct st; try discriminate; reflexivity.
    + intro; subst c. rewrite Ascii.eqb_refl in E. discriminate.
Qed.

Lemma scan_escaped_quote d :
  In sq d ->
  forall st, unseen st = true ->
             settled (scan_all (flat_map escape_char d) st) = true.
Proof.
  induction d as [|c t IH]; intros Hin st H; [contradiction|].
  cbn [flat_map]. rewrite scan_all_app.
  unfold escape_char. destruct (Ascii.eqb c sq) eqn:E.
  - apply scan_escaped_settled.
    destruct st; try discriminate; reflexivity.
  - destruct Hin as [Hin | Hin].
    + subst c. rewrite Ascii.eqb_refl in E. discriminate.
    + apply IH; [exact Hin|].
      unfold scan_all. simpl. rewrite scan_step_plain.
      * destruct st; try discriminate; reflexivity.
      * intro; subst c. rewrite Ascii.eqb_refl in E. discriminate.
Qed.

Lemma scan_plain_unseen t :
  no_quote t -> forall st, unseen st = true -> unseen (scan_all t st) = true.
Proof.
  induction 1 as [|c t Hc _ IH]; intros st H; [exact H|].
  unfold scan_all in *. simpl. apply IH. rewrite (scan_step_plain _ Hc).
  destruct st; try discriminate; reflexivity.
Qed.

Lemma scan_plain_settled t :
  no_quote t -> forall st, settled st = true -> settled (scan_all t st) = true.
Proof.
  induction 1 as [|c t Hc _ IH]; intros st H; [exact H|].
  unfold scan_all in *. simpl. apply IH. rewrite (scan_step_plain _ Hc).
  destruct st; try discriminate; reflexivity.
Qed.

Lemma scan_quote_unseen st :
  settled st = true -> unseen (scan_all [sq] st) = true.
Proof. destruct st; try discriminate; reflexivity. Qed.

(** A statement whose only quotes are the two around an escaped title with an
    apostrophe in it does not have the shape. *)
Lemma scan_escaped_title prefix d tail :
  no_quote prefix -> In sq d -> no_quote tail ->
  scan_all (prefix ++ sq :: flat_map escape_char d ++ sq :: tail) Fresh
  <> Seen.
Proof.
  intros Hp Hd Ht.
  change (sq :: flat_map escape_char d ++ sq :: tail)
    with ([sq] ++ flat_map escape_char d ++ [sq] ++ tail).
  rewrite !scan_all_app.
  pose proof (scan_plain_settled Hp Fresh eq_refl) as H1.
  pose proof (scan_quote_unseen _ H1) as H2.
  pose proof (scan_escaped_quote d Hd _ H2) as H3.
  pose proof (scan_quote_unseen _ H3) as H4.
  pose proof (scan_plain_unseen Ht _ H4) as H5.
  intros E. rewrite E in H5. discriminate.
Qed.

Lemma includes_char a s :
  includes [a] s = true <-> In a s.
Proof.
  unfold includes. induction s as [|c t IH]; cbn [indexOf startsWith In].
  - intuition discriminate.
  - destruct t as [|c' t']; cbn [startsWith]; rewrite andb_true_r;
      destruct (Ascii.eqb a c) eqn:E.
    + apply Ascii.eqb_eq in E. intuition.
    + apply Ascii.eqb_neq in E. cbn [indexOf startsWith option_map In].
      intuition (try discriminate; try congruence).
    + apply Ascii.eqb_eq in E. intuition.
    + apply Ascii.eqb_neq in E.
      destruct (indexOf [a] (c' :: t')) eqn:Ei; cbn [option_map].
      * split; [intros _; right; apply IH; reflexivity | reflexivity].
      * split; [discriminate|]. intros [H | H]; [congruence|].
        apply IH in H. discriminate.
Qed.

Lemma includes_quote_In s : includes [sq] s = true -> In sq s.
Proof. apply includes_char. Qed.

Lemma excludes_quote_no_quote s : includes [sq] s = false -> no_quote s.
Proof.
  intros H. apply Forall_forall. intros c Hc E. subst c.
  apply includes_char in Hc. congruence.
Qed.

(** C10. Whatever the task description [d], once it holds an apostrophe the
    statement built around its escaped form, with no other quote before or
    after the literal, is rejected by [handleInsertQuery] with the parse
    error and nothing reaches the store.  The repairer builds exactly such a
    statement for "add a task to don't forget milk". *)
Theorem escaped_title_rejected_by_insert :
  (forall prefix d tail w,
      includes (lit "'") prefix = false ->
      includes (lit "'") d = true ->
      includes (lit "'") tail = false ->
      handleInsertQuery
        (prefix ++ lit "'" ++ escapeQuotes d ++ lit "'" ++ tail) w
      = (Thrown (lit "Could not parse INSERT statement"), w))
  /\ fixSQLSyntax
       (lit "INSERT INTO todos (title, completed) VALUES (don't forget milk, false)")
       (lit "add a task to don't forget milk")
     = lit "INSERT INTO todos (title, completed) VALUES ('Don''t forget milk', false)"
  /\ (forall w,
         handleInsertQuery
           (lit "INSERT INTO todos (title, completed) VALUES ('Don''t forget milk', false)")
           w
         = (Thrown (lit "Could not parse INSERT statement"), w)).
Proof.
  split; [|split].
  - intros prefix d tail w Hp Hd Ht.
    unfold handleInsertQuery.
    destruct (exec insertPattern _) as [m|] eqn:E; [|reflexivity].
    exfalso. apply insert_match_shape in E.
    rewrite escapeQuotes_flat_map in E.
    revert E. apply scan_escaped_title.
    + apply excludes_quote_no_quote; exact Hp.
    + apply includes_quote_In; exact Hd.
    + apply excludes_quote_no_quote; exact Ht.
  - vm_compute. reflexivity.
  - intros w. unfold handleInsertQuery.
    replace (exec insertPattern _) with (@None found)
      by (vm_compute; reflexivity).
    reflexivity.
Qed.

Lemma escaped_title_rejected_by_insert_witness :
  handleInsertQuery
    (lit "INSERT INTO todos (title, completed) VALUES ("
       ++ lit "'" ++ escapeQuotes (lit "Don't forget milk") ++ lit "'"
       ++ lit ", false)")
    sample_world
  = (Thrown (lit "Could not parse INSERT statement"), sample_world).
Proof.
  apply (proj1 escaped_title_rejected_by_insert); vm_compute; reflexivity.
Defined.

(** ** SELECT handler *)

Lemma insert_by_perm asc r l : Permutation (Store.insert_by asc r l) (r :: l).
Proof.
  induction l as [|x t IH]; simpl; [apply Permutation_refl|].
  destruct (if asc then _ else _); [apply Permutation_refl|].
  eapply Permutation_trans; [apply perm_skip, IH | apply perm_swap].
Qed.

Lemma order_perm asc l : Permutation (Store.order asc l) l.
Proof.
  induction l as [|x t IH]; simpl; [constructor|].
  eapply Permutation_trans; [apply insert_by_perm | apply perm_skip, IH].
Qed.

Lemma insert_by_newest_first r l :
  newest_first l -> newest_first (Store.insert_by false r l).
Proof.
  unfold newest_first. induction 1 as [|x t Hs IH Hx]; simpl.
  - constructor; constructor.
  - destruct (created_at x <=? created_at r) eqn:E.
    + apply Nat.leb_le in E. constructor.
      * constructor; assumption.
      * constructor; [exact E|].
        eapply Forall_impl; [|exact Hx]. simpl. intros; lia.
    + apply Nat.leb_gt in E. constructor; [exact IH|].
      eapply Permutation_Forall;
        [apply Permutation_sym, insert_by_perm|].
      constructor; [lia | exact Hx].
Qed.

Lemma order_newest_first l : newest_first (Store.order false l).
Proof.
  induction l as [|x t IH]; simpl; [constructor|].
  apply insert_by_newest_first, IH.
Qed.

Lemma filter_all {A} (l : list A) : List.filter (fun _ => true) l = l.
Proof. induction l; simpl; congruence. Qed.











(** ** SQL extractor *)

Lemma common_extension a :
  forall b r1 r2, a ++ r1 = b ++ r2 -> compat a b = true.
Proof.
  unfold compat. induction a as [|x a IH]; intros b r1 r2 H; [reflexivity|].
  destruct b as [|y b]; [apply orb_true_r|].
  simpl in H. injection H as -> H. apply IH in H.
  cbn [startsWith]. rewrite Ascii.eqb_refl. exact H.
Qed.

Lemma clash_after X k P R1 R2 :
  X ++ R1 = P ++ k ++ R2 -> length P < length X -> clashes X k = true.
Proof.
  intros H L. unfold clashes. apply orb_true_iff. left.
  apply existsb_exists. exists (length P). split; [apply in_seq; lia|].
  apply (f_equal (skipn (length P))) in H.
  rewrite (skipn_app (length P) P), (skipn_all P), Nat.sub_diag in H.
  rewrite (skipn_app (length P) X) in H.
  replace (length P - length X) with 0 in H by lia.
  simpl in H. eapply common_extension; eauto.
Qed.

Lemma clash_inside X k j R1 R2 :
  j < length k -> X ++ R1 = skipn j k ++ R2 -> clashes X k = true.
Proof.
  intros L H. unfold clashes. apply orb_true_iff. right.
  apply existsb_exists. exists j. split; [apply in_seq; lia|].
  eapply common_extension; eauto.
Qed.

Lemma toUpperCase_app a b : toUpperCase (a ++ b) = toUpperCase a ++ toUpperCase b.
Proof. apply map_app. Qed.

Lemma toUpperCase_length a : length (toUpperCase a) = length a.
Proof. apply length_map. Qed.

Section KeepKeyword.

(** A global replacement by the empty string whose matches, upper-cased, are
    among the texts [Xs], none of which can share a character with the
    keyword [k]. *)
Variable re0 : Re.t.
Variable k : str.
Variable Xs : list str.

Hypothesis match_text :
  forall pos rest e,
    match_at (ignoreCase re0) (pat re0) pos rest = Some e ->
    exists x, rest = x ++ m_rest e /\ m_pos e = pos + length x
              /\ x <> [] /\ In (toUpperCase x) Xs.

Hypothesis apart : forallb (fun X => negb (clashes X k)) Xs = true.

Lemma no_clash X : In X Xs -> clashes X k = false.
Proof.
  intros H. rewrite forallb_forall in apart. apply apart in H.
  destruct (clashes X k); [discriminate | reflexivity].
Qed.

Lemma loop_copies_keyword :
  forall mid2 mid1 post done pos,
    toUpperCase (mid1 ++ mid2) = k ->
    exists done' pos',
      replace_loop re0 [] done pos 0 (mid2 ++ post)
      = mid2 ++ replace_loop re0 [] done' pos' 0 post.
Proof.
  induction mid2 as [|c t IH]; intros mid1 post done pos Hk.
  - exists done, pos. reflexivity.
  - cbn [app replace_loop].
    destruct (match_at (ignoreCase re0) (pat re0) pos (c :: t ++ post))
      as [e|] eqn:E.
    + exfalso. apply match_text in E as (x & Ex & _ & _ & Hx).
      apply no_clash in Hx.
      assert (C : clashes (toUpperCase x) k = true).
      { apply (@clash_inside _ _ (length mid1) (toUpperCase (m_rest e))
                 (toUpperCase post)).
        - rewrite <- Hk, toUpperCase_length, length_app. simpl. lia.
        - rewrite <- Hk, toUpperCase_app.
          rewrite <- (toUpperCase_length mid1).
          rewrite skipn_app, (skipn_all (toUpperCase mid1)), Nat.sub_diag.
          cbn [skipn app].
          rewrite <- !toUpperCase_app. f_equal.
          change (c :: t ++ post) with ((c :: t) ++ post) in Ex.
          symmetry. exact Ex. }
      congruence.
    + destruct (IH (mid1 ++ [c]) post (c :: done) (S pos)) as (d' & p' & H).
      { rewrite <- app_assoc. exact Hk. }
      exists d', p'. rewrite H. reflexivity.
Qed.

Lemma loop_keeps_keyword :
  forall pre done pos skip mid post,
    toUpperCase mid = k -> skip <= length pre ->
    exists a b,
      replace_loop re0 [] done pos skip (pre ++ mid ++ post) = a ++ mid ++ b.
Proof.
  induction pre as [|c pre IH]; intros done pos skip mid post Hk Hs.
  - assert (skip = 0) by (simpl in Hs; lia). subst skip. cbn [app].
    destruct (@loop_copies_keyword mid [] post done pos Hk) as (d' & p' & H).
    exists [], (replace_loop re0 [] d' p' 0 post). rewrite H. reflexivity.
  - destruct skip as [|n].
    + cbn [app replace_loop].
      destruct (match_at (ignoreCase re0) (pat re0) pos
                  (c :: pre ++ mid ++ post)) as [e|] eqn:E.
      * apply match_text in E as (x & Ex & Ep & Hn & Hx).
        apply no_clash in Hx.
        assert (L : length x <= length (c :: pre)).
        { destruct (le_lt_dec (length x) (length (c :: pre))) as [|Lt];
            [assumption|].
          exfalso.
          assert (C : clashes (toUpperCase x) k = true).
          { apply (@clash_after _ _ (toUpperCase (c :: pre))
                     (toUpperCase (m_rest e)) (toUpperCase post)).
            - rewrite <- Hk, <- !toUpperCase_app. f_equal.
              rewrite <- Ex. reflexivity.
            - rewrite !toUpperCase_length. exact Lt. }
          congruence. }
        rewrite Ep. replace (pos + length x - pos) with (length x) by lia.
        destruct x as [|x0 x']; [contradiction|].
        cbn [length expand app].
        destruct (IH (c :: done) (S pos) (length x') mid post Hk) as (a & b & H).
        { simpl in L. lia. }
        exists a, b. exact H.
      * destruct (IH (c :: done) (S pos) 0 mid post Hk) as (a & b & H);
          [lia|].
        exists (c :: a), b. rewrite H. reflexivity.
    + cbn [app replace_loop].
      destruct (IH (c :: done) (S pos) n mid post Hk) as (a & b & H).
      { simpl in Hs. lia. }
      exists a, b. exact H.
Qed.

Lemma replaceAll_keeps_keyword s :
  holds_ci k s -> holds_ci k (replaceAll re0 [] s).
Proof.
  intros (pre & mid & post & -> & Hk). unfold replaceAll.
  destruct (@loop_keeps_keyword pre [] 0 0 mid post Hk) as (a & b & H); [lia|].
  exists a, mid, b. split; assumption.
Qed.

End KeepKeyword.

Lemma same_ci_exact u x : same_ci false u x -> x = u.
Proof.
  induction 1 as [|a c u x H _ IH]; [reflexivity|].
  unfold char_eq, canon in H. apply Ascii.eqb_eq in H. congruence.
Qed.

(** The text a fence pattern matches: the fence, then an optional newline. *)
Lemma fence_match_text icase fence pos rest e :
  match_at icase (Seq (word fence) (Opt true (Lit nl))) pos rest = Some e ->
  exists y, same_ci icase fence y
            /\ (rest = y ++ m_rest e \/ rest = (y ++ [nl]) ++ m_rest e)
            /\ exists x, rest = x ++ m_rest e /\ m_pos e = pos + length x.
Proof.
  unfold match_at. intros H. apply rmatch_sound in H as (s' & M & E).
  inversion E; subst s'. clear E.
  pose proof (matches_consumes M) as C. simpl in C.
  apply matches_seq_inv in M as (s1 & M1 & M2).
  apply matches_word_inv in M1 as (y & Ey & F & _). simpl in Ey.
  exists y. split; [exact F|]. split; [|exact C].
  apply matches_opt_inv in M2 as [-> | M2]; [left; exact Ey|].
  apply matches_lit_inv in M2 as (c & Ec & Hc & _).
  rewrite reset_caps_rest in Ec.
  apply char_eq_plain in Hc; [|reflexivity|reflexivity]. subst c.
  right. rewrite Ey, Ec, <- app_assoc. reflexivity.
Qed.

Lemma fence_sql_text pos rest e :
  match_at (ignoreCase re_fence_sql) (pat re_fence_sql) pos rest = Some e ->
  exists x, rest = x ++ m_rest e /\ m_pos e = pos + length x
            /\ x <> [] /\ In (toUpperCase x) [lit "```SQL"; lit "```SQL" ++ [nl]].
Proof.
  intros H.
  apply (@fence_match_text true (lit "```sql")) in H
    as (y & F & Hy & x & Ex & Ep).
  exists x. split; [exact Ex|]. split; [exact Ep|].
  pose proof (same_ci_upper F) as U.
  change (toUpperCase (lit "```sql")) with (lit "```SQL") in U.
  destruct Hy as [Hy | Hy]; rewrite Hy in Ex; apply app_inv_tail in Ex;
    subst x.
  - split; [|left; auto]. intro; subst y; discriminate.
  - split; [destruct y; discriminate|]. right; left.
    rewrite toUpperCase_app, U. reflexivity.
Qed.

Lemma fence_text pos rest e :
  match_at (ignoreCase re_fence) (pat re_fence) pos rest = Some e ->
  exists x, rest = x ++ m_rest e /\ m_pos e = pos + length x
            /\ x <> [] /\ In (toUpperCase x) [lit "```"; lit "```" ++ [nl]].
Proof.
  intros H.
  apply (@fence_match_text false (lit "```")) in H
    as (y & F & Hy & x & Ex & Ep).
  exists x. split; [exact Ex|]. split; [exact Ep|].
  apply same_ci_exact in F. subst y.
  destruct Hy as [Hy | Hy]; rewrite Hy in Ex; apply app_inv_tail in Ex;
    subst x.
  - split; [discriminate | left; reflexivity].
  - split; [discriminate | right; left; reflexivity].
Qed.

(** Removing the markdown fences leaves a keyword in place. *)
Lemma fences_keep_keyword k raw :
  In k sqlKeywords -> holds_ci k raw ->
  holds_ci k (replaceAll re_fence [] (replaceAll re_fence_sql [] raw)).
Proof.
  intros Hk H.
  apply (@replaceAll_keeps_keyword re_fence k _ fence_text).
  - simpl in Hk.
    destruct Hk as [<- | [<- | [<- | [<- | []]]]]; vm_compute; reflexivity.
  - apply (@replaceAll_keeps_keyword re_fence_sql k _ fence_sql_text).
    + simpl in Hk.
      destruct Hk as [<- | [<- | [<- | [<- | []]]]]; vm_compute; reflexivity.
    + exact H.
Qed.

Lemma is_space_upper c : is_space (upper c) = is_space c.
Proof. destruct c as [[] [] [] [] [] [] [] []]; reflexivity. Qed.

Lemma trimStart_keeps pre mid post :
  (exists c t, mid = c :: t /\ is_space c = false) ->
  exists pre', trimStart (pre ++ mid ++ post) = pre' ++ mid ++ post.
Proof.
  intros (c & t & -> & Hc). induction pre as [|a pre IH].
  - exists []. simpl. rewrite Hc. reflexivity.
  - simpl. destruct (is_space a).
    + exact IH.
    + exists (a :: pre). reflexivity.
Qed.

Lemma trim_keeps_keyword k s :
  forallb (fun c => negb (is_space c)) k = true -> k <> [] ->
  holds_ci k s -> holds_ci k (trim s).
Proof.
  intros Hk Hne (pre & mid & post & -> & Hm).
  assert (Hs : Forall (fun c => is_space c = false) mid).
  { rewrite forallb_forall in Hk. apply Forall_forall. intros c Hc.
    assert (Hu : In (upper c) k).
    { rewrite <- Hm. apply in_map. exact Hc. }
    apply Hk in Hu. rewrite is_space_upper in Hu.
    destruct (is_space c); [discriminate | reflexivity]. }
  assert (Hmid : mid <> []).
  { intro; subst mid. apply Hne. rewrite <- Hm. reflexivity. }
  unfold trim, trimEnd.
  destruct (@trimStart_keeps pre mid post) as (pre' & E).
  { destruct mid as [|c t]; [contradiction|].
    exists c, t. split; [reflexivity|]. inversion Hs; auto. }
  rewrite E. rewrite !rev_app_distr, <- app_assoc.
  destruct (@trimStart_keeps (rev post) (rev mid) (rev pre')) as (post' & E').
  { destruct (rev mid) as [|c t] eqn:Er.
    - exfalso. apply Hmid. rewrite <- (rev_involutive mid), Er. reflexivity.
    - exists c, t. split; [reflexivity|].
      rewrite Forall_forall in Hs. apply Hs. apply in_rev. rewrite Er.
      left; reflexivity. }
  rewrite E'. rewrite !rev_app_distr, !rev_involutive, <- app_assoc.
  exists pre', mid, (rev post'). split; [reflexivity | exact Hm].
Qed.

Lemma startsWith_split p :
  forall s, startsWith p s = true -> exists b, s = p ++ b.
Proof.
  induction p as [|a p IH]; intros s H; [exists s; reflexivity|].
  destruct s as [|c s]; [discriminate|]. cbn [startsWith] in H.
  apply andb_true_iff in H as [E H]. apply Ascii.eqb_eq in E. subst c.
  apply IH in H as (b & ->). exists b. reflexivity.
Qed.

Lemma indexOf_skipn p :
  forall s i, indexOf p s = Some i -> startsWith p (skipn i s) = true.
Proof.
  induction s as [|c s IH]; intros i H.
  - cbn [indexOf] in H. destruct (startsWith p []) eqn:E; [|discriminate].
    inversion H; subst. exact E.
  - cbn [indexOf] in H. destruct (startsWith p (c :: s)) eqn:E.
    + inversion H; subst. exact E.
    + destruct (indexOf p s) as [j|]; [|discriminate].
      inversion H; subst. simpl. apply IH. reflexivity.
Qed.

Lemma includes_app p a b : includes p (a ++ p ++ b) = true.
Proof.
  unfold includes. induction a as [|c a IH].
  - simpl. destruct (p ++ b) eqn:E; cbn [indexOf]; rewrite <- E;
      rewrite startsWith_app; reflexivity.
  - cbn [app indexOf].
    destruct (startsWith p (c :: a ++ p ++ b)); [reflexivity|].
    destruct (indexOf p (a ++ p ++ b)); [reflexivity | discriminate].
Qed.

Lemma includes_split p s :
  includes p s = true -> exists a b, s = a ++ p ++ b.
Proof.
  unfold includes. destruct (indexOf p s) as [i|] eqn:E; [|discriminate].
  intros _. apply indexOf_skipn in E. apply startsWith_split in E as (b & E).
  exists (firstn i s), b. rewrite <- E. symmetry. apply firstn_skipn.
Qed.

Lemma holds_ci_includes k s :
  holds_ci k s <-> includes k (toUpperCase s) = true.
Proof.
  split.
  - intros (pre & mid & post & -> & <-).
    rewrite !toUpperCase_app. apply includes_app.
  - intros H. apply includes_split in H as (a & b & H).
    unfold toUpperCase in H.
    apply map_eq_app in H as (pre & rest & -> & Ha & H).
    apply map_eq_app in H as (mid & post & -> & Hk & Hb).
    exists pre, mid, post. split; [reflexivity | exact Hk].
Qed.

Lemma truthy_trim a c b :
  is_space c = false -> truthy (trim (a ++ c :: b)) = true.
Proof.
  intros Hc. unfold trim, trimEnd.
  destruct (@trimStart_keeps a [c] b) as (a' & E); [eauto|].
  cbn [app] in E. rewrite E.
  rewrite rev_app_distr. cbn [rev]. rewrite <- app_assoc.
  destruct (@trimStart_keeps (rev b) [c] (rev a')) as (b' & E'); [eauto|].
  cbn [app] in E'. cbn [app]. rewrite E'.
  rewrite rev_app_distr. cbn [rev]. rewrite <- app_assoc.
  destruct (rev (rev a')); reflexivity.
Qed.

(** Stripping trailing semicolons and trimming keeps a first character that
    is neither a semicolon nor whitespace. *)
Lemma strip_keeps_head c y :
  c <> ";"%char -> is_space c = false ->
  truthy (trim (replace re_trailing_semis [] (c :: y))) = true.
Proof.
  intros Hc Hs. unfold replace.
  destruct (exec re_trailing_semis (c :: y)) as [f|] eqn:E.
  - apply exec_sound in E as (pre & Es & Ei & M).
    change (pat re_trailing_semis)
      with (Seq (Seq (Lit ";") (Star true (Lit ";"))) Eol) in M.
    apply matches_seq_inv in M as (s1 & M1 & _).
    apply matches_seq_inv in M1 as (s2 & M1 & _).
    apply matches_lit_inv in M1 as (c' & Ec & Hc' & _). simpl in Ec.
    apply char_eq_plain in Hc'; [|reflexivity|reflexivity]. subst c'.
    destruct pre as [|p pre].
    + exfalso. simpl in Es. rewrite Ec in Es. inversion Es. contradiction.
    + simpl in Es. inversion Es; subst p.
      rewrite Ei. cbn [length firstn expand app].
      apply (truthy_trim []). exact Hs.
  - apply (truthy_trim []). exact Hs.
Qed.

Lemma upper_letter c :
  is_upper (upper c) = true -> is_space c = false /\ c <> ";"%char.
Proof.
  destruct c as [[] [] [] [] [] [] [] []]; vm_compute; intros H;
    split; try reflexivity; try discriminate.
Qed.

Lemma by_pattern_truthy patterns cleaned sql :
  by_pattern patterns cleaned = Some sql -> truthy sql = true.
Proof.
  induction patterns as [|p more IH]; simpl; [discriminate|].
  destruct (exec p cleaned) as [m|]; [|exact IH].
  match goal with
  | |- (if truthy ?s && ?t then _ else _) = _ -> _ =>
      destruct (truthy s) eqn:T; destruct t; simpl; try exact IH
  end.
  intros H; inversion H; subst. exact T.
Qed.

Lemma by_keyword_found keywords cleaned :
  (forall k, In k keywords -> exists a t, k = a :: t /\ is_upper a = true) ->
  (exists k, In k keywords /\ includes k (toUpperCase cleaned) = true) ->
  exists extracted,
    by_keyword keywords cleaned = Some extracted /\ truthy extracted = true.
Proof.
  induction keywords as [|k more IH]; intros Hgood (k0 & Hin & Hk0).
  - contradiction.
  - cbn [by_keyword].
    destruct (indexOf k (toUpperCase cleaned)) as [i|] eqn:E.
    + destruct (Hgood k (or_introl eq_refl)) as (a & t & -> & Ha).
      apply indexOf_skipn in E. unfold toUpperCase in E.
      rewrite skipn_map in E. unfold substring.
      destruct (skipn i cleaned) as [|c y]; [discriminate|].
      cbn [map startsWith] in E. apply andb_true_iff in E as [E _].
      apply Ascii.eqb_eq in E. rewrite E in Ha.
      apply upper_letter in Ha as [Hs Hc].
      pose proof (strip_keeps_head y Hc Hs) as T. rewrite T.
      eexists. split; [reflexivity | exact T].
    + apply IH.
      * intros k' Hk'. apply Hgood. right. exact Hk'.
      * destruct Hin as [<- | Hin].
        -- unfold includes in Hk0. rewrite E in Hk0. discriminate.
        -- eauto.
Qed.

(** C8. [extractCleanSQL] is a total function, and on text that holds SELECT,
    INSERT, UPDATE or DELETE in any letter case its result is not empty. *)
Theorem extractCleanSQL_nonempty :
  forall rawText keyword,
    In keyword sqlKeywords ->
    includes keyword (toUpperCase rawText) = true ->
    extractCleanSQL rawText <> [].
Proof.
  intros rawText keyword Hk Hraw.
  assert (Hc : includes keyword
                 (toUpperCase
                    (trim (replaceAll re_fence []
                             (replaceAll re_fence_sql [] rawText)))) = true).
  { apply holds_ci_includes. apply trim_keeps_keyword.
    - simpl in Hk. destruct Hk as [<- | [<- | [<- | [<- | []]]]]; reflexivity.
    - simpl in Hk.
      destruct Hk as [<- | [<- | [<- | [<- | []]]]]; discriminate.
    - apply fences_keep_keyword; [exact Hk|].
      apply holds_ci_includes. exact Hraw. }
  unfold extractCleanSQL.
  set (cleaned := trim (replaceAll re_fence []
                          (replaceAll re_fence_sql [] rawText))) in *.
  destruct (by_pattern sqlPatterns cleaned) as [sql|] eqn:P.
  - apply by_pattern_truthy in P. intro; subst sql; discriminate.
  - destruct (@by_keyword_found sqlKeywords cleaned) as (x & -> & T).
    + intros k H. simpl in H.
      destruct H as [<- | [<- | [<- | [<- | []]]]]; eauto.
    + eauto.
    + intro; subst x; discriminate.
Qed.

Lemma extractCleanSQL_nonempty_witness :
  extractCleanSQL (lit "Sure, here you go: ```sql
delete from todos where id = 4;
```") <> [].
Proof.
  apply (@extractCleanSQL_nonempty _ (lit "DELETE")).
  - right; right; right; left; reflexivity.
  - vm_compute; reflexivity.
Defined.
(** ** Running the handlers *)

Ltac io_case :=
  match goal with
  | |- context [match ?x with _ => _ end] =>
      lazymatch x with
      | context [match _ with _ => _ end] => fail
      | _ => destruct x eqn:?
      end
  end.

Ltac io_simpl :=
  cbn [fst snd rows calls faults milestones next_id clock tl].

Ltac io_run :=
  unfold bind, push, ret, throw, ask, catch, Store.select, Store.delete,
    Store.update, Store.insert, Store.select_oldest, Store.fault, Store.log,
    Store.served, Store.with_rows;
  io_simpl.

(** The text of a milestone plays no part in what follows it. *)
Ltac forget_pushes :=
  repeat match goal with
         | |- context [push ?m] =>
             first [ is_var m; fail 1
                   | let x := fresh "msg" in generalize m; intro x ]
         end.

Ltac io_cases :=
  unfold footprint; io_run; repeat (io_case; io_simpl).

Ltac io_open :=
  let E := fresh "E" in
  intros E; apply pair_equal_spec in E as [<- <-]; io_simpl.

Ltac appended :=
  first [ rewrite <- ?app_assoc; reflexivity | symmetry; apply app_nil_r ].

Ltac footprint_ok :=
  split; [appended | split; [cbn [length skipn app]; reflexivity
                            | eexists; appended]].

Lemma filter_keeps_all (l : list todo) : List.filter (Store.keeps []) l = l.
Proof. induction l; simpl; congruence. Qed.

Lemma order_length asc (l : list todo) : length (Store.order asc l) = length l.
Proof. apply Permutation_length, order_perm. Qed.

Lemma In_order asc r l : In r (Store.order asc l) <-> In r l.
Proof.
  split; apply Permutation_in; [|apply Permutation_sym]; apply order_perm.
Qed.

Lemma getAllTodos_run w o w' :
  getAllTodos w = (o, w') ->
  rows w' = rows w /\ next_id w' = next_id w /\ clock w' = clock w
  /\ footprint w w' [CSelect [] false]
  /\ match Store.fault w with
     | Some e => o = Thrown (lit "Failed to fetch todos: " ++ e)
     | None =>
         o = Ok (Payload (Store.order false (rows w)) (length (rows w))
                         (lit "Operation completed successfully"))
     end.
Proof.
  unfold getAllTodos. io_cases.
  all: io_open.
  all: repeat (split; [reflexivity|]).
  all: split; [footprint_ok|].
  all: rewrite ?filter_keeps_all, ?order_length; try reflexivity.
  all: discriminate.
Qed.

Lemma handleSelectQuery_run sql w o w' :
  handleSelectQuery sql w = (o, w') ->
  rows w' = rows w /\ next_id w' = next_id w /\ clock w' = clock w
  /\ footprint w w' [CSelect (statement_filter sql) false]
  /\ (forall e, Store.fault w = Some e ->
        o = Thrown (match exec re_where sql with
                    | Some _ => lit "Select failed: "
                    | None => lit "Failed to fetch todos: "
                    end ++ e))
  /\ (forall p, o = Ok p ->
        todos p
        = Store.order false
            (List.filter (Store.keeps (statement_filter sql)) (rows w))
        /\ count p = length (todos p)).
Proof.
  unfold handleSelectQuery, getAllTodos, statement_filter, clause_filter.
  cbv zeta.
  destruct (exec re_where sql) as [m|];
    [destruct (exec re_title_like _);
     [|destruct (exec re_title_eq _); [|destruct (exec re_completed_eq _)]]|].
  all: forget_pushes; io_cases.
  all: io_open.
  all: repeat (split; [reflexivity|]).
  all: split; [footprint_ok|].
  all: split; [first [intros ? [= <-]; reflexivity | intros ? [=]]|].
  all: try (intros ? [=]; fail).
  all: intros ? [= <-]; split; reflexivity.
Qed.

Lemma handleDeleteQuery_run sql w o w' :
  handleDeleteQuery sql w = (o, w') ->
  (exists keep, rows w' = List.filter keep (rows w))
  /\ next_id w' = next_id w /\ clock w' = clock w
  /\ (exists cs,
         footprint w w' cs
         /\ (cs = []
             \/ exists fs,
                  length fs <= 1
                  /\ (cs = [CDelete fs] \/ cs = [CDelete fs; CSelect [] false])))
  /\ (forall p, o = Ok p ->
        todos p = Store.order false (rows w')
        /\ count p = length (rows w')
        /\ exists l, calls w' = l ++ [CSelect [] false]).
Proof.
  unfold handleDeleteQuery, getAllTodos. cbv zeta.
  forget_pushes. io_cases.
  all: io_open.
  all: split; [first [ exists (fun _ => true); symmetry; apply filter_all
                     | eexists; reflexivity ] |].
  all: repeat (split; [reflexivity|]).
  all: split; [eexists; split; [footprint_ok|] |].
  all: try (left; reflexivity).
  all: try (right; eexists; split;
            [|first [left; reflexivity | right; reflexivity]]; cbn; lia).
  all: try (intros ? [=]; fail).
  all: intros ? [= <-]; cbn [todos count].
  all: rewrite ?filter_keeps_all, ?order_length.
  all: split; [reflexivity | split; [reflexivity | eexists; reflexivity]].
Qed.

Lemma same_identity_refl l : Forall2 same_identity l l.
Proof. induction l; constructor; auto. repeat split; auto. Qed.

Lemma str_eqb_eq a b : str_eqb a b = true -> a = b.
Proof.
  unfold str_eqb. destruct (list_eq_dec ascii_dec a b); [auto | discriminate].
Qed.

(** Assigning [title] or [completed] keeps the id and the creation time. *)
Lemma assign_identity column v r r' :
  str_eqb column col_title || str_eqb column col_completed = true ->
  Store.assign column v r = Some r' -> same_identity r r'.
Proof.
  intros K. apply orb_true_iff in K as [K | K];
    apply str_eqb_eq in K; subst column;
    unfold Store.assign, same_identity.
  - change (str_eqb col_title (lit "title")) with true. cbv iota.
    destruct v; intros [=]; subst; cbn; auto.
  - change (str_eqb col_completed (lit "title")) with false.
    change (str_eqb col_completed (lit "completed")) with true. cbv iota.
    destruct v; try discriminate.
    + destruct (Store.parse_bool s); intros [=]; subst; cbn; auto.
    + intros [=]; subst; cbn; auto.
Qed.

Lemma change_identity column :
  str_eqb column col_title || str_eqb column col_completed = true ->
  forall fs v l,
  Forall2 same_identity l
    (map (fun r => if Store.keeps fs r
                   then match Store.assign column v r with
                        | Some r' => r'
                        | None => r
                        end
                   else r) l).
Proof.
  intros K fs v l. induction l as [|r l IH]; constructor; auto.
  destruct (Store.keeps fs r); [|repeat split; auto].
  destruct (Store.assign column v r) eqn:E; [|repeat split; auto].
  eapply assign_identity; eauto.
Qed.

Lemma handleUpdateQuery_run sql w o w' :
  handleUpdateQuery sql w = (o, w') ->
  (keeps_keys sql = true -> Forall2 same_identity (rows w) (rows w'))
  /\ length (rows w') = length (rows w)
  /\ next_id w' = next_id w /\ clock w' = clock w
  /\ (exists cs,
         footprint w w' cs
         /\ length (List.filter mutating cs) <= 1 /\ length cs <= 3)
  /\ (forall p, o = Ok p ->
        todos p = Store.order false (rows w')
        /\ count p = length (rows w')
        /\ exists l, calls w' = l ++ [CSelect [] false]).
Proof.
  unfold handleUpdateQuery, getAllTodos, keeps_keys, assigned_column.
  cbv zeta.
  destruct (match exec updatePattern sql with
            | Some m => Some m
            | None => exec updatePatternNoQuotes sql
            end) as [m|]; cbn [option_map].
  2:{ unfold footprint. io_open. split; [intros _; apply same_identity_refl|].
      repeat (split; [reflexivity|]).
      split; [exists []; split; [footprint_ok | cbn; lia] | discriminate]. }
  generalize (str_eqb (or_empty (group 1 m)) col_title
              || str_eqb (or_empty (group 1 m)) col_completed)
             (@change_identity (or_empty (group 1 m))).
  intros named K.
  match goal with
  | |- context [Store.update _ ?v _] => generalize v; intro value
  end.
  forget_pushes. io_cases.
  all: io_open.
  all: split;
    [intros N; first [apply same_identity_refl | apply K; exact N] |].
  all: split; [first [reflexivity | apply length_map] |].
  all: repeat (split; [reflexivity|]).
  all: split; [eexists; split; [footprint_ok | cbn; lia] |].
  all: try (intros ? [=]; fail).
  all: intros ? [= <-]; cbn [todos count].
  all: rewrite ?filter_keeps_all, ?order_length.
  all: split; [reflexivity | split; [reflexivity | eexists; reflexivity]].
Qed.

(** The capture of a group is the text the group has matched. *)
Lemma group_capture icase n a s s' :
  matches icase (Group n a) s s' ->
  exists x s1,
    m_rest s = x ++ m_rest s' /\ get_cap n (m_caps s') = Some x
    /\ matches icase a s s1 /\ m_rest s1 = m_rest s' /\ m_pos s1 = m_pos s'.
Proof.
  intros H. apply matches_group_inv in H as (s1 & M & ->).
  destruct (matches_consumes M) as (x & E & P).
  exists x, s1. cbn [set_cap m_rest m_caps m_pos get_cap].
  rewrite Nat.eqb_refl, P, E.
  replace (m_pos s + length x - m_pos s) with (length x + 0) by lia.
  rewrite firstn_app_2. cbn [firstn]. rewrite app_nil_r. auto.
Qed.

(** The title the INSERT pattern captures is not empty and holds no quote. *)
Lemma insert_title sql m :
  exec insertPattern sql = Some m ->
  exists c x, group 1 m = Some (c :: x) /\ no_quote (c :: x).
Proof.
  intros E. apply exec_sound in E as (pre & Es & _ & M0).
  change (pat insertPattern)
    with (seqs ([w "INSERT INTO todos"; star ws; w "(";
                 plus (none_of [IChar ")"]); w ")"; star ws; w "VALUES";
                 star ws; w "("; star ws; ch sq]
                ++ [Group 1 (Plus true (Cls true [IChar sq]))]
                ++ [ch sq; star ws; w ","; star ws;
                    Group 2 (alts [w "true"; w "false"]); star ws;
                    w ")"])) in M0.
  change (ignoreCase insertPattern) with true in M0.
  apply matches_seqs_app in M0 as (s1 & _ & M0).
  apply matches_seqs_app in M0 as (s2 & M2 & M3).
  cbn [seqs] in M2.
  apply group_capture in M2 as (x & s1' & E1 & G & M2 & R & _).
  apply matches_plus_cls_inv in M2 as (c & y & E2 & F & _).
  rewrite R, E1 in E2.
  change (c :: y ++ m_rest s2) with ((c :: y) ++ m_rest s2) in E2.
  apply app_inv_tail in E2. subst x.
  exists c, y. split.
  - unfold group. rewrite (matches_keeps_cap M3 1); [exact G|].
    cbn. intuition discriminate.
  - eapply Forall_impl; [|exact F]. intros a. apply not_quote_ok.
Qed.

Lemma handleInsertQuery_run sql w o w' :
  handleInsertQuery sql w = (o, w') ->
  (o = Thrown (lit "Could not parse INSERT statement") /\ w' = w)
  \/ (exists t c e,
         Store.fault w = Some e
         /\ o = Thrown (lit "Insert failed: " ++ e)
         /\ rows w' = rows w /\ next_id w' = next_id w /\ clock w' = clock w
         /\ footprint w w' [CInsert t c])
  \/ (exists t c,
         t <> [] /\ no_quote t
         /\ Store.fault w = None
         /\ rows w' = rows w ++ [Todo (next_id w) t c (clock w)]
         /\ next_id w' = S (next_id w) /\ clock w' = S (clock w)
         /\ footprint w w' [CInsert t c; CSelect [] false]
         /\ (forall p, o = Ok p ->
               todos p = Store.order false (rows w')
               /\ count p = length (rows w'))).
Proof.
  unfold handleInsertQuery, getAllTodos. cbv zeta.
  destruct (exec insertPattern sql) as [m|] eqn:Em.
  2:{ intros [= <- <-]. left. split; reflexivity. }
  destruct (insert_title _ Em) as (c & x & G & Q). rewrite G.
  cbn [or_empty].
  match goal with
  | |- context [Store.insert _ ?v] => generalize v; intro flag
  end.
  forget_pushes. io_cases.
  all: io_open; right.
  all: try (left; eexists _, _, _; do 5 (split; [reflexivity|]);
            footprint_ok).
  all: right; exists (c :: x), flag.
  all: split; [discriminate|split; [exact Q|]].
  all: repeat (split; [reflexivity|]).
  all: split; [footprint_ok|].
  all: try (intros ? [=]; fail).
  all: intros ? [= <-]; cbn [todos count].
  all: rewrite ?filter_keeps_all, ?order_length; split; reflexivity.
Qed.

Lemma footprint_after_pushes w ms w' cs :
  footprint (pushes ms w) w' cs ->
  footprint w w' cs
  /\ exists more, milestones w' = milestones w ++ ms ++ more.
Proof.
  unfold footprint, pushes. io_simpl. intros (C & F & more & M).
  split; [split; [exact C | split; [exact F|]]|].
  - exists (ms ++ more). rewrite M, <- app_assoc. reflexivity.
  - exists more. rewrite M, <- app_assoc. reflexivity.
Qed.

Lemma unsupported_prefix x :
  startsWith (lit "Unsupported query type: ")
             (lit "Unsupported query type: " ++ x) = true.
Proof. apply startsWith_app. Qed.

Lemma execution_prefix x :
  startsWith (lit "Database execution error: ")
             (lit "Database execution error: " ++ x) = true.
Proof. apply startsWith_app. Qed.

Lemma same_identity_one r : same_identity r r.
Proof. repeat split; auto. Qed.

Lemma rows_kept_same w w' : rows w' = rows w -> rows_kept w w'.
Proof.
  intros E r' H. rewrite E in H. left. exists r'. split; [exact H|].
  apply same_identity_one.
Qed.

Lemma rows_kept_filter w w' keep :
  rows w' = List.filter keep (rows w) -> rows_kept w w'.
Proof.
  intros E r' H. rewrite E in H. apply filter_In in H as [H _].
  left. exists r'. split; [exact H | apply same_identity_one].
Qed.

Lemma rows_kept_changed w w' :
  Forall2 same_identity (rows w) (rows w') -> rows_kept w w'.
Proof.
  intros F r' H. left.
  induction F as [|a b l l' Hab F IH]; [contradiction|].
  destruct H as [<- | H].
  - exists a. split; [left; reflexivity | exact Hab].
  - destruct (IH H) as (r & Hr & S). exists r. split; [right; exact Hr | exact S].
Qed.

Lemma rows_kept_added w w' t c :
  rows w' = rows w ++ [Todo (next_id w) t c (clock w)] -> rows_kept w w'.
Proof.
  intros E r' H. rewrite E in H. apply in_app_or in H as [H | [<- | []]].
  - left. exists r'. split; [exact H | apply same_identity_one].
  - right. reflexivity.
Qed.


Lemma handleInsertQuery_handled sql w o w' :
  handleInsertQuery sql w = (o, w') -> handled w w' /\ rows_kept w w'.
Proof.
  intros E. apply handleInsertQuery_run in E
    as [[_ ->] | [(t & c & e & _ & _ & R & N & _ & F)
                 | (t & c & _ & _ & _ & R & N & _ & F & _)]].
  - split; [|apply rows_kept_same; reflexivity].
    split; [exists []; split; [unfold footprint; footprint_ok | cbn; lia]|].
    split; lia.
  - split; [|apply rows_kept_same; exact R].
    split; [eexists; split; [exact F | cbn; lia]|].
    rewrite R. split; lia.
  - split; [|eapply rows_kept_added; exact R].
    split; [eexists; split; [exact F | cbn; lia]|].
    rewrite R, length_app. cbn [length]. split; lia.
Qed.

Lemma handleSelectQuery_handled sql w o w' :
  handleSelectQuery sql w = (o, w') -> handled w w' /\ rows_kept w w'.
Proof.
  intros E. apply handleSelectQuery_run in E as (R & N & _ & F & _ & _).
  split; [|apply rows_kept_same; exact R].
  split; [eexists; split; [exact F | cbn; lia]|].
  rewrite R. split; lia.
Qed.

Lemma handleUpdateQuery_handled sql w o w' :
  handleUpdateQuery sql w = (o, w') ->
  handled w w' /\ (keeps_keys sql = true -> rows_kept w w').
Proof.
  intros E. apply handleUpdateQuery_run in E as (R & L & N & _ & F & _).
  split; [|intros K; apply rows_kept_changed, R, K].
  split; [exact F|]. split; lia.
Qed.

Lemma handleDeleteQuery_handled sql w o w' :
  handleDeleteQuery sql w = (o, w') -> handled w w' /\ rows_kept w w'.
Proof.
  intros E. apply handleDeleteQuery_run in E
    as ((keep & R) & N & _ & (cs & F & S) & _).
  split; [|eapply rows_kept_filter; exact R].
  split.
  - exists cs. split; [exact F|].
    destruct S as [-> | (fs & _ & [-> | ->])]; cbn; lia.
  - rewrite R. pose proof (filter_length_le keep (rows w)). split; lia.
Qed.
Lemma shown_order w' p l :
  todos p = Store.order false l -> count p = length l ->
  (forall r, In r l -> In r (rows w')) -> shown w' p.
Proof.
  intros T C I. unfold shown. rewrite T, C, order_length.
  split; [reflexivity|]. split; [apply order_newest_first|].
  intros r H. apply I. apply In_order in H. exact H.
Qed.

Lemma shown_table w' p :
  todos p = Store.order false (rows w') -> count p = length (rows w') ->
  shown w' p /\ Permutation (todos p) (rows w').
Proof.
  intros T C. split; [eapply shown_order; eauto|].
  rewrite T. apply order_perm.
Qed.

Lemma handleInsertQuery_payload sql w p w' :
  handleInsertQuery sql w = (Ok p, w') ->
  shown w' p /\ Permutation (todos p) (rows w') /\ ends_with_read w'.
Proof.
  intros E. apply handleInsertQuery_run in E
    as [[E _] | [(t & c & e & _ & E & _)
                | (t & c & _ & _ & _ & _ & _ & _ & (F & _) & P)]];
    try discriminate.
  destruct (P p eq_refl) as (T & C).
  destruct (@shown_table w' p T C) as (A & B).
  split; [exact A|]. split; [exact B|].
  exists (calls w ++ [CInsert t c]), []. rewrite F, <- app_assoc. reflexivity.
Qed.

Lemma handleSelectQuery_payload sql w p w' :
  handleSelectQuery sql w = (Ok p, w') -> shown w' p /\ ends_with_read w'.
Proof.
  intros E. apply handleSelectQuery_run in E as (R & _ & _ & (F & _) & _ & P).
  destruct (P p eq_refl) as (T & C).
  split; [|eexists _, _; exact F].
  unfold shown. rewrite C, T. split; [reflexivity|].
  split; [apply order_newest_first|].
  intros r H. apply In_order, filter_In in H as [H _]. rewrite R. exact H.
Qed.

Lemma handleUpdateQuery_payload sql w p w' :
  handleUpdateQuery sql w = (Ok p, w') ->
  shown w' p /\ Permutation (todos p) (rows w') /\ ends_with_read w'.
Proof.
  intros E. apply handleUpdateQuery_run in E as (_ & _ & _ & _ & _ & P).
  destruct (P p eq_refl) as (T & C & l & L).
  destruct (@shown_table w' p T C) as (A & B).
  split; [exact A|]. split; [exact B|]. exists l, []. exact L.
Qed.

Lemma handleDeleteQuery_payload sql w p w' :
  handleDeleteQuery sql w = (Ok p, w') ->
  shown w' p /\ Permutation (todos p) (rows w') /\ ends_with_read w'.
Proof.
  intros E. apply handleDeleteQuery_run in E as (_ & _ & _ & _ & P).
  destruct (P p eq_refl) as (T & C & l & L).
  destruct (@shown_table w' p T C) as (A & B).
  split; [exact A|]. split; [exact B|]. exists l, []. exact L.
Qed.

Lemma executeSQLQuery_run sql w o w' :
  executeSQLQuery sql w = (o, w') ->
  (exists cs,
      footprint w w' cs
      /\ length (List.filter mutating cs) <= 1 /\ length cs <= 3)
  /\ (exists more,
         milestones w'
         = milestones w
             ++ [lit "🔎 Cleaned SQL: " ++ quoted (extractCleanSQL sql);
                 lit "🔎 Detected query type: " ++ quoted (queryType sql)]
             ++ more)
  /\ (rewrites_keys sql = false -> rows_kept w w')
  /\ next_id w <= next_id w' <= S (next_id w)
  /\ (forall e, o = Thrown e ->
        startsWith (lit "Unsupported query type: ") e = true
        \/ startsWith (lit "Database execution error: ") e = true)
  /\ (member (queryType sql) allowedTypes = false ->
      same_store w w'
      /\ exists e, o = Thrown e
                   /\ startsWith (lit "Unsupported query type: ") e = true)
  /\ (forall p, o = Ok p ->
        shown w' p
        /\ (queryType sql <> lit "select" -> Permutation (todos p) (rows w'))
        /\ ends_with_read w')
  /\ length (rows w') <= S (length (rows w)).
Proof.
  unfold rewrites_keys.
  unfold executeSQLQuery. cbv zeta. fold (queryType sql).
  set (cleaned := extractCleanSQL sql). set (qt := queryType sql).
  set (m1 := lit "🔎 Cleaned SQL: " ++ quoted cleaned).
  set (m2 := lit "🔎 Detected query type: " ++ quoted qt).
  unfold bind at 1 2, push at 1 2. cbv beta iota.
  change (World (rows (World (rows w) (next_id w) (clock w) (faults w) (calls w) (milestones w ++ [m1]))) _ _ _ _ _)
    with (World (rows w) (next_id w) (clock w) (faults w) (calls w) ((milestones w ++ [m1]) ++ [m2])).
  rewrite <- app_assoc. change ([m1] ++ [m2]) with [m1; m2].
  change (World (rows w) (next_id w) (clock w) (faults w) (calls w) (milestones w ++ [m1; m2])) with (pushes [m1; m2] w).
  destruct (member qt allowedTypes) eqn:A; cbn [negb].
  - intros E.
    assert (H : (handled (pushes [m1; m2] w) w'
                 /\ (str_eqb qt (lit "update") && negb (keeps_keys cleaned)
                     = false -> rows_kept w w'))
                /\ (forall e, o = Thrown e ->
                      startsWith (lit "Database execution error: ") e = true)
                /\ (forall p, o = Ok p ->
                      shown w' p
                      /\ (qt <> lit "select" ->
                          Permutation (todos p) (rows w'))
                      /\ ends_with_read w')).
    { unfold catch in E.
      destruct (str_eqb qt (lit "insert"));
        [|destruct (str_eqb qt (lit "select")) eqn:Q;
          [|destruct (str_eqb qt (lit "update"));
            [|destruct (str_eqb qt (lit "delete"))]]];
        cbn [andb].
      5:{ unfold throw in E. apply pair_equal_spec in E as [<- <-].
          split; [|split; [|discriminate]].
          - split; [|intros _; apply rows_kept_same; reflexivity].
            split; [exists []; split; [unfold footprint; footprint_ok | cbn; lia]|].
            cbn [rows next_id pushes]. split; lia.
          - intros e [= <-]. apply execution_prefix. }
      all: match type of E with
           | match ?h ?c ?x with _ => _ end = _ =>
               destruct (h c x) as [[p|e0] w1] eqn:H
           end.
      all: unfold throw in E; apply pair_equal_spec in E as [<- <-].
      all: split;
        [first [ apply handleInsertQuery_handled in H as (H1 & H2)
               | apply handleSelectQuery_handled in H as (H1 & H2)
               | apply handleDeleteQuery_handled in H as (H1 & H2)
               | apply handleUpdateQuery_handled in H as (H1 & H2) ];
         (split; [exact H1|]);
         first [ intros _; exact H2
               | intros N; apply H2; destruct (keeps_keys cleaned);
                 [reflexivity | cbn in N; discriminate N] ]|].
      all: split;
        [first [discriminate | intros e [= <-]; apply execution_prefix]|].
      all: try discriminate.
      all: intros p' [= <-].
      - destruct (handleInsertQuery_payload _ _ H) as (A1 & A2 & A3).
        split; [exact A1 | split; [intros _; exact A2 | exact A3]].
      - destruct (handleSelectQuery_payload _ _ H) as (A1 & A3).
        split; [exact A1 | split; [|exact A3]].
        intros X. apply str_eqb_eq in Q. contradiction.
      - destruct (handleUpdateQuery_payload _ _ H) as (A1 & A2 & A3).
        split; [exact A1 | split; [intros _; exact A2 | exact A3]].
      - destruct (handleDeleteQuery_payload _ _ H) as (A1 & A2 & A3).
        split; [exact A1 | split; [intros _; exact A2 | exact A3]]. }
    destruct H as ((((cs & F & S) & L & N) & K) & P & Y).
    apply footprint_after_pushes in F as (F & M).
    split; [exists cs; split; [exact F | exact S]|].
    split; [exact M|]. split; [exact K|]. split; [exact N|].
    split; [intros e He; right; apply P; exact He|].
    split; [discriminate|]. split; [exact Y | exact L].
  - unfold throw. intros E. apply pair_equal_spec in E as [<- <-].
    split; [exists []; split; [unfold footprint, pushes; io_simpl; footprint_ok | cbn; lia]|].
    split; [exists []; reflexivity|].
    split; [intros _; apply rows_kept_same; reflexivity|].
    split; [cbn; lia|].
    split; [intros e [= <-]; left; apply unsupported_prefix|].
    split; [|split; [discriminate | cbn; lia]].
    intros _. split; [repeat split|].
    eexists; split; [reflexivity | apply unsupported_prefix].
Qed.

(** ** Orchestrator: responses and trace *)

Lemma handled_pushes ms1 ms2 w w' :
  handled (pushes ms1 w) w' -> handled w (pushes ms2 w').
Proof.
  intros ((cs & F & S) & K & N).
  apply footprint_after_pushes in F as ((C & F & more & M) & _).
  split; [|split; [exact K | exact N]].
  exists cs. split; [|exact S].
  split; [exact C | split; [exact F|]].
  exists (more ++ ms2). unfold pushes; io_simpl.
  rewrite M, <- app_assoc. reflexivity.
Qed.

Lemma handled_same_store w w' :
  same_store w w' -> (exists ms, milestones w' = milestones w ++ ms) ->
  handled w w'.
Proof.
  intros (R & N & _ & F & C) M.
  split; [exists []; split; [|cbn; lia]|].
  - split; [rewrite app_nil_r; exact C | split; [exact F | exact M]].
  - rewrite R. split; lia.
Qed.

Lemma handled_trans_pushes ms w w' :
  handled (pushes ms w) w' -> handled w w'.
Proof.
  intros ((cs & F & S) & K & N).
  apply footprint_after_pushes in F as (F & _).
  split; [exists cs; split; [exact F | exact S] | split; [exact K | exact N]].
Qed.

Lemma conclude_shape query cleanedQuery intent sqlQuery v w0 :
  let r := conclude query cleanedQuery intent sqlQuery v w0 in
  well_formed (fst r)
  /\ r_milestones (fst r) = milestones (snd r)
  /\ (exists more,
         milestones (snd r) = milestones w0 ++ more ++ [closing (fst r)])
  /\ (status (fst r) = 400 -> same_store w0 (snd r))
  /\ (r_suggestion (fst r) <> None -> status (fst r) = 400)
  /\ handled w0 (snd r)
  /\ generatedSQL (r_queries (fst r)) = Some sqlQuery
  /\ (forall p, r_data (fst r) = Some p ->
        shown (snd r) p /\ ends_with_read (snd r))
  /\ (rewrites_keys (executed query sqlQuery v) = false ->
      rows_kept w0 (snd r)).
Proof.
  intros r.
  assert (R : r = conclude query cleanedQuery intent sqlQuery v w0)
    by reflexivity.
  clearbody r. unfold conclude in R.
  assert (FE : (if negb (valid v) && negb (present (suggestion v))
                then fixSQLSyntax sqlQuery query
                else if present (suggestion v)
                     then or_empty (suggestion v) else sqlQuery)
               = executed query sqlQuery v).
  { unfold executed.
    destruct (present (suggestion v)), (valid v); reflexivity. }
  revert FE. generalize (executed query sqlQuery v). intros ran FE.
  set (repaired := fixSQLSyntax sqlQuery query) in R, FE. clearbody repaired.
  set (verdict_line := lit "✅ Milestone 5: SQL validation "
                         ++ (if valid v then lit "passed" else lit "failed")) in R.
  clearbody verdict_line.
  set (unaided := negb (valid v) && negb (present (suggestion v))) in R, FE.
  set (finalSQL := if unaided then repaired
                   else if present (suggestion v)
                        then or_empty (suggestion v) else sqlQuery) in R, FE.
  clearbody finalSQL. subst ran.
  set (w1 := if unaided then pushes [lit "🔧 Applied automatic SQL fixes"] w0
             else w0) in R.
  assert (W1 : exists pre, w1 = pushes pre w0 /\ length pre <= 1).
  { subst w1. destruct unaided; [eexists; split; [reflexivity | cbn; lia]|].
    exists []. destruct w0; unfold pushes; cbn. rewrite app_nil_r.
    split; [reflexivity | lia]. }
  clearbody w1. destruct W1 as (pre & -> & _). clearbody unaided.
  destruct (unaided && str_eqb finalSQL sqlQuery).
  - subst r. unfold well_formed, closing, failure.
    cbn [fst snd status success r_data r_message r_error r_sql r_suggestion
         r_milestones r_queries generatedSQL or_empty].
    split; [right; repeat split; auto; discriminate|].
    split; [reflexivity|].
    split; [exists (pre ++ [verdict_line]); unfold pushes; io_simpl;
            rewrite <- !app_assoc; reflexivity|].
    split; [intros _; repeat split|].
    split; [reflexivity|].
    split; [|split; [reflexivity|];
            split; [discriminate | intros _; apply rows_kept_same; reflexivity]].
    apply handled_same_store; [repeat split|].
    unfold pushes; io_simpl. rewrite <- app_assoc. eexists; reflexivity.
  - set (w2 := pushes [lit "🔄 Milestone 6: Parsing and executing SQL query..."]
                 (pushes [verdict_line; lit "🔎 Validated SQL: " ++ quoted finalSQL]
                    (pushes pre w0))) in R.
    assert (W2 : exists ms, w2 = pushes ms w0).
    { eexists. subst w2. unfold pushes; io_simpl. rewrite <- !app_assoc.
      reflexivity. }
    clearbody w2. destruct W2 as (ms & ->).
    destruct (executeSQLQuery finalSQL (pushes ms w0)) as [[result|err] w3] eqn:X;
      apply executeSQLQuery_run in X as (F & _ & K & N & _ & _ & Y & L).
    + subst r. unfold well_formed, closing.
      cbn [fst snd status success r_data r_message r_error r_sql r_suggestion
           r_milestones r_queries validatedSQL generatedSQL or_empty].
      split; [left; repeat split; auto; discriminate|].
      split; [reflexivity|].
      destruct F as (cs & F & S).
      split.
      { destruct (footprint_after_pushes F) as (_ & more & M).
        exists (ms ++ more). unfold pushes; io_simpl.
        rewrite M, <- !app_assoc. reflexivity. }
      split; [discriminate|]. split; [intros H; contradiction H; reflexivity|].
      split; [|split; [reflexivity|]; split; [|exact K]].
      * eapply handled_pushes. split; [exists cs; split; [exact F | exact S]|].
        split; [exact L | exact N].
      * intros p [= <-]. destruct (Y result eq_refl) as (Y1 & _ & Y3).
        split; [exact Y1 | exact Y3].
    + subst r. unfold well_formed, closing, crashed, push, failure.
      cbn [fst snd status success r_data r_message r_error r_sql r_suggestion
           r_milestones r_queries validatedSQL generatedSQL or_empty].
      split; [right; repeat split; auto; discriminate|].
      io_simpl. split; [reflexivity|].
      destruct F as (cs & F & S).
      split.
      { destruct (footprint_after_pushes F) as (_ & more & M).
        exists (ms ++ more). rewrite M, <- !app_assoc. reflexivity. }
      split; [discriminate|]. split; [intros H; contradiction H; reflexivity|].
      split; [|split; [reflexivity|]; split; [discriminate | exact K]].
      apply (@handled_pushes ms [lit "❌ Error: " ++ err] w0 w3).
      split; [exists cs; split; [exact F | exact S]|].
      split; [exact L | exact N].
Qed.

Lemma POST_reaches JSON_parse e w query content :
  reaches_validation e query content ->
  let sqlQuery := generateSQLWithGroq content (preprocessQuery query) in
  POST JSON_parse e w
  = conclude query (preprocessQuery query)
      (classifyIntent (preprocessQuery query)) sqlQuery
      (validateSQLWithGemini JSON_parse (gemini e) query sqlQuery)
      (pushes (opening query sqlQuery) (fresh w)).
Proof.
  intros (H1 & H2 & H3 & H4 & H5 & H6) sqlQuery.
  assert (HP : present (Some query) = true) by exact H5.
  unfold POST. rewrite H1, H2, H3, H4, H6, HP.
  cbn [negb orb or_empty]. reflexivity.
Qed.

Lemma handled_fresh w : handled (fresh w) (fresh w).
Proof.
  apply handled_same_store; [repeat split | exists []; reflexivity].
Qed.

(** Every path of [POST]: either the request ends before the generated
    statement exists, with the store untouched, or it goes through
    [conclude]. *)
Lemma POST_paths JSON_parse e w :
  let r := POST JSON_parse e w in
  (snd r = fresh w \/ exists m, snd r = pushes m (fresh w))
  /\ (status (fst r) = 400 \/ status (fst r) = 500)
  /\ success (fst r) = false /\ r_data (fst r) = None
  /\ r_message (fst r) = None /\ r_error (fst r) <> None
  /\ r_suggestion (fst r) = None /\ r_milestones (fst r) <> []
  /\ generatedSQL (r_queries (fst r)) = None
  \/ exists query content, reaches_validation e query content.
Proof.
  intros r. subst r. unfold POST, reaches_validation.
  destruct (truthy (SUPABASE_URL e)); cbn [negb orb];
    [destruct (truthy (SUPABASE_SERVICE_ROLE_KEY e)); cbn [negb orb];
     [destruct (truthy (GROQ_API_KEY e)); cbn [negb orb]|]|].
  2-4: left; cbn; repeat split; auto; discriminate.
  destruct (body e) as [msg|field].
  { left. unfold crashed, push, failure; cbn [fst snd]. io_simpl.
    split; [right; exists [lit "❌ Error: " ++ msg]; reflexivity|].
    cbn. repeat split; auto; try discriminate. }
  destruct (present field) eqn:P; cbn [negb].
  2:{ left; cbn; repeat split; auto; discriminate. }
  destruct (groq e) as [msg|content].
  { left. unfold crashed, push, failure; cbn [fst snd]. io_simpl.
    split; [right; eexists; unfold pushes, fresh; io_simpl; rewrite <- !app_assoc; reflexivity|].
    cbn [status success r_data r_message r_error r_suggestion r_milestones r_queries generatedSQL].
    repeat split; auto; discriminate. }
  right. destruct field as [q|]; [|discriminate].
  exists q, content. repeat split; auto.
Qed.

(** ** Handlers and dispatcher: what a statement can do to the store *)

(** X1. A SELECT statement, and [getAllTodos], make exactly one read request
    and leave the table and the counters as they were, whether or not the
    store answers; when the store answers with an error the handler throws
    it, prefixed with "Select failed: " when the statement has a WHERE
    clause and with "Failed to fetch todos: " when it has none. *)
Theorem handleSelectQuery_reads_only :
  forall sql w,
    let r := handleSelectQuery sql w in
    let g := getAllTodos w in
    (rows (snd r) = rows w /\ next_id (snd r) = next_id w
     /\ clock (snd r) = clock w
     /\ footprint w (snd r) [CSelect (statement_filter sql) false]
     /\ (forall e, Store.fault w = Some e ->
           fst r = Thrown (match exec re_where sql with
                           | Some _ => lit "Select failed: "
                           | None => lit "Failed to fetch todos: "
                           end ++ e)))
    /\ (rows (snd g) = rows w /\ next_id (snd g) = next_id w
        /\ clock (snd g) = clock w
        /\ footprint w (snd g) [CSelect [] false]
        /\ match Store.fault w with
           | Some e => fst g = Thrown (lit "Failed to fetch todos: " ++ e)
           | None =>
               fst g = Ok (Payload (Store.order false (rows w))
                                   (length (rows w))
                                   (lit "Operation completed successfully"))
           end).
Proof.
  intros sql w r g. split.
  - subst r. destruct (handleSelectQuery sql w) as [o w'] eqn:E.
    apply handleSelectQuery_run in E as (A & B & C & D & F & _).
    repeat (split; [assumption|]). exact F.
  - subst g. destruct (getAllTodos w) as [o w'] eqn:E.
    apply getAllTodos_run in E. exact E.
Qed.

Lemma handleSelectQuery_reads_only_witness :
  fst (handleSelectQuery (lit "SELECT * FROM todos WHERE completed = true")
         failing_world)
  = Thrown (lit "Select failed: connection lost").
Proof.
  pose proof (handleSelectQuery_reads_only
                (lit "SELECT * FROM todos WHERE completed = true")
                failing_world) as P.
  cbv zeta in P. destruct P as ((_ & _ & _ & _ & P) & _).
  exact (P (lit "connection lost") eq_refl).
Defined.

(** X2. A DELETE statement never adds or changes a row: the table it leaves
    is the table it found with some rows filtered out, in the same order,
    and the counters are unchanged.  It makes no request, or one delete
    request with at most one filter, followed by one read when the delete
    was served; the payload of a success is the table after the deletion. *)
Theorem handleDeleteQuery_only_removes :
  forall sql w,
    let r := handleDeleteQuery sql w in
    (exists keep, rows (snd r) = List.filter keep (rows w))
    /\ next_id (snd r) = next_id w /\ clock (snd r) = clock w
    /\ (exists cs,
           footprint w (snd r) cs
           /\ (cs = []
               \/ exists fs,
                    length fs <= 1
                    /\ (cs = [CDelete fs]
                        \/ cs = [CDelete fs; CSelect [] false])))
    /\ (forall p, fst r = Ok p ->
          todos p = Store.order false (rows (snd r))
          /\ count p = length (rows (snd r))).
Proof.
  intros sql w r. subst r.
  destruct (handleDeleteQuery sql w) as [o w'] eqn:E.
  apply handleDeleteQuery_run in E as (A & B & C & D & P).
  repeat (split; [assumption|]).
  intros p Hp. destruct (P p Hp) as (T & N & _). split; assumption.
Qed.

Lemma handleDeleteQuery_only_removes_witness :
  exists p,
    fst (handleDeleteQuery (lit "DELETE FROM todos WHERE id = 1") sample_world)
    = Ok p
    /\ count p = 1.
Proof.
  pose proof (handleDeleteQuery_only_removes
                (lit "DELETE FROM todos WHERE id = 1") sample_world) as P.
  cbv zeta in P. destruct P as (_ & _ & _ & _ & P).
  eexists. split; [vm_compute; reflexivity|].
  apply P. vm_compute. reflexivity.
Defined.

(** X3. An UPDATE statement never adds or removes a row.  When the column it
    assigns is title or completed, no id and no creation time changes, and
    in each row at most one of title and completed changes.  (The handler
    sends any column name to the store; an assignment to id or created_at
    is not covered.)  It makes at most three requests, at most one of which
    changes the table; the payload of a success is the table after the
    update. *)
Theorem handleUpdateQuery_keeps_identity :
  forall sql w,
    let r := handleUpdateQuery sql w in
    length (rows (snd r)) = length (rows w)
    /\ (keeps_keys sql = true ->
        Forall2 same_identity (rows w) (rows (snd r)))
    /\ next_id (snd r) = next_id w /\ clock (snd r) = clock w
    /\ (exists cs,
           footprint w (snd r) cs
           /\ length (List.filter mutating cs) <= 1 /\ length cs <= 3)
    /\ (forall p, fst r = Ok p ->
          todos p = Store.order false (rows (snd r))
          /\ count p = length (rows (snd r))).
Proof.
  intros sql w r. subst r.
  destruct (handleUpdateQuery sql w) as [o w'] eqn:E.
  apply handleUpdateQuery_run in E as (A & L & B & C & D & P).
  cbn [fst snd]. split; [exact L|].
  repeat (split; [assumption|]).
  intros p Hp. destruct (P p Hp) as (T & N & _). split; assumption.
Qed.

Lemma handleUpdateQuery_keeps_identity_witness :
  keeps_keys (lit "UPDATE todos SET completed = true WHERE id = 1") = true
  /\ Forall2 same_identity (rows sample_world)
       (rows (snd (handleUpdateQuery
                     (lit "UPDATE todos SET completed = true WHERE id = 1")
                     sample_world))).
Proof.
  pose proof (handleUpdateQuery_keeps_identity
                (lit "UPDATE todos SET completed = true WHERE id = 1")
                sample_world) as P.
  cbv zeta in P. destruct P as (_ & P & _).
  split; [vm_compute; reflexivity|].
  apply P. vm_compute. reflexivity.
Defined.

(** X4. An INSERT statement has three outcomes.  It does not parse: the
    parse error is thrown and nothing else happens.  The store refuses the
    insert: "Insert failed: " and its error are thrown and the table is
    unchanged.  Or exactly one row is appended, with the next id, the
    current time, and a title that is not empty and holds no quote; the
    handler then reads the table back, and a success returns it with the new
    row in it.  (When that read fails the handler throws although the row
    is in the table.) *)
Theorem handleInsertQuery_adds_one_row :
  forall sql w,
    let r := handleInsertQuery sql w in
    (fst r = Thrown (lit "Could not parse INSERT statement") /\ snd r = w)
    \/ (exists t c e,
           Store.fault w = Some e
           /\ fst r = Thrown (lit "Insert failed: " ++ e)
           /\ rows (snd r) = rows w /\ next_id (snd r) = next_id w
           /\ clock (snd r) = clock w
           /\ footprint w (snd r) [CInsert t c])
    \/ (exists t c,
           t <> [] /\ no_quote t
           /\ Store.fault w = None
           /\ rows (snd r) = rows w ++ [Todo (next_id w) t c (clock w)]
           /\ next_id (snd r) = S (next_id w)
           /\ clock (snd r) = S (clock w)
           /\ footprint w (snd r) [CInsert t c; CSelect [] false]
           /\ (forall p, fst r = Ok p ->
                 todos p = Store.order false (rows (snd r))
                 /\ count p = length (rows (snd r)))).
Proof.
  intros sql w r. subst r.
  destruct (handleInsertQuery sql w) as [o w'] eqn:E.
  apply handleInsertQuery_run in E. exact E.
Qed.

Lemma handleInsertQuery_adds_one_row_witness :
  rows (snd (handleInsertQuery
               (lit "INSERT INTO todos (title, completed) VALUES ('Buy milk', false)")
               sample_world))
  = rows sample_world ++ [Todo 3 (lit "Buy milk") false 30].
Proof.
  pose proof (handleInsertQuery_adds_one_row
                (lit "INSERT INTO todos (title, completed) VALUES ('Buy milk', false)")
                sample_world) as P.
  cbv zeta in P.
  destruct P as [[P _] | [(t & c & e & P & _) | _]].
  - vm_compute in P. discriminate.
  - vm_compute in P. discriminate.
  - vm_compute. reflexivity.
Defined.

(** X5. Every error [executeSQLQuery] throws starts with "Unsupported query
    type: " or with "Database execution error: ".  When the first word of
    the cleaned statement is not select, insert, update or delete, the first
    is thrown and the store is untouched. *)
Theorem executeSQLQuery_errors :
  forall sql w,
    let r := executeSQLQuery sql w in
    (forall e, fst r = Thrown e ->
       startsWith (lit "Unsupported query type: ") e = true
       \/ startsWith (lit "Database execution error: ") e = true)
    /\ (member (queryType sql) allowedTypes = false ->
        same_store w (snd r)
        /\ exists e, fst r = Thrown e
                     /\ startsWith (lit "Unsupported query type: ") e = true).
Proof.
  intros sql w r. subst r.
  destruct (executeSQLQuery sql w) as [o w'] eqn:E.
  apply executeSQLQuery_run in E as (_ & _ & _ & _ & P & Q & _).
  split; [exact P | exact Q].
Qed.

Lemma executeSQLQuery_errors_witness :
  same_store sample_world
    (snd (executeSQLQuery (lit "TRUNCATE TABLE todos") sample_world)).
Proof.
  pose proof (executeSQLQuery_errors (lit "TRUNCATE TABLE todos")
                sample_world) as P.
  cbv zeta in P. destruct P as (_ & P).
  destruct P as (S & _); [vm_compute; reflexivity | exact S].
Defined.

(** X6. Whatever the statement and the store's faults, one run of
    [executeSQLQuery] appends at most three requests to the log, at most one
    of which changes the table, and uses one pending fault per request; it
    appends to the trace, starting with the cleaned statement and the
    detected type; the table grows by at most one row and at most one id is
    used.  Unless the statement is an UPDATE of a column other than title
    and completed, every row left is a row found, with its id and creation
    time, or carries the next free id. *)
Theorem executeSQLQuery_footprint :
  forall sql w,
    let r := executeSQLQuery sql w in
    (exists cs,
        footprint w (snd r) cs
        /\ length (List.filter mutating cs) <= 1 /\ length cs <= 3)
    /\ (exists more,
           milestones (snd r)
           = milestones w
               ++ [lit "🔎 Cleaned SQL: " ++ quoted (extractCleanSQL sql);
                   lit "🔎 Detected query type: " ++ quoted (queryType sql)]
               ++ more)
    /\ length (rows (snd r)) <= S (length (rows w))
    /\ next_id w <= next_id (snd r) <= S (next_id w)
    /\ (rewrites_keys sql = false -> rows_kept w (snd r)).
Proof.
  intros sql w r. subst r.
  destruct (executeSQLQuery sql w) as [o w'] eqn:E.
  apply executeSQLQuery_run in E as (A & B & C & D & _ & _ & _ & L).
  cbn [fst snd]. split; [exact A|]. split; [exact B|].
  split; [exact L|]. split; [exact D | exact C].
Qed.

Lemma executeSQLQuery_footprint_witness :
  rewrites_keys (lit "UPDATE todos SET title = 'Buy bread' WHERE id = 1;")
  = false
  /\ rows_kept sample_world
       (snd (executeSQLQuery
               (lit "UPDATE todos SET title = 'Buy bread' WHERE id = 1;")
               sample_world)).
Proof.
  pose proof (executeSQLQuery_footprint
                (lit "UPDATE todos SET title = 'Buy bread' WHERE id = 1;")
                sample_world) as P.
  cbv zeta in P. destruct P as (_ & _ & _ & _ & P).
  split; [vm_compute; reflexivity|].
  apply P. vm_compute. reflexivity.
Defined.

(** X7. Every successful run of [executeSQLQuery] ends with a read of the
    table, and its payload announces the number of rows it holds, lists
    them newest first, and holds only rows that are in the table after the
    run; for a statement other than a SELECT it holds the whole table. *)
Theorem executeSQLQuery_payload :
  forall sql w p,
    fst (executeSQLQuery sql w) = Ok p ->
    shown (snd (executeSQLQuery sql w)) p
    /\ (queryType sql <> lit "select" ->
        Permutation (todos p) (rows (snd (executeSQLQuery sql w))))
    /\ ends_with_read (snd (executeSQLQuery sql w)).
Proof.
  intros sql w p.
  destruct (executeSQLQuery sql w) as [o w'] eqn:E. cbn [fst snd].
  apply executeSQLQuery_run in E as (_ & _ & _ & _ & _ & _ & P & _).
  exact (P p).
Qed.

Lemma executeSQLQuery_payload_witness :
  exists p,
    fst (executeSQLQuery (lit "DELETE FROM todos WHERE id = 1;") sample_world)
    = Ok p
    /\ Permutation (todos p) [Todo 2 (lit "Build NLP-to-SQL app") true 20].
Proof.
  eexists. split; [vm_compute; reflexivity|].
  refine (proj1 (proj2 (@executeSQLQuery_payload
                          (lit "DELETE FROM todos WHERE id = 1;")
                          sample_world _ _)) _).
  - vm_compute. reflexivity.
  - vm_compute. discriminate.
Defined.

(** X8. Whatever the request, the environment and the providers' replies,
    the response of [POST] has one of two shapes: status 200 with the
    success flag, data, a message and the executed statement (the one
    recorded as validated), and no error; or status 400 or 500 without the
    flag, with an error and no data.  It always carries at least one
    milestone, and a suggested statement only with status 400. *)
Theorem POST_response_shape :
  forall JSON_parse e w,
    let r := fst (POST JSON_parse e w) in
    well_formed r
    /\ r_milestones r <> []
    /\ (r_suggestion r <> None -> status r = 400).
Proof.
  intros JSON_parse e w.
  destruct (POST_paths JSON_parse e w)
    as [(_ & S & F & D & M & E & G & N & _) | (query & content & H)];
    cbv zeta in *.
  - split; [right; repeat split; assumption|].
    split; [exact N | intros X; contradiction].
  - rewrite (POST_reaches JSON_parse w H).
    match goal with
    | |- context [conclude ?a ?b ?c ?d ?v ?w0] =>
        destruct (conclude_shape a b c d v w0) as (W & M & (more & T) & _ & S & _)
    end.
    split; [exact W|]. split; [|exact S].
    rewrite M, T. intros X.
    apply app_eq_nil in X as [_ X]. apply app_eq_nil in X as [_ X].
    discriminate.
Qed.

Lemma POST_response_shape_witness :
  status (fst (POST (fun _ => None) delete_env sample_world)) = 400.
Proof.
  pose proof (POST_response_shape (fun _ => None) delete_env sample_world)
    as P.
  cbv zeta in P. destruct P as (_ & _ & P).
  apply P. vm_compute. discriminate.
Defined.

(** X9. One request makes at most three store requests, at most one of which
    changes the table, and the table grows by at most one row; a response
    with status 400, or one without a generated statement, has left the
    store untouched; the data of a response was read from the table by the
    last request, after any change the request has made.  Unless the
    statement that is executed is an UPDATE of a column other than title and
    completed, the rows left are rows found, with their id and creation
    time, or carry the next free id. *)
Theorem POST_store_discipline :
  forall JSON_parse e w,
    let r := POST JSON_parse e w in
    handled (fresh w) (snd r)
    /\ (status (fst r) = 400 -> same_store w (snd r))
    /\ (generatedSQL (r_queries (fst r)) = None -> same_store w (snd r))
    /\ (forall p, r_data (fst r) = Some p ->
          shown (snd r) p /\ ends_with_read (snd r))
    /\ (forall query content,
          reaches_validation e query content ->
          let sqlQuery := generateSQLWithGroq content (preprocessQuery query) in
          let v := validateSQLWithGemini JSON_parse (gemini e) query sqlQuery in
          rewrites_keys (executed query sqlQuery v) = false ->
          rows_kept w (snd r)).
Proof.
  intros JSON_parse e w.
  destruct (POST_paths JSON_parse e w)
    as [(W & _ & _ & D & _) | (query & content & H)]; cbv zeta in *.
  - assert (S : same_store w (snd (POST JSON_parse e w))).
    { destruct W as [-> | (m & ->)]; repeat split. }
    split; [|split; [intros _; exact S | split; [intros _; exact S|]]].
    + destruct W as [-> | (m & ->)]; [apply handled_fresh|].
      apply handled_same_store; [repeat split | exists m; reflexivity].
    + split; [rewrite D; discriminate|].
      intros _ _ _ _. apply rows_kept_same. apply S.
  - rewrite (POST_reaches JSON_parse w H).
    match goal with
    | |- context [conclude ?a ?b ?c ?d ?v ?w0] =>
        destruct (conclude_shape a b c d v w0)
          as (_ & _ & _ & S & _ & K & G & Y & I)
    end.
    split; [eapply handled_trans_pushes; exact K|].
    split; [intros X; apply S in X; exact X|].
    split; [rewrite G; discriminate|]. split; [exact Y|].
    intros query' content' H' N.
    assert (Q : query' = query /\ content' = content).
    { destruct H as (_ & _ & _ & B & _ & G0).
      destruct H' as (_ & _ & _ & B' & _ & G0').
      rewrite B in B'. rewrite G0 in G0'.
      injection B' as <-. injection G0' as <-. split; reflexivity. }
    destruct Q as [-> ->]. apply I. exact N.
Qed.

Lemma POST_store_discipline_witness :
  same_store sample_world
    (snd (POST (fun _ => None) delete_env sample_world))
  /\ status (fst (POST approve finish_env sample_world)) = 200
  /\ rows_kept sample_world (snd (POST approve finish_env sample_world)).
Proof.
  pose proof (POST_store_discipline (fun _ => None) delete_env sample_world)
    as P.
  pose proof (POST_store_discipline approve finish_env sample_world) as Q.
  cbv zeta in P, Q. destruct P as (_ & P & _). destruct Q as (_ & _ & _ & _ & I).
  split; [apply P; vm_compute; reflexivity|].
  split; [vm_compute; reflexivity|].
  apply (I (lit "mark task 1 done")
           (Some (lit "UPDATE todos SET completed = true WHERE id = 1"))).
  - repeat split.
  - vm_compute. reflexivity.
Defined.

(** X11. The trace of a request that reaches validation: it starts with the
    ten milestones of the stages up to the validator's call, whatever trace
    the world held before, and ends with the milestone of the outcome:
    the execution milestone for 200, the validated statement for 400, the
    error for 500. *)
Theorem POST_trace :
  forall JSON_parse e w query content,
    reaches_validation e query content ->
    let sqlQuery := generateSQLWithGroq content (preprocessQuery query) in
    let r := fst (POST JSON_parse e w) in
    exists more,
      r_milestones r = opening query sqlQuery ++ more ++ [closing r].
Proof.
  intros JSON_parse e w query content H sqlQuery r. subst r.
  rewrite (POST_reaches JSON_parse w H). fold sqlQuery.
  match goal with
  | |- context [conclude ?a ?b ?c ?d ?v ?w0] =>
      destruct (conclude_shape a b c d v w0) as (_ & M & (more & T) & _)
  end.
  exists more. rewrite M, T. reflexivity.
Qed.

Lemma POST_trace_witness :
  exists more,
    r_milestones (fst (POST (fun _ => None) sample_env sample_world))
    = opening (lit "show all tasks")
        (generateSQLWithGroq (Some (lit "SELECT * FROM todos;"))
           (preprocessQuery (lit "show all tasks")))
      ++ more
      ++ [closing (fst (POST (fun _ => None) sample_env sample_world))].
Proof.
  apply (@POST_trace (fun _ => None) sample_env sample_world
           (lit "show all tasks") (Some (lit "SELECT * FROM todos;"))).
  repeat split; reflexivity.
Defined.

(** X12. A statement whose first word is not select, insert, update or
    delete never reaches the store, whatever the validator has said of it:
    the request ends with status 400 or 500, and a 500 carries the
    unsupported-type error. *)
Theorem POST_unsupported_statement :
  forall JSON_parse e w query content,
    reaches_validation e query content ->
    let sqlQuery := generateSQLWithGroq content (preprocessQuery query) in
    let v := validateSQLWithGemini JSON_parse (gemini e) query sqlQuery in
    let r := POST JSON_parse e w in
    member (queryType (executed query sqlQuery v)) allowedTypes = false ->
    same_store w (snd r)
    /\ success (fst r) = false
    /\ (status (fst r) = 400
        \/ status (fst r) = 500
           /\ exists errorMessage,
                r_error (fst r) = Some errorMessage
                /\ startsWith (lit "Unsupported query type: ") errorMessage
                   = true).
Proof.
  intros JSON_parse e w query content H sqlQuery v r U.
  destruct (POST_concludes JSON_parse w H) as (w0 & S & R).
  fold sqlQuery in R. fold v in R. fold r in R.
  pose proof (conclude_cases query (preprocessQuery query)
                (classifyIntent (preprocessQuery query)) sqlQuery v w0) as C.
  cbv zeta in C. rewrite <- R in C. fold (executed query sqlQuery v) in C.
  clearbody r v sqlQuery.
  assert (T : forall a b c, same_store a b -> same_store b c -> same_store a c).
  { unfold same_store. intros a b c (A1 & A2 & A3 & A4 & A5) (B1 & B2 & B3 & B4 & B5).
    repeat split; congruence. }
  destruct (negb (valid v) && negb (present (suggestion v))
            && str_eqb (fixSQLSyntax sqlQuery query) sqlQuery).
  - destruct C as (C1 & C2 & _ & _ & C5).
    split; [eapply T; eassumption|]. split; [exact C2 | left; exact C1].
  - destruct C as (w1 & S1 & _ & C).
    destruct (executeSQLQuery (executed query sqlQuery v) w1)
      as [[result|err] w2] eqn:X;
      apply executeSQLQuery_run in X as (_ & _ & _ & _ & _ & X & _);
      destruct (X U) as (S2 & err' & Ee & P); [discriminate|].
    injection Ee as <-.
    destruct C as (C1 & C2 & C3 & C4).
    split; [eapply T; [exact S|]; eapply T; [exact S1|]; eapply T; eassumption|].
    split; [exact C2|]. right. split; [exact C1|].
    exists err. split; [exact C3 | exact P].
Qed.

Lemma POST_unsupported_statement_witness :
  same_store sample_world (snd (POST approve drop_env sample_world))
  /\ status (fst (POST approve drop_env sample_world)) = 500.
Proof.
  assert (H : reaches_validation drop_env (lit "clear the table")
                (Some (lit "DROP TABLE todos"))).
  { repeat split; reflexivity. }
  pose proof (POST_unsupported_statement approve sample_world H) as P.
  cbv zeta in P. destruct P as (S & _ & [F | [F _]]).
  - vm_compute. reflexivity.
  - vm_compute in F. discriminate.
  - split; [exact S | exact F].
Defined.

(** X13. With the validation provider unreachable, or answering without a
    JSON block, a generated statement that holds one of the flagged phrases,
    has no unquoted VALUES and is left as it is by the repairer is refused:
    status 400 with the dangerous-operations reason, store untouched.  This
    includes every DELETE on todos, with or without a WHERE clause. *)
Theorem POST_validator_down :
  forall JSON_parse e w query content,
    reaches_validation e query content ->
    no_json_block (gemini e) ->
    let sqlQuery := generateSQLWithGroq content (preprocessQuery query) in
    let r := POST JSON_parse e w in
    flagged sqlQuery ->
    hasUnquotedStrings sqlQuery = false ->
    fixSQLSyntax sqlQuery query = sqlQuery ->
    status (fst r) = 400
    /\ r_error (fst r)
       = Some (lit "SQL validation failed: Query contains potentially dangerous operations. Unable to auto-correct.")
    /\ r_data (fst r) = None
    /\ same_store w (snd r).
Proof.
  intros JSON_parse e w query content H J sqlQuery r F U X.
  destruct (POST_concludes JSON_parse w H) as (w0 & S & R).
  fold sqlQuery in R. fold r in R.
  rewrite (fallback_when_no_json JSON_parse query sqlQuery J) in R.
  pose proof (conclude_cases query (preprocessQuery query)
                (classifyIntent (preprocessQuery query)) sqlQuery
                (fallbackValidation query sqlQuery) w0) as C.
  cbv zeta in C. rewrite <- R in C. clearbody r sqlQuery.
  unfold fallbackValidation in C. rewrite U in C.
  apply isDangerous_flagged in F. rewrite F in C.
  cbn [valid suggestion reason negb andb present or_empty truthy reason_text] in C.
  rewrite X in C.
  replace (str_eqb sqlQuery sqlQuery) with true in C
    by (unfold str_eqb; destruct (list_eq_dec ascii_dec sqlQuery sqlQuery);
        [reflexivity | contradiction]).
  destruct C as (C1 & _ & C3 & C4 & C5).
  split; [exact C1|]. split; [exact C3|]. split; [exact C4|].
  destruct S as (A1 & A2 & A3 & A4 & A5), C5 as (B1 & B2 & B3 & B4 & B5).
  repeat split; congruence.
Qed.

Lemma POST_validator_down_witness :
  status (fst (POST (fun _ => None) delete_env sample_world)) = 400
  /\ same_store sample_world (snd (POST (fun _ => None) delete_env sample_world)).
Proof.
  assert (H : reaches_validation delete_env (lit "delete task 3")
                (Some (lit "DELETE FROM todos WHERE id = 3"))).
  { repeat split; reflexivity. }
  assert (J : no_json_block (gemini delete_env)) by (left; reflexivity).
  pose proof (POST_validator_down (fun _ => None) sample_world H J) as P.
  cbv zeta in P. destruct P as (S & _ & _ & T).
  - right; right; right; left. vm_compute. reflexivity.
  - vm_compute. reflexivity.
  - vm_compute. reflexivity.
  - split; [exact S | exact T].
Defined.

(** ** An empty generation *)

Lemma generateSQLWithGroq_blank content query :
  trim (or_empty content) = [] -> generateSQLWithGroq content query = [].
Proof.
  intros H. unfold generateSQLWithGroq. rewrite H. reflexivity.
Qed.

(** X14. When the generation provider returns nothing, or whitespace only,
    the generated statement is empty; if the validation provider is then
    unreachable or answers without a JSON block, the request ends with
    status 400, the store untouched, and an error that reads "SQL validation
    failed: undefined. Unable to auto-correct.", the fallback verdict having
    no reason. *)
Theorem POST_blank_generation :
  forall JSON_parse e w query content,
    reaches_validation e query content ->
    trim (or_empty content) = [] ->
    no_json_block (gemini e) ->
    let r := POST JSON_parse e w in
    generatedSQL (r_queries (fst r)) = Some []
    /\ status (fst r) = 400
    /\ r_error (fst r)
       = Some (lit "SQL validation failed: undefined. Unable to auto-correct.")
    /\ same_store w (snd r).
Proof.
  intros JSON_parse e w query content H B J r.
  destruct (POST_concludes JSON_parse w H) as (w0 & S & R).
  fold r in R.
  rewrite (generateSQLWithGroq_blank content _ B) in R.
  rewrite (fallback_when_no_json JSON_parse query [] J) in R.
  pose proof (conclude_shape query (preprocessQuery query)
                (classifyIntent (preprocessQuery query)) []
                (fallbackValidation query []) w0) as (_ & _ & _ & _ & _ & _ & G & _).
  pose proof (conclude_cases query (preprocessQuery query)
                (classifyIntent (preprocessQuery query)) []
                (fallbackValidation query []) w0) as C.
  cbv zeta in C, G. rewrite <- R in C, G. clearbody r.
  change (fallbackValidation query []) with (Verdict false None None) in C.
  cbn [valid suggestion reason negb andb present or_empty truthy reason_text]
    in C.
  change (fixSQLSyntax [] query) with (@nil ascii) in C.
  change (str_eqb [] []) with true in C. cbv iota in C.
  destruct C as (C1 & _ & C3 & _ & C5).
  split; [exact G|]. split; [exact C1|]. split; [exact C3|].
  destruct S as (A1 & A2 & A3 & A4 & A5), C5 as (B1 & B2 & B3 & B4 & B5).
  repeat split; congruence.
Qed.

Lemma POST_blank_generation_witness :
  status (fst (POST (fun _ => None) silent_env sample_world)) = 400.
Proof.
  assert (H : reaches_validation silent_env (lit "what should I do today") None).
  { repeat split; reflexivity. }
  pose proof (@POST_blank_generation (fun _ => None) silent_env sample_world
                _ _ H eq_refl (or_introl eq_refl)) as P.
  cbv zeta in P. destruct P as (_ & P & _). exact P.
Defined.

(** ** Trimming, and the shape of an extracted statement *)

Lemma trimStart_idem s : trimStart (trimStart s) = trimStart s.
Proof.
  induction s as [|c t IH]; [reflexivity|]. simpl.
  destruct (is_space c) eqn:E; [exact IH|]. simpl. rewrite E. reflexivity.
Qed.

Lemma trimStart_head s :
  match trimStart s with [] => True | c :: _ => is_space c = false end.
Proof.
  induction s as [|c t IH]; [exact I|]. simpl.
  destruct (is_space c) eqn:E; [exact IH | exact E].
Qed.

Lemma trimEnd_idem s : trimEnd (trimEnd s) = trimEnd s.
Proof.
  unfold trimEnd. rewrite rev_involutive, trimStart_idem. reflexivity.
Qed.

(** Trimming the end keeps a first character that is not whitespace. *)
Lemma trimEnd_head c t :
  is_space c = false -> exists t', trimEnd (c :: t) = c :: t'.
Proof.
  intros Hc. unfold trimEnd. cbn [rev].
  destruct (@trimStart_keeps (rev t) [c] []) as (pre' & E); [eauto|].
  cbn [app] in E. rewrite E, rev_app_distr. cbn [rev app].
  eexists; reflexivity.
Qed.

Lemma trimEnd_last s :
  match trimEnd s with
  | [] => True
  | c :: t => is_space (last (c :: t) c) = false
  end.
Proof.
  unfold trimEnd. pose proof (trimStart_head (rev s)) as H.
  destruct (trimStart (rev s)) as [|a u]; [exact I|].
  cbn [rev]. destruct (rev u ++ [a]) as [|c t] eqn:E.
  - destruct (rev u); discriminate.
  - rewrite <- E. rewrite last_last. exact H.
Qed.

Lemma trim_trimmed s : trimmed (trim s).
Proof.
  unfold trim. pose proof (trimStart_head s) as H.
  destruct (trimStart s) as [|c t]; [exact I|].
  destruct (@trimEnd_head c t H) as (t' & E).
  pose proof (trimEnd_last (c :: t)) as L. rewrite E in L |- *.
  split; [exact H | exact L].
Qed.

Lemma trim_idem s : trim (trim s) = trim s.
Proof.
  unfold trim. pose proof (trimStart_head s) as H.
  destruct (trimStart s) as [|c t]; [reflexivity|].
  destruct (@trimEnd_head c t H) as (t' & E).
  rewrite E. cbn [trimStart]. rewrite H, <- E. apply trimEnd_idem.
Qed.

Lemma by_pattern_trim patterns cleaned sql :
  by_pattern patterns cleaned = Some sql -> exists x, sql = trim x.
Proof.
  induction patterns as [|p more IH]; simpl; [discriminate|].
  destruct (exec p cleaned) as [m|]; [|exact IH].
  match goal with
  | |- (if ?c then _ else _) = _ -> _ => destruct c; [|exact IH]
  end.
  intros [= <-]. eexists; reflexivity.
Qed.

Lemma by_keyword_trim keywords cleaned sql :
  by_keyword keywords cleaned = Some sql -> exists x, sql = trim x.
Proof.
  induction keywords as [|k more IH]; simpl; [discriminate|].
  destruct (indexOf k (toUpperCase cleaned)) as [i|]; [|exact IH].
  match goal with
  | |- (if ?c then _ else _) = _ -> _ => destruct c; [|exact IH]
  end.
  intros [= <-]. eexists; reflexivity.
Qed.

Lemma extractCleanSQL_trim rawText : exists x, extractCleanSQL rawText = trim x.
Proof.
  unfold extractCleanSQL.
  destruct (by_pattern _ _) as [sql|] eqn:P; [eapply by_pattern_trim; eauto|].
  destruct (by_keyword _ _) as [sql|] eqn:K; [eapply by_keyword_trim; eauto|].
  eexists; reflexivity.
Qed.

(** X15. Whatever the text, the statement [extractCleanSQL] returns neither
    starts nor ends with whitespace, so trimming it again changes nothing. *)
Theorem extractCleanSQL_trimmed :
  forall rawText,
    trimmed (extractCleanSQL rawText)
    /\ trim (extractCleanSQL rawText) = extractCleanSQL rawText.
Proof.
  intros rawText. destruct (extractCleanSQL_trim rawText) as (x & ->).
  split; [apply trim_trimmed | apply trim_idem].
Qed.

Lemma startsWith_upper_app y z :
  startsWith (toUpperCase y) (toUpperCase (y ++ z)) = true.
Proof. rewrite toUpperCase_app. apply startsWith_app. Qed.

(** A match of the keyword alternation is one of the four keywords, letter
    case apart. *)
Lemma keyword_alt_text s s' :
  matches true keyword_alt s s' ->
  exists k x, In k sqlKeywords /\ m_rest s = x ++ m_rest s'
              /\ toUpperCase x = k.
Proof.
  intros M. unfold keyword_alt in M. cbn [alts] in M.
  apply matches_alt_inv in M as [M | M];
    [|apply matches_alt_inv in M as [M | M];
      [|apply matches_alt_inv in M as [M | M]]];
    apply matches_word_inv in M as (x & E & C & _);
    apply same_ci_upper in C;
    eexists _, x; (split; [|split; [exact E | exact C]]); cbn; auto.
Qed.

Lemma matches_bol_inv icase s s' :
  matches icase Bol s s' -> s' = s /\ m_pos s = 0.
Proof. inversion 1; subst; auto. Qed.

Lemma leading_keyword_starts sql :
  test re_leading_keyword sql = true -> starts_with_keyword sql.
Proof.
  unfold test. destruct (exec re_leading_keyword sql) as [f|] eqn:E;
    [intros _ | discriminate].
  apply exec_sound in E as (pre & Es & Ei & M).
  change (pat re_leading_keyword) with (Seq Bol (Group 1 keyword_alt)) in M.
  change (ignoreCase re_leading_keyword) with true in M.
  apply matches_seq_inv in M as (s1 & B & M).
  apply matches_bol_inv in B as (-> & B). cbn [m_pos] in B.
  rewrite B in Ei. destruct pre; [|discriminate]. cbn [app] in Es.
  apply matches_group_inv in M as (s2 & M & _).
  apply keyword_alt_text in M as (k & x & Hk & Ex & Ux).
  cbn [m_rest] in Ex. exists k. split; [exact Hk|].
  rewrite Es, Ex, <- Ux. apply startsWith_upper_app.
Qed.

Lemma by_pattern_starts patterns cleaned sql :
  by_pattern patterns cleaned = Some sql -> starts_with_keyword sql.
Proof.
  induction patterns as [|p more IH]; simpl; [discriminate|].
  destruct (exec p cleaned) as [m|]; [|exact IH].
  match goal with
  | |- (if truthy ?s && ?t then _ else _) = _ -> _ =>
      destruct (truthy s); destruct t eqn:T; simpl; try exact IH
  end.
  intros [= <-]. apply leading_keyword_starts. exact T.
Qed.

Lemma prefix_before {A} (c : A) :
  forall y z pre s,
    y ++ z = pre ++ c :: s -> Forall (fun a => a <> c) y ->
    exists z0, pre = y ++ z0.
Proof.
  induction y as [|a y IH]; intros z pre s E F; [exists pre; reflexivity|].
  inversion F as [|? ? Ha F']; subst.
  destruct pre as [|b pre]; simpl in E.
  - inversion E; subst. contradiction.
  - inversion E; subst. destruct (IH _ _ _ H1 F') as (z0 & ->).
    exists z0. reflexivity.
Qed.

Lemma trim_keeps_prefix y z :
  y <> [] -> Forall (fun c => is_space c = false) y ->
  exists z', trim (y ++ z) = y ++ z'.
Proof.
  intros Hy F. unfold trim.
  destruct y as [|c t]; [contradiction|].
  cbn [app trimStart]. inversion F as [|? ? Hc F']; subst. rewrite Hc.
  unfold trimEnd.
  change (c :: t ++ z) with ((c :: t) ++ z). rewrite rev_app_distr.
  destruct (@trimStart_keeps (rev z) (rev (c :: t)) []) as (pre' & E).
  { destruct (rev (c :: t)) as [|a u] eqn:Er.
    - simpl in Er. destruct (rev t); discriminate.
    - exists a, u. split; [reflexivity|].
      rewrite Forall_forall in F. apply F. apply in_rev. rewrite Er.
      left; reflexivity. }
  rewrite app_nil_r in E. rewrite E, rev_app_distr, rev_involutive.
  eexists; reflexivity.
Qed.

(** Stripping trailing semicolons and trimming keeps a leading run of
    characters that are neither semicolons nor whitespace. *)
Lemma strip_keeps_prefix y z :
  y <> [] ->
  Forall (fun c => is_space c = false /\ c <> ";"%char) y ->
  exists z', trim (replace re_trailing_semis [] (y ++ z)) = y ++ z'.
Proof.
  intros Hy F.
  assert (Fs : Forall (fun c => is_space c = false) y).
  { eapply Forall_impl; [|exact F]. intros c [H _]; exact H. }
  assert (Fc : Forall (fun c => c <> ";"%char) y).
  { eapply Forall_impl; [|exact F]. intros c [_ H]; exact H. }
  unfold replace.
  destruct (exec re_trailing_semis (y ++ z)) as [f|] eqn:E;
    [|apply trim_keeps_prefix; assumption].
  apply exec_sound in E as (pre & Es & Ei & M).
  change (pat re_trailing_semis)
    with (Seq (Seq (Lit ";") (Star true (Lit ";"))) Eol) in M.
  apply matches_seq_inv in M as (s1 & M1 & M2).
  apply matches_eol_inv in M2 as (Ee & R).
  apply matches_seq_inv in M1 as (s2 & M1 & _).
  apply matches_lit_inv in M1 as (c' & Ec & Hc' & _). cbn [m_rest] in Ec.
  apply char_eq_plain in Hc'; [|reflexivity|reflexivity]. subst c'.
  rewrite Ec in Es.
  destruct (prefix_before _ _ _ Es Fc) as (z0 & Ep).
  unfold after. rewrite Ee, R, Ei. cbn [expand app]. rewrite app_nil_r.
  rewrite Es, firstn_app, Nat.sub_diag, firstn_all. cbn [firstn].
  rewrite app_nil_r, Ep. apply trim_keeps_prefix; assumption.
Qed.

Lemma by_keyword_starts keywords cleaned sql :
  (forall k, In k keywords ->
     k <> [] /\ Forall (fun a => is_upper a = true) k) ->
  by_keyword keywords cleaned = Some sql ->
  exists k, In k keywords /\ startsWith k (toUpperCase sql) = true.
Proof.
  induction keywords as [|k more IH]; intros Hgood; cbn [by_keyword];
    [discriminate|].
  assert (Hmore : by_keyword more cleaned = Some sql ->
                  exists k0, In k0 (k :: more)
                             /\ startsWith k0 (toUpperCase sql) = true).
  { intros H. destruct IH as (k0 & Hin & S); [|exact H|].
    - intros k' Hk'. apply Hgood. right. exact Hk'.
    - exists k0. split; [right; exact Hin | exact S]. }
  destruct (indexOf k (toUpperCase cleaned)) as [i|] eqn:E; [|exact Hmore].
  destruct (Hgood k (or_introl eq_refl)) as (Hne & Hup).
  apply indexOf_skipn in E. unfold toUpperCase in E.
  rewrite skipn_map in E. apply startsWith_split in E as (b & E).
  apply map_eq_app in E as (y & z & Ey & Uy & _).
  unfold substring. rewrite Ey.
  destruct (@strip_keeps_prefix y z) as (z' & T).
  - intro; subst y. apply Hne. rewrite <- Uy. reflexivity.
  - apply Forall_forall. intros c Hc. apply upper_letter.
    rewrite Forall_forall in Hup. apply Hup. rewrite <- Uy.
    apply in_map. exact Hc.
  - rewrite T.
    destruct (truthy (y ++ z')); [|exact Hmore].
    intros [= <-]. exists k. split; [left; reflexivity|].
    rewrite <- Uy. apply startsWith_upper_app.
Qed.

Lemma cleaned_holds_keyword rawText keyword :
  In keyword sqlKeywords ->
  includes keyword (toUpperCase rawText) = true ->
  includes keyword
    (toUpperCase (trim (replaceAll re_fence []
                          (replaceAll re_fence_sql [] rawText)))) = true.
Proof.
  intros Hk Hraw. apply holds_ci_includes. apply trim_keeps_keyword.
  - simpl in Hk. destruct Hk as [<- | [<- | [<- | [<- | []]]]]; reflexivity.
  - simpl in Hk. destruct Hk as [<- | [<- | [<- | [<- | []]]]]; discriminate.
  - apply fences_keep_keyword; [exact Hk|].
    apply holds_ci_includes. exact Hraw.
Qed.

Lemma sqlKeywords_upper k :
  In k sqlKeywords -> k <> [] /\ Forall (fun a => is_upper a = true) k.
Proof.
  intros H. simpl in H.
  destruct H as [<- | [<- | [<- | [<- | []]]]];
    (split; [discriminate | repeat constructor]).
Qed.

(** X16. On text that holds SELECT, INSERT, UPDATE or DELETE in any letter
    case, the statement [extractCleanSQL] returns starts with one of these
    keywords, in some letter case: whatever comes before the keyword is
    dropped. *)
Theorem extractCleanSQL_starts_with_keyword :
  forall rawText keyword,
    In keyword sqlKeywords ->
    includes keyword (toUpperCase rawText) = true ->
    starts_with_keyword (extractCleanSQL rawText).
Proof.
  intros rawText keyword Hk Hraw.
  pose proof (cleaned_holds_keyword rawText Hk Hraw) as Hc.
  unfold extractCleanSQL.
  set (cleaned := trim (replaceAll re_fence []
                          (replaceAll re_fence_sql [] rawText))) in *.
  destruct (by_pattern sqlPatterns cleaned) as [sql|] eqn:P;
    [eapply by_pattern_starts; exact P|].
  destruct (@by_keyword_found sqlKeywords cleaned) as (x & K & _).
  - intros k H. destruct (sqlKeywords_upper H) as (Hne & F).
    destruct k as [|a t]; [contradiction|].
    exists a, t. split; [reflexivity|]. inversion F; assumption.
  - exists keyword. split; assumption.
  - rewrite K. eapply by_keyword_starts; [|exact K].
    intros k H. apply sqlKeywords_upper. exact H.
Qed.

Lemma extractCleanSQL_starts_with_keyword_witness :
  starts_with_keyword
    (extractCleanSQL (lit "Sure! The query is: delete from todos where id = 4; Hope it helps")).
Proof.
  apply (@extractCleanSQL_starts_with_keyword _ (lit "DELETE")).
  - right; right; right; left; reflexivity.
  - vm_compute; reflexivity.
Defined.

(** ** Preprocessor: what the two replacements do *)

Lemma punct_loop d :
  forall done pos,
    replace_loop re_punct (lit " ") done pos 0 d = map blank_punct d.
Proof.
  induction d as [|c t IH]; intros done pos; [reflexivity|].
  cbn [replace_loop map].
  unfold match_at. cbn [re_punct re pat ignoreCase seqs none_of rmatch].
  unfold step. cbn [m_rest].
  unfold cls_ok, blank_punct. cbn [existsb item_ok xorb].
  rewrite orb_false_r.
  destruct (is_word c || is_space c) eqn:E; cbn [negb].
  - rewrite IH. reflexivity.
  - cbn [advance m_pos]. replace (S pos - pos) with 1 by lia.
    rewrite IH. reflexivity.
Qed.

(** A greedy [\s*] takes the whole run of whitespace. *)
Lemma star_ws_run :
  forall fuel pos rest,
    length rest < fuel ->
    star_loop true
      (fun d x => rmatch false ws d (reset_caps (groups_of ws) x))
      Some fuel (MState pos rest [])
    = Some (MState (pos + lead rest) (trimStart rest) []).
Proof.
  induction fuel as [|fuel IH]; intros pos rest L; [lia|].
  cbn [star_loop]. unfold ws at 1. cbn [rmatch].
  unfold step, reset_caps. cbn [m_rest m_pos m_caps List.filter].
  destruct rest as [|c t].
  - cbn [lead trimStart]. rewrite Nat.add_0_r. reflexivity.
  - unfold cls_ok. cbn [existsb item_ok xorb lead trimStart].
    rewrite orb_false_r.
    destruct (is_space c).
    + unfold progress, advance. cbn [m_rest m_pos m_caps tl length].
      replace (length t <? S (length t)) with true
        by (symmetry; apply Nat.ltb_lt; lia).
      rewrite IH by (simpl in L; lia).
      rewrite Nat.add_succ_r. reflexivity.
    + rewrite Nat.add_0_r. reflexivity.
Qed.

Lemma spaces_match_at pos c t :
  match_at false (pat re_spaces) pos (c :: t)
  = if is_space c then Some (MState (S pos + lead t) (trimStart t) [])
    else None.
Proof.
  unfold match_at.
  change (pat re_spaces) with (Seq ws (Star true ws)).
  cbn [rmatch]. unfold ws at 1. cbn [rmatch].
  unfold step. cbn [m_rest]. unfold cls_ok. cbn [existsb item_ok xorb].
  rewrite orb_false_r.
  destruct (is_space c); [|reflexivity].
  unfold advance. cbn [m_rest m_pos m_caps tl].
  apply star_ws_run. lia.
Qed.

Lemma spaces_loop s :
  (forall done pos,
      replace_loop re_spaces (lit " ") done pos 0 s = collapse false s)
  /\ (forall done pos,
         replace_loop re_spaces (lit " ") done pos (lead s) s
         = collapse true s).
Proof.
  induction s as [|c t [IHa IHb]].
  - split; intros; reflexivity.
  - assert (A : forall done pos,
               replace_loop re_spaces (lit " ") done pos 0 (c :: t)
               = collapse false (c :: t)).
    { intros done pos. cbn [replace_loop collapse].
      change (ignoreCase re_spaces) with false.
      rewrite spaces_match_at.
      destruct (is_space c).
      - cbn [m_pos]. replace (S pos + lead t - pos) with (S (lead t)) by lia.
        rewrite IHb. reflexivity.
      - rewrite IHa. reflexivity. }
    split; [exact A|].
    intros done pos. cbn [lead collapse].
    destruct (is_space c) eqn:E.
    + cbn [replace_loop]. apply IHb.
    + rewrite A. cbn [collapse]. rewrite E. reflexivity.
Qed.

(** [preprocessQuery], with its two replacements written as functions on
    characters. *)
Lemma preprocessQuery_unfold q :
  preprocessQuery q
  = trim (map blank_punct (collapse false (trim (toLowerCase q)))).
Proof.
  unfold preprocessQuery, replaceAll.
  rewrite (proj1 (spaces_loop _)), punct_loop. reflexivity.
Qed.

Lemma lower_upper c : lower (upper c) = lower c.
Proof. destruct c as [[] [] [] [] [] [] [] []]; reflexivity. Qed.

Lemma toLowerCase_upper s : toLowerCase (toUpperCase s) = toLowerCase s.
Proof.
  unfold toLowerCase, toUpperCase. rewrite map_map.
  apply map_ext. intros c. apply lower_upper.
Qed.

Lemma Forall_trimStart (P : ascii -> Prop) s :
  Forall P s -> Forall P (trimStart s).
Proof.
  induction 1 as [|c t Hc Ht IH]; [constructor|]. simpl.
  destruct (is_space c); [exact IH | constructor; assumption].
Qed.

Lemma Forall_trim (P : ascii -> Prop) s : Forall P s -> Forall P (trim s).
Proof.
  intros H. unfold trim, trimEnd.
  apply Forall_rev, Forall_trimStart, Forall_rev, Forall_trimStart. exact H.
Qed.

Lemma Forall_collapse (P : ascii -> Prop) s :
  P " "%char -> Forall P s -> forall inside, Forall P (collapse inside s).
Proof.
  intros Hb. induction 1 as [|c t Hc Ht IH]; intros inside; [constructor|].
  simpl. destruct (is_space c); [destruct inside|]; repeat constructor; auto.
Qed.

(** After the runs have been collapsed the only whitespace left is the
    blank. *)
Lemma collapse_blank s :
  forall inside,
    Forall (fun c => is_space c = true -> c = " "%char) (collapse inside s).
Proof.
  induction s as [|c t IH]; intros inside; [constructor|]. simpl.
  destruct (is_space c) eqn:E; [destruct inside|]; try constructor; auto.
  intros H. rewrite H in E. discriminate.
Qed.

Lemma lower_not_upper c : is_upper (lower c) = false.
Proof. destruct c as [[] [] [] [] [] [] [] []]; reflexivity. Qed.

Lemma plain_char c :
  is_upper c = false -> (is_space c = true -> c = " "%char) ->
  is_word c || is_space c = true -> plain c = true.
Proof.
  intros U B W. unfold plain. unfold is_word in W. rewrite U in W.
  cbn [orb] in W.
  destruct (is_lower c); [reflexivity|].
  destruct (is_digit c); [reflexivity|]. cbn [orb] in W |- *.
  destruct (is_space c) eqn:S.
  - rewrite (B eq_refl). reflexivity.
  - rewrite orb_false_r in W. apply Nat.eqb_eq in W.
    replace c with "_"%char; [reflexivity|].
    unfold code in W. rewrite <- (ascii_nat_embedding c), W. reflexivity.
Qed.

Lemma plain_facts c :
  plain c = true ->
  is_upper c = false /\ (is_space c = true -> c = " "%char)
  /\ blank_punct c = c /\ lower c = c.
Proof.
  destruct c as [[] [] [] [] [] [] [] []]; vm_compute; intros H;
    try discriminate; repeat split; intros; try reflexivity; discriminate.
Qed.

Lemma blank_punct_facts c :
  is_upper c = false -> (is_space c = true -> c = " "%char) ->
  plain (blank_punct c) = true.
Proof.
  intros U B. unfold blank_punct.
  destruct (is_word c || is_space c) eqn:W; [|reflexivity].
  apply plain_char; assumption.
Qed.

Lemma preprocessQuery_trimmed query : trimmed (preprocessQuery query).
Proof. rewrite preprocessQuery_unfold. apply trim_trimmed. Qed.

Lemma preprocessQuery_chars query :
  Forall (fun c => plain c = true) (preprocessQuery query).
Proof.
  rewrite preprocessQuery_unfold.
  apply Forall_trim, Forall_map.
  set (s := trim (toLowerCase query)).
  assert (U : Forall (fun c => is_upper c = false) (collapse false s)).
  { apply Forall_collapse; [reflexivity|].
    apply Forall_trim. unfold toLowerCase. apply Forall_map.
    apply Forall_forall. intros c _. apply lower_not_upper. }
  pose proof (collapse_blank s false) as B.
  rewrite Forall_forall in *. intros c Hc.
  apply blank_punct_facts; [apply U | apply B]; exact Hc.
Qed.

Lemma collapse_true_false s :
  collapse false (collapse true s) = collapse true s
  /\ collapse true (collapse true s) = collapse true s
  /\ collapse false (collapse false s) = collapse false s.
Proof.
  induction s as [|c t (IH1 & IH2 & IH3)]; [repeat split|].
  cbn [collapse]. destruct (is_space c) eqn:E.
  - split; [exact IH1|]. split; [exact IH2|].
    cbn [collapse]. change (is_space " ") with true. cbn iota.
    rewrite IH2. reflexivity.
  - cbn [collapse]. rewrite E, IH3. repeat split.
Qed.

Lemma collapse_snoc u c :
  is_space c = false ->
  forall inside, collapse inside (u ++ [c]) = collapse inside u ++ [c].
Proof.
  intros Hc. induction u as [|a u IH]; intros inside; simpl.
  - rewrite Hc. reflexivity.
  - destruct (is_space a); [destruct inside|]; rewrite IH; reflexivity.
Qed.

Lemma trimmed_trim s : trimmed s -> trim s = s.
Proof.
  destruct s as [|c t]; [reflexivity|]. intros [Hc Hl].
  unfold trim. cbn [trimStart]. rewrite Hc.
  unfold trimEnd.
  destruct (@exists_last _ (c :: t)) as (u & a & E); [discriminate|].
  rewrite E in Hl |- *. rewrite last_last in Hl.
  rewrite rev_app_distr. cbn [rev app trimStart]. rewrite Hl.
  cbn [rev]. rewrite rev_involutive. reflexivity.
Qed.

Lemma collapse_trimmed s : trimmed s -> trimmed (collapse false s).
Proof.
  destruct s as [|c t]; [intros _; exact I|]. intros [Hc Hl].
  destruct (@exists_last _ (c :: t)) as (u & a & E); [discriminate|].
  rewrite E in Hl. rewrite last_last in Hl.
  assert (F : collapse false (c :: t) = c :: collapse false t).
  { cbn [collapse]. rewrite Hc. reflexivity. }
  rewrite F. split; [exact Hc|]. rewrite <- F, E, collapse_snoc by exact Hl.
  rewrite last_last. exact Hl.
Qed.

Lemma map_fixed {A} (f : A -> A) l :
  Forall (fun a => f a = a) l -> map f l = l.
Proof. induction 1; simpl; congruence. Qed.

(** On its own outputs [preprocessQuery] only collapses the runs of
    blanks. *)
Lemma preprocessQuery_on_plain y :
  Forall (fun c => plain c = true) y -> trimmed y ->
  preprocessQuery y = collapse false y.
Proof.
  intros P T. rewrite preprocessQuery_unfold.
  assert (L : toLowerCase y = y).
  { apply map_fixed. eapply Forall_impl; [|exact P].
    intros c Hc. apply plain_facts in Hc. apply Hc. }
  rewrite L, (@trimmed_trim y T).
  assert (B : map blank_punct (collapse false y) = collapse false y).
  { apply map_fixed. apply Forall_collapse; [reflexivity|].
    eapply Forall_impl; [|exact P].
    intros c Hc. apply plain_facts in Hc. apply Hc. }
  rewrite B. apply trimmed_trim, collapse_trimmed. exact T.
Qed.

(** X17. Whatever the query, [preprocessQuery] returns a text made of
    lower-case letters, digits, underscores and blanks only, which neither
    starts nor ends with a blank; and the letter case of the query plays no
    part in it. *)
Theorem preprocessQuery_alphabet :
  forall query,
    Forall (fun c => plain c = true) (preprocessQuery query)
    /\ trimmed (preprocessQuery query)
    /\ preprocessQuery (toUpperCase query) = preprocessQuery query.
Proof.
  intros query.
  split; [apply preprocessQuery_chars|].
  split; [apply preprocessQuery_trimmed|].
  unfold preprocessQuery. rewrite toLowerCase_upper. reflexivity.
Qed.

(** X18. A second pass of [preprocessQuery] collapses the runs of blanks the
    first pass has left, and a third pass changes nothing more. *)
Theorem preprocessQuery_stabilises :
  forall query,
    preprocessQuery (preprocessQuery query)
    = collapse false (preprocessQuery query)
    /\ preprocessQuery (preprocessQuery (preprocessQuery query))
       = preprocessQuery (preprocessQuery query).
Proof.
  intros query.
  pose proof (preprocessQuery_chars query) as P.
  pose proof (preprocessQuery_trimmed query) as T.
  pose proof (preprocessQuery_on_plain P T) as E.
  split; [exact E|]. rewrite E.
  rewrite preprocessQuery_on_plain.
  - apply collapse_true_false.
  - apply Forall_collapse; [reflexivity | exact P].
  - apply collapse_trimmed. exact T.
Qed.

(** ** Task description *)

Lemma Forall_skipn_str (P : ascii -> Prop) n :
  forall s, Forall P s -> Forall P (skipn n s).
Proof.
  induction n as [|n IH]; intros s H; [exact H|].
  destruct H; [constructor | apply IH; assumption].
Qed.

(** Deleting a match leaves characters of the text. *)
Lemma Forall_replace_nil (P : ascii -> Prop) re0 s :
  Forall P s -> Forall P (replace re0 [] s).
Proof.
  intros H. unfold replace.
  destruct (exec re0 s) as [f|] eqn:E; [|exact H].
  apply exec_sound in E as (pre & Es & Ei & M).
  apply matches_consumes in M as (x & Ex & _). cbn [m_rest] in Ex.
  unfold after. cbn [expand app].
  rewrite Es, Ex in H. apply Forall_app in H as (H1 & H2).
  apply Forall_app in H2 as (_ & H2).
  rewrite Es, Ei, firstn_app, Nat.sub_diag, firstn_all. cbn [firstn].
  rewrite app_nil_r. apply Forall_app. split; assumption.
Qed.

Lemma capitalize_tail (P : ascii -> Prop) s :
  Forall P s -> Forall P (tl (capitalize s)).
Proof.
  intros H. destruct H as [|c t Hc Ht]; [constructor|]. exact Ht.
Qed.

(** X19. For a query in the ASCII range, the description
    [extractTaskDescription] builds keeps nothing of the user's
    capitalisation: it is the same for the query and for the query in
    capitals, and no character after its first is an upper-case letter. *)
Theorem extractTaskDescription_loses_case :
  forall query,
    ascii_text query = true ->
    extractTaskDescription (toUpperCase query) = extractTaskDescription query
    /\ Forall (fun c => is_upper c = false)
              (tl (extractTaskDescription query)).
Proof.
  intros query _. unfold extractTaskDescription.
  rewrite toLowerCase_upper. split; [reflexivity|]. cbv zeta.
  set (cleaned := trim _).
  assert (H : Forall (fun c => is_upper c = false) cleaned).
  { subst cleaned. apply Forall_trim.
    do 2 apply Forall_replace_nil.
    unfold toLowerCase. apply Forall_map, Forall_forall.
    intros c _. apply lower_not_upper. }
  clearbody cleaned.
  destruct (_ || _); [apply capitalize_tail; exact H|].
  destruct (indexOf _ cleaned); apply capitalize_tail;
    [apply Forall_skipn_str|]; exact H.
Qed.

Lemma extractTaskDescription_loses_case_witness :
  ascii_text (lit "Add a task to Buy Milk") = true
  /\ extractTaskDescription (lit "ADD A TASK TO BUY MILK") = lit "Buy milk".
Proof.
  split; [vm_compute; reflexivity|].
  destruct (extractTaskDescription_loses_case (lit "Add a task to Buy Milk"))
    as (E & _); [vm_compute; reflexivity|].
  change (lit "ADD A TASK TO BUY MILK")
    with (toUpperCase (lit "Add a task to Buy Milk")).
  rewrite E. vm_compute. reflexivity.
Defined.

(** ** Repairer: the rewritten VALUES clause *)

(** A replacement text without [$] is inserted as it is. *)
Lemma expand_plain m before f repl :
  Forall (fun c => c <> "$"%char) repl -> expand m before f repl = repl.
Proof.
  induction 1 as [|c t Hc Ht IH]; [reflexivity|]. cbn [expand].
  destruct (Ascii.eqb c "$") eqn:E.
  - apply Ascii.eqb_eq in E. contradiction.
  - cbn [negb]. rewrite IH. reflexivity.
Qed.

Lemma same_ci_no_dollar u x :
  same_ci true u x -> Forall (fun a => upper a <> "$"%char) u ->
  Forall (fun c => c <> "$"%char) x.
Proof.
  induction 1 as [|a c u x H F IH]; intros G; [constructor|].
  inversion G; subst. constructor; [|apply IH; assumption].
  intros ->. apply char_eq_upper in H. symmetry in H. contradiction.
Qed.

Lemma digit_no_dollar c :
  cls_ok true false [IDigit] c = true -> c <> "$"%char.
Proof. intros H ->. discriminate. Qed.

(** The second group of the VALUES patterns holds true, false, null or
    digits: no [$]. *)
Lemma values_flag front re0 sql m :
  pat re0
  = seqs (front
          ++ [Group 2 (alts [w "true"; w "false"; w "null"; plus dg])]
          ++ [star ws; w ")"]) ->
  ignoreCase re0 = true ->
  exec re0 sql = Some m ->
  Forall (fun c => c <> "$"%char) (or_empty (group 2 m)).
Proof.
  intros Hp Hi E. apply exec_sound in E as (pre & _ & _ & M).
  rewrite Hp, Hi in M.
  apply matches_seqs_app in M as (s1 & _ & M).
  apply matches_seqs_app in M as (s2 & M2 & M3).
  cbn [seqs] in M2.
  apply group_capture in M2 as (x & s1' & E1 & G & M2 & R & _).
  unfold group. rewrite (matches_keeps_cap M3 2), G;
    [|cbn; intuition discriminate].
  cbn [or_empty alts] in *.
  assert (W : forall u, matches true (word u) s1 s1' ->
                        Forall (fun a => upper a <> "$"%char) u ->
                        Forall (fun c => c <> "$"%char) x).
  { intros u Mu Fu. apply matches_word_inv in Mu as (x' & E2 & C & _).
    rewrite R, E1 in E2. apply app_inv_tail in E2. subst x'.
    eapply same_ci_no_dollar; eassumption. }
  apply matches_alt_inv in M2 as [M2 | M2];
    [|apply matches_alt_inv in M2 as [M2 | M2];
      [|apply matches_alt_inv in M2 as [M2 | M2]]].
  1-3: eapply W; [exact M2 | repeat constructor; discriminate].
  apply matches_plus_cls_inv in M2 as (c & y & E2 & F & _).
  rewrite R, E1 in E2.
  change (c :: y ++ m_rest s2) with ((c :: y) ++ m_rest s2) in E2.
  apply app_inv_tail in E2. subst x.
  eapply Forall_impl; [|exact F]. intros a. apply digit_no_dollar.
Qed.

Lemma escape_no_dollar d :
  Forall (fun c => c <> "$"%char) d ->
  Forall (fun c => c <> "$"%char) (escapeQuotes d).
Proof.
  intros H. rewrite escapeQuotes_flat_map.
  induction H as [|c t Hc Ht IH]; [constructor|]. cbn [flat_map].
  apply Forall_app. split; [|exact IH].
  unfold escape_char. destruct (Ascii.eqb c sq);
    repeat constructor; try exact Hc; discriminate.
Qed.

Lemma replace_plain re0 repl sql m :
  exec re0 sql = Some m ->
  Forall (fun c => c <> "$"%char) repl ->
  replace re0 repl sql = firstn (f_index m) sql ++ repl ++ after m.
Proof.
  intros E F. unfold replace. rewrite E, expand_plain by exact F.
  reflexivity.
Qed.

(** X20. When a statement holds INSERT INTO todos and not UPDATE todos SET,
    and one of the two VALUES patterns finds an unquoted title in it, the
    repairer replaces the matched clause by VALUES ('d', f) and keeps the
    text before and after it, where d is the description extracted from the
    original query with its quotes doubled, and f the flag of the matched
    clause; provided the description holds no dollar sign (a dollar sign
    would be read as a replacement pattern). *)
Theorem fixSQLSyntax_rewrites_values :
  forall sql originalQuery pattern m,
    includes (lit "INSERT INTO TODOS") (toUpperCase sql) = true ->
    includes (lit "UPDATE TODOS SET") (toUpperCase sql) = false ->
    (pattern = re_values_1 /\ exec re_values_1 sql = Some m
     \/ pattern = re_values_2 /\ exec re_values_1 sql = None
        /\ exec re_values_2 sql = Some m) ->
    Forall (fun c => c <> "$"%char) (extractTaskDescription originalQuery) ->
    fixSQLSyntax sql originalQuery
    = firstn (f_index m) sql
      ++ (lit "VALUES ('" ++ escapeQuotes (extractTaskDescription originalQuery)
            ++ lit "', " ++ or_empty (group 2 m) ++ lit ")")
      ++ after m.
Proof.
  intros sql originalQuery pattern m I U P D.
  unfold fixSQLSyntax. rewrite I, U. cbv zeta.
  unfold valuesPatterns. cbn [fix_values].
  assert (F : forall re0, exec re0 sql = Some m ->
                Forall (fun c => c <> "$"%char) (or_empty (group 2 m)) ->
                Forall (fun c => c <> "$"%char)
                  (lit "VALUES ('"
                     ++ escapeQuotes (extractTaskDescription originalQuery)
                     ++ lit "', " ++ or_empty (group 2 m) ++ lit ")")).
  { intros re0 _ G. apply Forall_app. split; [repeat constructor; discriminate|].
    apply Forall_app. split; [apply escape_no_dollar; exact D|].
    apply Forall_app. split; [repeat constructor; discriminate|].
    apply Forall_app. split; [exact G | repeat constructor; discriminate]. }
  destruct P as [(-> & E) | (-> & E1 & E)].
  - rewrite E. apply replace_plain; [exact E|]. apply (F _ E).
    exact (@values_flag
             [w "VALUES"; star ws; w "("; star ws;
              Group 1 (seqs [none_of quote;
                             star (none_of [IChar ","; IChar ")"]);
                             none_of (quote ++ [ISpace]);
                             star (none_of [IChar ","; IChar ")"])]);
              w ","; star ws]
             re_values_1 sql m eq_refl eq_refl E).
  - rewrite E1, E. apply replace_plain; [exact E|]. apply (F _ E).
    exact (@values_flag
             [w "VALUES"; star ws; w "("; star ws;
              Group 1 (seqs [none_of quote;
                             plus (none_of [IChar ","; IChar ")"])]);
              w ","; star ws]
             re_values_2 sql m eq_refl eq_refl E).
Qed.

Lemma fixSQLSyntax_rewrites_values_witness :
  fixSQLSyntax
    (lit "INSERT INTO todos (title, completed) VALUES (call mom, false);")
    (lit "add a task to call mom")
  = lit "INSERT INTO todos (title, completed) VALUES ('Call mom', false);".
Proof.
  destruct (exec re_values_1
              (lit "INSERT INTO todos (title, completed) VALUES (call mom, false);"))
    as [m|] eqn:E; [|vm_compute in E; discriminate].
  rewrite (@fixSQLSyntax_rewrites_values _ (lit "add a task to call mom")
             re_values_1 m).
  - vm_compute in E. injection E as <-. vm_compute. reflexivity.
  - vm_compute. reflexivity.
  - vm_compute. reflexivity.
  - left. split; [reflexivity | exact E].
  - vm_compute. repeat constructor; discriminate.
Defined.

Lemma word_no_dollar c :
  cls_ok true false [IWord] c = true -> c <> "$"%char.
Proof. intros H ->. discriminate. Qed.

(** The column name the SET pattern captures is made of word characters. *)
Lemma set_column sql m :
  exec setPattern sql = Some m ->
  Forall (fun c => c <> "$"%char) (or_empty (group 1 m)).
Proof.
  intros E. apply exec_sound in E as (pre & _ & _ & M).
  change (pat setPattern)
    with (seqs ([w "SET"; plus ws]
                ++ [Group 1 (Plus true (Cls false [IWord]))]
                ++ [star ws; w "="; star ws;
                    Group 2 (seqs [none_of quote;
                                   plus (none_of [IChar ","; ISpace;
                                                  IChar ";"])])])) in M.
  change (ignoreCase setPattern) with true in M.
  apply matches_seqs_app in M as (s1 & _ & M).
  apply matches_seqs_app in M as (s2 & M2 & M3).
  cbn [seqs] in M2.
  apply group_capture in M2 as (x & s1' & E1 & G & M2 & R & _).
  unfold group. rewrite (matches_keeps_cap M3 1), G;
    [|cbn; intuition discriminate].
  cbn [or_empty].
  apply matches_plus_cls_inv in M2 as (c & y & E2 & F & _).
  rewrite R, E1 in E2.
  change (c :: y ++ m_rest s2) with ((c :: y) ++ m_rest s2) in E2.
  apply app_inv_tail in E2. subst x.
  eapply Forall_impl; [|exact F]. intros a. apply word_no_dollar.
Qed.

(** X21. When a statement holds UPDATE todos SET and its SET clause assigns
    an unquoted value to the title column, the repairer replaces the clause,
    up to the end of the first word of the value, by SET title = 'd', where
    d is the description extracted from the original query with its quotes
    doubled; the rest of the statement is kept, and a repair of a VALUES
    clause is dropped.  The description must hold no dollar sign. *)
Theorem fixSQLSyntax_rewrites_set :
  forall sql originalQuery m,
    includes (lit "UPDATE TODOS SET") (toUpperCase sql) = true ->
    exec setPattern sql = Some m ->
    str_eqb (toLowerCase (or_empty (group 1 m))) (lit "title") = true ->
    Forall (fun c => c <> "$"%char) (extractTaskDescription originalQuery) ->
    fixSQLSyntax sql originalQuery
    = firstn (f_index m) sql
      ++ (lit "SET " ++ or_empty (group 1 m) ++ lit " = '"
            ++ escapeQuotes (extractTaskDescription originalQuery)
            ++ lit "'")
      ++ after m.
Proof.
  intros sql originalQuery m U E T D.
  unfold fixSQLSyntax. rewrite U, E, T. cbv zeta.
  apply replace_plain; [exact E|].
  apply Forall_app. split; [repeat constructor; discriminate|].
  apply Forall_app. split; [exact (set_column _ E)|].
  apply Forall_app. split; [repeat constructor; discriminate|].
  apply Forall_app. split; [apply escape_no_dollar; exact D|].
  repeat constructor; discriminate.
Qed.

Lemma fixSQLSyntax_rewrites_set_witness :
  fixSQLSyntax (lit "UPDATE todos SET title = buy bread WHERE id = 3")
               (lit "change task 3 to buy bread")
  = lit "UPDATE todos SET title = 'Buy bread' bread WHERE id = 3".
Proof.
  destruct (exec setPattern
              (lit "UPDATE todos SET title = buy bread WHERE id = 3"))
    as [m|] eqn:E; [|vm_compute in E; discriminate].
  rewrite (@fixSQLSyntax_rewrites_set _ (lit "change task 3 to buy bread") m).
  - vm_compute in E. injection E as <-. vm_compute. reflexivity.
  - vm_compute. reflexivity.
  - exact E.
  - vm_compute in E. injection E as <-. vm_compute. reflexivity.
  - vm_compute. repeat constructor; discriminate.
Defined.

(** ** Validator: the block handed to the parser *)

(** A greedy [[\s\S]*] followed by a closing brace runs to the last closing
    brace. *)
Lemma star_any_brace :
  forall fuel pos rest,
    length rest < fuel ->
    star_loop true
      (fun d x => rmatch false any d (reset_caps (groups_of any) x))
      (rmatch false (Lit "}") Some) fuel (MState pos rest [])
    = match to_last_brace rest with
      | Some n => Some (MState (pos + n) (skipn n rest) [])
      | None => None
      end.
Proof.
  induction fuel as [|fuel IH]; intros pos rest L; [lia|].
  cbn [star_loop]. unfold any at 1. cbn [rmatch].
  unfold step, reset_caps. cbn [m_rest m_pos m_caps List.filter].
  destruct rest as [|c t]; [reflexivity|].
  unfold cls_ok. cbn [existsb item_ok xorb to_last_brace].
  rewrite orb_false_r, orb_negb_r.
  unfold progress, advance. cbn [m_rest m_pos m_caps tl length].
  replace (length t <? S (length t)) with true
    by (symmetry; apply Nat.ltb_lt; lia).
  rewrite IH by (simpl in L; lia).
  destruct (to_last_brace t) as [n|].
  - rewrite Nat.add_succ_r. reflexivity.
  - unfold char_eq, canon. rewrite Ascii.eqb_sym.
    destruct (Ascii.eqb c "}"); [|reflexivity].
    rewrite Nat.add_1_r. reflexivity.
Qed.

Lemma json_match_at pos rest :
  match_at false (pat re_json_block) pos rest
  = match rest with
    | [] => None
    | c :: t =>
        if Ascii.eqb c "{" then
          match to_last_brace t with
          | Some n => Some (MState (S pos + n) (skipn n t) [])
          | None => None
          end
        else None
    end.
Proof.
  unfold match_at.
  change (pat re_json_block)
    with (Seq (Lit "{") (Seq (Star true any) (Lit "}"))).
  cbn [rmatch]. unfold step at 1. cbn [m_rest].
  destruct rest as [|c t]; [reflexivity|].
  unfold char_eq, canon. rewrite Ascii.eqb_sym.
  destruct (Ascii.eqb c "{"); [|reflexivity].
  unfold advance. cbn [m_rest m_pos m_caps tl].
  apply star_any_brace. lia.
Qed.

Lemma json_search rest :
  forall pos,
    option_map matched (search false (pat re_json_block) pos rest)
    = json_block rest.
Proof.
  induction rest as [|c t IH]; intros pos; cbn [search];
    rewrite json_match_at; [reflexivity|].
  cbn [json_block].
  destruct (Ascii.eqb c "{"); [|apply IH].
  destruct (to_last_brace t) as [n|]; [|apply IH].
  cbn [option_map]. unfold matched. cbn [f_end f_index f_from m_pos].
  replace (S pos + n - pos) with (S n) by lia. reflexivity.
Qed.

(** The last closing brace of a text: none comes after it. *)
Lemma to_last_brace_none s :
  to_last_brace s = None -> Forall (fun c => c <> "}"%char) s.
Proof.
  induction s as [|c t IH]; [constructor|]. cbn [to_last_brace].
  destruct (to_last_brace t); [discriminate|].
  destruct (Ascii.eqb c "}") eqn:E; [discriminate|]. intros _.
  constructor; [|apply IH; reflexivity].
  intros ->. discriminate.
Qed.

Lemma to_last_brace_some s :
  forall n, to_last_brace s = Some n ->
    exists mid post,
      s = mid ++ "}"%char :: post /\ n = S (length mid)
      /\ Forall (fun c => c <> "}"%char) post.
Proof.
  induction s as [|c t IH]; intros n; [discriminate|]. cbn [to_last_brace].
  destruct (to_last_brace t) as [k|] eqn:T.
  - intros [= <-]. destruct (IH k eq_refl) as (mid & post & -> & -> & F).
    exists (c :: mid), post. repeat split. exact F.
  - destruct (Ascii.eqb c "}") eqn:E; [|discriminate]. intros [= <-].
    apply Ascii.eqb_eq in E. subst c.
    exists [], t. repeat split. apply to_last_brace_none. exact T.
Qed.

Lemma to_last_brace_closed mid :
  to_last_brace (mid ++ ["}"%char]) = Some (S (length mid)).
Proof.
  induction mid as [|c t IH]; [reflexivity|].
  cbn [app to_last_brace length]. rewrite IH. reflexivity.
Qed.

Lemma to_last_brace_holds mid post :
  to_last_brace (mid ++ "}"%char :: post) <> None.
Proof.
  induction mid as [|c t IH]; cbn [app to_last_brace].
  - destruct (to_last_brace post); discriminate.
  - destruct (to_last_brace (t ++ "}"%char :: post)); [discriminate|].
    contradiction IH. reflexivity.
Qed.

Lemma json_block_some text :
  forall block, json_block text = Some block ->
    exists pre mid post,
      text = pre ++ block ++ post
      /\ block = "{"%char :: mid ++ ["}"%char]
      /\ Forall (fun c => c <> "{"%char) pre
      /\ Forall (fun c => c <> "}"%char) post.
Proof.
  induction text as [|c t IH]; intros block; [discriminate|].
  cbn [json_block].
  assert (Later : json_block t = Some block ->
                  to_last_brace t <> None).
  { intros B. destruct (IH block B) as (pre & mid & post & -> & -> & _).
    replace (pre ++ ("{"%char :: mid ++ ["}"%char]) ++ post)
      with ((pre ++ "{"%char :: mid) ++ "}"%char :: post)
      by (rewrite <- !app_assoc; cbn; rewrite <- app_assoc; reflexivity).
    apply to_last_brace_holds. }
  destruct (Ascii.eqb c "{") eqn:E.
  - apply Ascii.eqb_eq in E. subst c.
    destruct (to_last_brace t) as [n|] eqn:T.
    + intros [= <-].
      apply to_last_brace_some in T as (mid & post & -> & -> & F).
      exists [], mid, post.
      assert (H : firstn (S (length mid)) (mid ++ "}"%char :: post)
                  = mid ++ ["}"%char]).
      { rewrite firstn_app.
        replace (S (length mid) - length mid) with 1 by lia.
        rewrite firstn_all2 by lia. reflexivity. }
      rewrite H. split; [cbn [app]; rewrite <- app_assoc; reflexivity|].
      split; [reflexivity|]. split; [constructor | exact F].
    + intros B. contradiction (Later B). reflexivity.
  - intros B. destruct (IH block B) as (pre & mid & post & -> & -> & P & F).
    exists (c :: pre), mid, post. repeat split; [|exact F].
    constructor; [|exact P]. intros ->. discriminate.
Qed.

Lemma json_block_none text :
  json_block text = None ->
  forall pre mid post, text <> pre ++ "{"%char :: mid ++ "}"%char :: post.
Proof.
  induction text as [|c t IH]; intros B pre mid post E.
  - destruct pre; discriminate.
  - cbn [json_block] in B. destruct pre as [|p pre].
    + cbn [app] in E. injection E as -> ->.
      change (Ascii.eqb "{" "{") with true in B. cbv iota in B.
      pose proof (@to_last_brace_holds mid post) as H.
      destruct (to_last_brace (mid ++ "}"%char :: post));
        [discriminate | contradiction H; reflexivity].
    + cbn [app] in E. injection E as -> ->.
      apply (IH) with (pre := pre) (mid := mid) (post := post);
        [|reflexivity].
      destruct (Ascii.eqb p "{"); [|exact B].
      destruct (to_last_brace
                  (pre ++ "{"%char :: mid ++ "}"%char :: post));
        [discriminate | exact B].
Qed.

Lemma json_block_closed mid :
  json_block ("{"%char :: mid ++ ["}"%char])
  = Some ("{"%char :: mid ++ ["}"%char]).
Proof.
  cbn [json_block]. change (Ascii.eqb "{" "{") with true. cbv iota.
  rewrite to_last_brace_closed. f_equal.
  apply firstn_all2. cbn [length]. rewrite length_app. cbn. lia.
Qed.

(** X22. The text [validateSQLWithGemini] hands to [JSON.parse] runs from
    the first opening brace of the reply to its last closing brace: no
    opening brace comes before it and no closing brace after it, so two
    objects in one reply are parsed as one text; and the verdict depends on
    the reply through this text only.  A reply that holds no opening brace
    with a closing brace after it gets the verdict of the local fallback. *)
Theorem validateSQLWithGemini_block :
  forall JSON_parse text originalQuery sqlQuery,
    match exec re_json_block text with
    | Some jsonMatch =>
        exists pre mid post,
          text = pre ++ matched jsonMatch ++ post
          /\ matched jsonMatch = "{"%char :: mid ++ ["}"%char]
          /\ Forall (fun c => c <> "{"%char) pre
          /\ Forall (fun c => c <> "}"%char) post
          /\ validateSQLWithGemini JSON_parse (Some text)
               originalQuery sqlQuery
             = validateSQLWithGemini JSON_parse (Some (matched jsonMatch))
                 originalQuery sqlQuery
    | None =>
        (forall pre mid post,
            text <> pre ++ "{"%char :: mid ++ "}"%char :: post)
        /\ validateSQLWithGemini JSON_parse (Some text)
             originalQuery sqlQuery
           = fallbackValidation originalQuery sqlQuery
    end.
Proof.
  intros JSON_parse text originalQuery sqlQuery.
  pose proof (json_search text 0) as B.
  change (search false (pat re_json_block) 0 text)
    with (exec re_json_block text) in B.
  unfold validateSQLWithGemini.
  destruct (exec re_json_block text) as [m|]; cbn [option_map] in B.
  - symmetry in B.
    destruct (json_block_some _ B) as (pre & mid & post & E & M & P & F).
    exists pre, mid, post. repeat (split; [assumption|]).
    pose proof (json_search (matched m) 0) as B'.
    change (search false (pat re_json_block) 0 (matched m))
      with (exec re_json_block (matched m)) in B'.
    rewrite M, json_block_closed, <- M in B'.
    destruct (exec re_json_block (matched m)) as [m'|];
      [|discriminate B'].
    cbn [option_map] in B'. injection B' as ->. reflexivity.
  - split; [apply json_block_none; symmetry; exact B | reflexivity].
Qed.

(** ** Running the matcher forward

    On a text cut into the pieces a pattern takes one after the other, the
    matcher can be run piece by piece. *)

Unset Implicit Arguments.

Lemma rmatch_seq icase a b k s :
  rmatch icase (Seq a b) k s = rmatch icase a (rmatch icase b k) s.
Proof. reflexivity. Qed.

Lemma reset_caps_nil s : reset_caps [] s = s.
Proof.
  destruct s as [p r caps]. unfold reset_caps. cbn [m_pos m_rest m_caps].
  f_equal. induction caps as [|e caps IH]; simpl in *; congruence.
Qed.

Lemma rmatch_word_run icase k rest caps :
  forall u x p,
    same_ci icase u x ->
    rmatch icase (word u) k (MState p (x ++ rest) caps)
    = k (MState (p + length x) rest caps).
Proof.
  induction u as [|a u IH]; intros x p H; inversion H as [|? c ? x' Hc Hx];
    subst.
  - cbn. rewrite Nat.add_0_r. reflexivity.
  - assert (E : rmatch icase (word (a :: u)) k (MState p ((c :: x') ++ rest) caps)
                = rmatch icase (word u) k (MState (S p) (x' ++ rest) caps)).
    { destruct u as [|b u].
      - inversion Hx; subst. cbn [word rmatch]. unfold step.
        cbn [m_rest app]. rewrite Hc. reflexivity.
      - change (word (a :: b :: u)) with (Seq (Lit a) (word (b :: u))).
        rewrite rmatch_seq. cbn [rmatch]. unfold step at 1.
        cbn [m_rest app]. rewrite Hc. reflexivity. }
    rewrite E, IH by exact Hx. cbn [length]. rewrite Nat.add_succ_r.
    reflexivity.
Qed.

Lemma single_step icase r k s :
  single r = true -> rmatch icase r k s = step (takes icase r) k s.
Proof. destruct r; try discriminate; reflexivity. Qed.

Lemma single_groups r : single r = true -> groups_of r = [].
Proof. destruct r; try discriminate; reflexivity. Qed.

Lemma star_loop_run (p0 : ascii -> bool) m k rest caps z :
  (forall d x, m d x = step p0 d x) ->
  stops p0 rest ->
  forall run fuel p,
    Forall (fun c => p0 c = true) run ->
    length (run ++ rest) < fuel ->
    k (MState (p + length run) rest caps) = Some z ->
    star_loop true m k fuel (MState p (run ++ rest) caps) = Some z.
Proof.
  intros Hm Hstop. induction run as [|c run IH]; intros fuel p F L K;
    (destruct fuel as [|fuel]; [cbn in L; lia|]);
    cbn [star_loop]; rewrite Hm; unfold step; cbn [m_rest app].
  - cbn [length] in K. rewrite Nat.add_0_r in K.
    destruct rest as [|c t]; [rewrite K; reflexivity|].
    cbn in Hstop. rewrite Hstop, K. reflexivity.
  - inversion F as [|? ? Hc F']; subst. rewrite Hc.
    unfold progress, advance. cbn [m_rest m_pos m_caps tl length].
    replace (length (run ++ rest) <? S (length (run ++ rest))) with true
      by (symmetry; apply Nat.ltb_lt; lia).
    rewrite (IH fuel (S p)); [reflexivity | exact F' | cbn in L; lia |].
    cbn [length] in K. rewrite Nat.add_succ_r in K. exact K.
Qed.

(** A greedy star over one-character patterns takes a whole run, when what
    follows the run is accepted. *)
Lemma rmatch_star_run icase r k run rest p caps z :
  single r = true ->
  Forall (fun c => takes icase r c = true) run ->
  stops (takes icase r) rest ->
  k (MState (p + length run) rest caps) = Some z ->
  rmatch icase (Star true r) k (MState p (run ++ rest) caps) = Some z.
Proof.
  intros Hr F S K. cbn [rmatch].
  apply (@star_loop_run (takes icase r));
    [|exact S | exact F | cbn [m_rest]; lia | exact K].
  intros d x. rewrite (@single_groups r Hr), reset_caps_nil.
  apply single_step. exact Hr.
Qed.

Lemma rmatch_plus_run icase r k run rest p caps z :
  single r = true ->
  run <> [] ->
  Forall (fun c => takes icase r c = true) run ->
  stops (takes icase r) rest ->
  k (MState (p + length run) rest caps) = Some z ->
  rmatch icase (Plus true r) k (MState p (run ++ rest) caps) = Some z.
Proof.
  intros Hr N F S K. destruct run as [|c run]; [contradiction|].
  inversion F as [|? ? Hc F']; subst.
  unfold Plus. rewrite rmatch_seq, (@single_step icase r _ _ Hr).
  unfold step at 1.
  cbn [m_rest app]. rewrite Hc. unfold advance.
  cbn [m_pos m_rest m_caps tl].
  apply rmatch_star_run; [exact Hr | exact F' | exact S|].
  cbn [length] in K. rewrite Nat.add_succ_r in K. exact K.
Qed.

Lemma set_cap_run n p x rest caps caps' :
  set_cap n (MState p (x ++ rest) caps) (MState (p + length x) rest caps')
  = MState (p + length x) rest ((n, x) :: caps').
Proof.
  unfold set_cap. cbn [m_pos m_rest m_caps].
  replace (p + length x - p) with (length x + 0) by lia.
  rewrite firstn_app_2. cbn [firstn]. rewrite app_nil_r. reflexivity.
Qed.

Lemma rmatch_group_plus_run icase n r k run rest p caps z :
  single r = true ->
  run <> [] ->
  Forall (fun c => takes icase r c = true) run ->
  stops (takes icase r) rest ->
  k (MState (p + length run) rest ((n, run) :: caps)) = Some z ->
  rmatch icase (Group n (Plus true r)) k (MState p (run ++ rest) caps)
  = Some z.
Proof.
  intros Hr N F S K. cbn [rmatch].
  apply (@rmatch_plus_run icase r _ run rest p caps z Hr N F S).
  rewrite set_cap_run. exact K.
Qed.

Lemma rmatch_group_word_run icase n k u x rest p caps :
  same_ci icase u x ->
  rmatch icase (Group n (word u)) k (MState p (x ++ rest) caps)
  = k (MState (p + length x) rest ((n, x) :: caps)).
Proof.
  intros H. cbn [rmatch]. rewrite rmatch_word_run by exact H.
  rewrite set_cap_run. reflexivity.
Qed.

(** A greedy optional part is taken when what follows it is accepted, and
    skipped when it cannot match. *)
Lemma rmatch_opt_take icase a k s z :
  rmatch icase a (fun y => if progress s y then k y else None)
         (reset_caps (groups_of a) s) = Some z ->
  rmatch icase (Opt true a) k s = Some z.
Proof. cbn [rmatch]. unfold opt_once. intros H. rewrite H. reflexivity. Qed.

Lemma rmatch_opt_skip icase a k s :
  (forall d, rmatch icase a d (reset_caps (groups_of a) s) = None) ->
  rmatch icase (Opt true a) k s = k s.
Proof. cbn [rmatch]. unfold opt_once. intros H. rewrite H. reflexivity. Qed.

Lemma rmatch_group_alt_l icase n a b k s z :
  rmatch icase (Group n a) k s = Some z ->
  rmatch icase (Group n (Alt a b)) k s = Some z.
Proof. cbn [rmatch]. intros H. rewrite H. reflexivity. Qed.

Lemma rmatch_group_alt_r icase n a b k s :
  rmatch icase (Group n a) k s = None ->
  rmatch icase (Group n (Alt a b)) k s = rmatch icase (Group n b) k s.
Proof. cbn [rmatch]. intros H. rewrite H. reflexivity. Qed.

Lemma search_here icase r pos rest e :
  match_at icase r pos rest = Some e ->
  search icase r pos rest = Some (Found pos rest e).
Proof. intros H. destruct rest; cbn [search]; rewrite H; reflexivity. Qed.

Lemma quote_upper c : Ascii.eqb (upper sq) (upper c) = Ascii.eqb sq c.
Proof. destruct c as [[] [] [] [] [] [] [] []]; reflexivity. Qed.

Lemma no_quote_class t :
  no_quote t ->
  Forall (fun c => takes true (Cls true [IChar sq]) c = true) t.
Proof.
  intros H. eapply Forall_impl; [|exact H]. intros c Hc.
  unfold takes, cls_ok. cbn [existsb item_ok]. unfold char_eq, canon.
  rewrite quote_upper, orb_false_r.
  destruct (Ascii.eqb sq c) eqn:E; [|reflexivity].
  apply Ascii.eqb_eq in E. symmetry in E. contradiction.
Qed.

(** ** INSERT: a quoted title is stored as written *)

Ltac run_word :=
  rewrite rmatch_word_run by (repeat constructor).

Ltac run_star r :=
  apply (@rmatch_star_run _ _ _ r);
  [reflexivity | repeat constructor | vm_compute; reflexivity |].

Ltac run_plus r :=
  apply (@rmatch_plus_run _ _ _ r);
  [reflexivity | discriminate | repeat constructor | vm_compute; reflexivity |].

Lemma insert_parse t flag :
  t <> [] -> no_quote t ->
  exec insertPattern (insert_statement t flag)
  = Some (Found 0 (insert_statement t flag)
            (MState (length (insert_statement t flag)) []
                    [(2, Store.bool_text flag); (1, t)])).
Proof.
  intros N Q. unfold exec. apply search_here. unfold match_at.
  assert (L : forall a b : str,
             length (lit "INSERT INTO todos (title, completed) VALUES ('"
                       ++ t ++ a ++ b)
             = 46 + length t + length a + length b).
  { intros a b. rewrite !length_app. cbn [length lit list_ascii_of_string].
    lia. }
  unfold insert_statement at 2. rewrite L. clear L.
  change (ignoreCase insertPattern) with true.
  change (insert_statement t flag)
    with (lit "INSERT INTO todos" ++ lit " " ++ lit "("
          ++ lit "title, completed" ++ lit ")" ++ lit " " ++ lit "VALUES"
          ++ lit " " ++ lit "(" ++ [] ++ [sq] ++ t ++ [sq] ++ [] ++ lit ","
          ++ lit " " ++ Store.bool_text flag ++ [] ++ lit ")" ++ []) at 1.
  unfold insertPattern, re. cbn [pat seqs].
  unfold w, star, plus, ch, ws, none_of.
  change (Lit sq) with (word [sq]).
  rewrite rmatch_seq. run_word.
  rewrite rmatch_seq. run_star (lit " ").
  rewrite rmatch_seq. run_word.
  rewrite rmatch_seq.
  run_plus (lit "title, completed").
  rewrite rmatch_seq. run_word.
  rewrite rmatch_seq. run_star (lit " ").
  rewrite rmatch_seq. run_word.
  rewrite rmatch_seq. run_star (lit " ").
  rewrite rmatch_seq. run_word.
  rewrite rmatch_seq. run_star (@nil ascii).
  rewrite rmatch_seq. run_word.
  rewrite rmatch_seq.
  apply (@rmatch_group_plus_run _ _ _ _ t);
    [reflexivity | exact N | apply no_quote_class; exact Q
    | vm_compute; reflexivity |].
  rewrite rmatch_seq. run_word.
  rewrite rmatch_seq. run_star (@nil ascii).
  rewrite rmatch_seq. run_word.
  rewrite rmatch_seq.
  apply (@rmatch_star_run _ _ _ (lit " "));
    [reflexivity | repeat constructor
    | destruct flag; vm_compute; reflexivity |].
  rewrite rmatch_seq.
  destruct flag; cbn [alts].
  - apply rmatch_group_alt_l.
    rewrite rmatch_group_word_run by (repeat constructor).
    rewrite rmatch_seq. run_star (@nil ascii).
    run_word. cbn [length lit list_ascii_of_string Store.bool_text app].
    do 2 f_equal. lia.
  - rewrite rmatch_group_alt_r by reflexivity.
    rewrite rmatch_group_word_run by (repeat constructor).
    rewrite rmatch_seq. run_star (@nil ascii).
    run_word. cbn [length lit list_ascii_of_string Store.bool_text app].
    do 2 f_equal. lia.
Qed.

(** X23. The INSERT statement of the generation prompt's example, with any
    title that is not empty and holds no quote, is executed as written when
    the store answers: one row is appended with that very title, letter case
    and blanks included, the flag of the statement, the next id and the
    current time; and it is in the payload of a success. *)
Theorem handleInsertQuery_inserts_title :
  forall t flag w,
    t <> [] -> no_quote t -> Store.fault w = None ->
    let r := handleInsertQuery (insert_statement t flag) w in
    rows (snd r) = rows w ++ [Todo (next_id w) t flag (clock w)]
    /\ forall p, fst r = Ok p ->
                 In (Todo (next_id w) t flag (clock w)) (todos p).
Proof.
  intros t flag w N Q F r. subst r.
  unfold handleInsertQuery. rewrite (insert_parse t flag N Q).
  unfold group. cbn [f_end m_caps get_cap Nat.eqb or_empty].
  assert (B : str_eqb (toLowerCase (Store.bool_text flag)) (lit "true") = flag)
    by (destruct flag; reflexivity).
  rewrite B. unfold Store.fault in F. unfold getAllTodos.
  forget_pushes. io_run. rewrite F.
  destruct (faults w) as [|o l]; [|subst o]; io_simpl.
  - split; [reflexivity|]. intros p [= <-]. cbn [todos].
    apply In_order. rewrite filter_keeps_all.
    apply in_or_app. right. left. reflexivity.
  - destruct l as [|[e|] l]; io_simpl.
    + split; [reflexivity|]. intros p [= <-]. cbn [todos].
      apply In_order. rewrite filter_keeps_all.
      apply in_or_app. right. left. reflexivity.
    + split; [reflexivity | discriminate].
    + split; [reflexivity|]. intros p [= <-]. cbn [todos].
      apply In_order. rewrite filter_keeps_all.
      apply in_or_app. right. left. reflexivity.
Qed.

Lemma handleInsertQuery_inserts_title_witness :
  rows (snd (handleInsertQuery (insert_statement (lit "Call John") false)
               sample_world))
  = rows sample_world ++ [Todo 3 (lit "Call John") false 30].
Proof.
  refine (proj1 (@handleInsertQuery_inserts_title
                   (lit "Call John") false sample_world _ _ _)).
  - discriminate.
  - repeat constructor; discriminate.
  - reflexivity.
Defined.

(** ** DELETE and UPDATE by id *)

Lemma parse_digits_digits d :
  forall acc n,
    Store.parse_digits acc d = Some n ->
    Forall (fun c => is_digit c = true) d.
Proof.
  induction d as [|c d IH]; intros acc n H; [constructor|].
  cbn [Store.parse_digits] in H. destruct (is_digit c) eqn:E; [|discriminate].
  constructor; [exact E | eapply IH; exact H].
Qed.

Lemma parse_nat_digits d n :
  Store.parse_nat d = Some n ->
  d <> [] /\ Forall (fun c => is_digit c = true) d.
Proof.
  unfold Store.parse_nat. destruct d as [|c d]; [discriminate|].
  intros H. split; [discriminate | eapply parse_digits_digits; exact H].
Qed.

Lemma digit_facts c :
  is_digit c = true ->
  is_newline c = false /\ is_space c = false /\ Ascii.eqb sq c = false.
Proof.
  destruct c as [[] [] [] [] [] [] [] []]; vm_compute; intros H;
    try discriminate; repeat split.
Qed.

Lemma digits_dot d :
  Forall (fun c => is_digit c = true) d ->
  Forall (fun c => takes true Dot c = true) d.
Proof.
  intros H. eapply Forall_impl; [|exact H]. intros c Hc.
  apply digit_facts in Hc as (N & _). cbn [takes]. rewrite N. reflexivity.
Qed.

Lemma digits_value d :
  Forall (fun c => is_digit c = true) d ->
  Forall (fun c => takes false (Cls true [IChar sq; ISpace]) c = true) d.
Proof.
  intros H. eapply Forall_impl; [|exact H]. intros c Hc.
  apply digit_facts in Hc as (_ & S & Q).
  unfold takes, cls_ok. cbn [existsb item_ok]. unfold char_eq, canon.
  rewrite Q, S. reflexivity.
Qed.

(** The clause [id = d]: the id pattern captures the digits. *)
Lemma id_clause_parse d :
  d <> [] -> Forall (fun c => is_digit c = true) d ->
  exec re_id_eq (lit "id = " ++ d)
  = Some (Found 0 (lit "id = " ++ d)
            (MState (5 + length d) [] [(1, d)])).
Proof.
  intros N D. unfold exec. apply search_here. unfold match_at.
  change (ignoreCase re_id_eq) with false.
  replace (lit "id = " ++ d)
    with (lit "id" ++ lit " " ++ lit "=" ++ lit " " ++ d ++ [])
    by (rewrite app_nil_r; reflexivity).
  unfold re_id_eq, re. cbn [pat seqs].
  unfold w, star, plus, opt, ch, ws, none_of.
  rewrite rmatch_seq. rewrite rmatch_word_run by (repeat constructor).
  rewrite rmatch_seq.
  apply (@rmatch_star_run _ _ _ (lit " "));
    [reflexivity | repeat constructor | vm_compute; reflexivity |].
  rewrite rmatch_seq. rewrite rmatch_word_run by (repeat constructor).
  rewrite rmatch_seq.
  destruct d as [|c0 d']; [contradiction|].
  inversion D as [|? ? Hc0 D']; subst.
  destruct (digit_facts c0 Hc0) as (_ & S0 & Q0).
  apply (@rmatch_star_run _ _ _ (lit " "));
    [reflexivity | repeat constructor | |].
  { cbn [app stops takes]. unfold cls_ok. cbn [existsb item_ok xorb].
    rewrite S0. reflexivity. }
  rewrite rmatch_seq. rewrite rmatch_opt_skip.
  2:{ intros k. cbn [rmatch groups_of]. unfold step, reset_caps.
      cbn [m_rest app]. unfold char_eq, canon. rewrite Q0. reflexivity. }
  rewrite rmatch_seq.
  apply (@rmatch_group_plus_run _ _ _ _ (c0 :: d'));
    [reflexivity | discriminate | apply digits_value; exact D | exact I |].
  rewrite rmatch_opt_skip by (intros k; reflexivity).
  cbn [length lit list_ascii_of_string]. repeat f_equal; lia.
Qed.

Lemma delete_parse d :
  d <> [] -> Forall (fun c => is_digit c = true) d ->
  exec deletePattern (delete_statement d)
  = Some (Found 0 (delete_statement d)
            (MState (29 + length d) [] [(1, lit "id = " ++ d)])).
Proof.
  intros N D. unfold exec. apply search_here. unfold match_at.
  change (ignoreCase deletePattern) with true.
  replace (delete_statement d)
    with (lit "DELETE FROM todos" ++ lit " " ++ lit "WHERE" ++ lit " "
          ++ (lit "id = " ++ d) ++ [])
    by (rewrite app_nil_r; reflexivity).
  unfold deletePattern, re. cbn [pat seqs].
  unfold w, star, plus, opt, ch, ws, none_of.
  rewrite rmatch_seq. rewrite rmatch_word_run by (repeat constructor).
  apply rmatch_opt_take.
  cbn [seqs groups_of app]. unfold reset_caps.
  cbn [m_pos m_rest m_caps List.filter].
  rewrite rmatch_seq.
  apply (@rmatch_plus_run _ _ _ (lit " "));
    [reflexivity | discriminate | repeat constructor
    | vm_compute; reflexivity |].
  rewrite rmatch_seq. rewrite rmatch_word_run by (repeat constructor).
  rewrite rmatch_seq.
  apply (@rmatch_plus_run _ _ _ (lit " "));
    [reflexivity | discriminate | repeat constructor
    | vm_compute; reflexivity |].
  apply (@rmatch_group_plus_run _ _ _ _ (lit "id = " ++ d));
    [reflexivity | discriminate | | exact I |].
  { apply Forall_app. split; [repeat constructor | apply digits_dot; exact D]. }
  unfold progress. cbn [m_rest length lit list_ascii_of_string app].
  rewrite length_app. cbn [length lit list_ascii_of_string].
  unfold Nat.ltb. cbn [Nat.leb]. repeat f_equal; lia.
Qed.

(** X24. DELETE FROM todos WHERE id = n, with n written in digits, removes
    exactly the rows with that id when the store answers, and leaves the
    others in place and in order. *)
Theorem handleDeleteQuery_deletes_id :
  forall d n w,
    Store.parse_nat d = Some n -> Store.fault w = None ->
    rows (snd (handleDeleteQuery (delete_statement d) w))
    = List.filter (fun r => negb (id r =? n)) (rows w).
Proof.
  intros d n w P F.
  destruct (parse_nat_digits d n P) as (N & D).
  unfold handleDeleteQuery. rewrite (delete_parse d N D).
  unfold group. cbn [f_end m_caps get_cap Nat.eqb or_empty].
  change (truthy (lit "id = " ++ d)) with true.
  change (includes (lit "id =") (lit "id = " ++ d)) with true.
  cbn [negb]. rewrite (id_clause_parse d N D).
  unfold group. cbn [f_end m_caps get_cap Nat.eqb or_empty].
  assert (A : forallb Store.accepted [FEq col_id (VStr d)] = true).
  { cbn [forallb]. unfold Store.accepted, Store.passes.
    change (str_eqb col_id (lit "id")) with true. cbv iota.
    rewrite P. reflexivity. }
  assert (K : forall r, Store.keeps [FEq col_id (VStr d)] r = (id r =? n)).
  { intros r. unfold Store.keeps. cbn [forallb]. unfold Store.passes.
    change (str_eqb col_id (lit "id")) with true. cbv iota.
    rewrite P. cbn [option_map]. apply andb_true_r. }
  unfold Store.fault in F. unfold getAllTodos.
  forget_pushes. io_run. rewrite F, A. io_simpl.
  assert (R : List.filter (fun r => negb (Store.keeps [FEq col_id (VStr d)] r))
                (rows w)
              = List.filter (fun r => negb (id r =? n)) (rows w)).
  { apply filter_ext. intros r. rewrite K. reflexivity. }
  destruct (tl (faults w)) as [|[e|] l]; io_simpl; rewrite ?A; io_simpl;
    exact R.
Qed.

Lemma handleDeleteQuery_deletes_id_witness :
  rows (snd (handleDeleteQuery (delete_statement (lit "1")) sample_world))
  = [Todo 2 (lit "Build NLP-to-SQL app") true 20].
Proof.
  rewrite (@handleDeleteQuery_deletes_id (lit "1") 1 sample_world);
    reflexivity.
Defined.

(** The quoted UPDATE pattern needs a quote in the statement. *)
Lemma update_quoted_needs_quote sql m :
  exec updatePattern sql = Some m -> In sq sql.
Proof.
  intros E. apply exec_sound in E as (pre & Es & _ & M).
  change (pat updatePattern)
    with (seqs ([w "UPDATE todos SET"; plus ws; Group 1 (plus wd); star ws;
                 w "="; star ws]
                ++ [ch sq]
                ++ [Group 2 (plus (none_of [IChar sq])); ch sq;
                    opt (seqs [plus ws; w "WHERE"; plus ws;
                               Group 3 (plus Dot)])])) in M.
  apply matches_seqs_app in M as (s1 & M1 & M).
  apply matches_seqs_app in M as (s2 & M2 & _).
  apply matches_consumes in M1 as (x & Ex & _). cbn [m_rest] in Ex.
  cbn [seqs] in M2. apply matches_lit_inv in M2 as (c & Ec & Hc & _).
  apply char_eq_plain in Hc; [|reflexivity|reflexivity]. subst c.
  rewrite Es, Ex, Ec. apply in_or_app. right. apply in_or_app. right.
  left. reflexivity.
Qed.

Lemma digits_no_quote d :
  Forall (fun c => is_digit c = true) d -> ~ In sq d.
Proof.
  intros D H. rewrite Forall_forall in D. apply D in H. discriminate.
Qed.

Lemma complete_parse flag d :
  d <> [] -> Forall (fun c => is_digit c = true) d ->
  exec updatePatternNoQuotes (complete_statement flag d)
  = Some (Found 0 (complete_statement flag d)
            (MState (length (complete_statement flag d)) []
                    [(3, lit "id = " ++ d); (2, Store.bool_text flag);
                     (1, lit "completed")])).
Proof.
  intros N D. unfold exec. apply search_here. unfold match_at.
  change (ignoreCase updatePatternNoQuotes) with true.
  assert (L : length (complete_statement flag d)
              = 29 + length (Store.bool_text flag) + 12 + length d).
  { unfold complete_statement. rewrite !length_app.
    cbn [length lit list_ascii_of_string]. lia. }
  rewrite L. clear L.
  replace (complete_statement flag d)
    with (lit "UPDATE todos SET" ++ lit " " ++ lit "completed" ++ lit " "
          ++ lit "=" ++ lit " " ++ Store.bool_text flag ++ lit " "
          ++ lit "WHERE" ++ lit " " ++ (lit "id = " ++ d) ++ [])
    by (unfold complete_statement; rewrite app_nil_r; reflexivity).
  unfold updatePatternNoQuotes, re. cbn [pat seqs].
  unfold w, star, plus, opt, ch, ws, wd, none_of.
  rewrite rmatch_seq. rewrite rmatch_word_run by (repeat constructor).
  rewrite rmatch_seq.
  apply (@rmatch_plus_run _ _ _ (lit " "));
    [reflexivity | discriminate | repeat constructor
    | vm_compute; reflexivity |].
  rewrite rmatch_seq.
  apply (@rmatch_group_plus_run _ _ _ _ (lit "completed"));
    [reflexivity | discriminate | repeat constructor
    | vm_compute; reflexivity |].
  rewrite rmatch_seq.
  apply (@rmatch_star_run _ _ _ (lit " "));
    [reflexivity | repeat constructor | vm_compute; reflexivity |].
  rewrite rmatch_seq. rewrite rmatch_word_run by (repeat constructor).
  rewrite rmatch_seq.
  apply (@rmatch_star_run _ _ _ (lit " "));
    [reflexivity | repeat constructor
    | destruct flag; vm_compute; reflexivity |].
  rewrite rmatch_seq.
  apply (@rmatch_group_plus_run _ _ _ _ (Store.bool_text flag));
    [reflexivity | destruct flag; discriminate
    | destruct flag; repeat constructor | vm_compute; reflexivity |].
  apply rmatch_opt_take.
  cbn [seqs groups_of app]. unfold reset_caps.
  cbn [m_pos m_rest m_caps List.filter existsb Nat.eqb fst negb orb].
  rewrite rmatch_seq.
  apply (@rmatch_plus_run _ _ _ (lit " "));
    [reflexivity | discriminate | repeat constructor
    | vm_compute; reflexivity |].
  rewrite rmatch_seq. rewrite rmatch_word_run by (repeat constructor).
  rewrite rmatch_seq.
  apply (@rmatch_plus_run _ _ _ (lit " "));
    [reflexivity | discriminate | repeat constructor
    | vm_compute; reflexivity |].
  apply (@rmatch_group_plus_run _ _ _ _ (lit "id = " ++ d));
    [reflexivity | discriminate | | exact I |].
  { apply Forall_app. split; [repeat constructor | apply digits_dot; exact D]. }
  unfold progress. cbn [m_rest length lit list_ascii_of_string app].
  rewrite !length_app. cbn [length lit list_ascii_of_string].
  unfold Nat.ltb. cbn [Nat.leb].
  apply f_equal.
  apply (f_equal2 (fun p c => MState p [] c)); [lia | reflexivity].
Qed.

Lemma complete_statement_unquoted flag d m :
  Forall (fun c => is_digit c = true) d ->
  exec updatePattern (complete_statement flag d) = Some m -> False.
Proof.
  intros D E. apply update_quoted_needs_quote in E.
  unfold complete_statement in E.
  assert (Q : forall s, no_quote s -> ~ In sq s).
  { intros s H X. unfold no_quote in H. rewrite Forall_forall in H.
    exact (H _ X eq_refl). }
  apply in_app_or in E as [E | E];
    [revert E; apply Q; repeat constructor; discriminate|].
  apply in_app_or in E as [E | E];
    [revert E; apply Q; destruct flag; repeat constructor; discriminate|].
  apply in_app_or in E as [E | E];
    [revert E; apply Q; repeat constructor; discriminate|].
  exact (digits_no_quote d D E).
Qed.

(** X25. "Mark task n done", written as UPDATE todos SET completed = f WHERE
    id = n, sets the flag of exactly the rows with that id when the store
    answers, and changes nothing else. *)
Theorem handleUpdateQuery_sets_flag :
  forall flag d n w,
    Store.parse_nat d = Some n -> Store.fault w = None ->
    rows (snd (handleUpdateQuery (complete_statement flag d) w))
    = map (fun r => if id r =? n then flagged_row flag r else r) (rows w).
Proof.
  intros flag d n w P F.
  destruct (parse_nat_digits d n P) as (N & D).
  unfold handleUpdateQuery.
  destruct (exec updatePattern (complete_statement flag d)) as [m|] eqn:E;
    [exfalso; exact (complete_statement_unquoted flag d m D E)|].
  rewrite (complete_parse flag d N D). cbv zeta.
  unfold group. cbn [f_end m_caps get_cap Nat.eqb or_empty].
  change (truthy (lit "id = " ++ d)) with true.
  change (includes (lit "id =") (lit "id = " ++ d)) with true.
  cbn [negb]. rewrite (id_clause_parse d N D).
  unfold group. cbn [f_end m_caps get_cap Nat.eqb or_empty].
  assert (V : (if str_eqb (Store.bool_text flag) (lit "true")
                  || str_eqb (Store.bool_text flag) (lit "false")
               then VBool (str_eqb (Store.bool_text flag) (lit "true"))
               else VStr (Store.bool_text flag)) = VBool flag)
    by (destruct flag; reflexivity).
  rewrite V.
  assert (A : forallb Store.accepted [FEq col_id (VStr d)]
              && Store.assignable (lit "completed") (VBool flag) = true).
  { cbn [forallb]. unfold Store.accepted, Store.passes.
    change (str_eqb col_id (lit "id")) with true. cbv iota.
    rewrite P. reflexivity. }
  assert (K : forall r, Store.keeps [FEq col_id (VStr d)] r = (id r =? n)).
  { intros r. unfold Store.keeps. cbn [forallb]. unfold Store.passes.
    change (str_eqb col_id (lit "id")) with true. cbv iota.
    rewrite P. cbn [option_map]. apply andb_true_r. }
  unfold Store.fault in F. unfold getAllTodos.
  forget_pushes. io_run. rewrite F, A. io_simpl.
  assert (R : map (fun r =>
                     if Store.keeps [FEq col_id (VStr d)] r
                     then match Store.assign (lit "completed") (VBool flag) r with
                          | Some r' => r'
                          | None => r
                          end
                     else r) (rows w)
              = map (fun r => if id r =? n then flagged_row flag r else r)
                    (rows w)).
  { apply map_ext. intros r. rewrite K. reflexivity. }
  destruct (tl (faults w)) as [|[e|] l]; io_simpl; exact R.
Qed.

Lemma handleUpdateQuery_sets_flag_witness :
  rows (snd (handleUpdateQuery (complete_statement true (lit "1"))
               sample_world))
  = [Todo 1 (lit "Learn ShadCN components") true 10;
     Todo 2 (lit "Build NLP-to-SQL app") true 20].
Proof.
  rewrite (@handleUpdateQuery_sets_flag true (lit "1") 1 sample_world);
    reflexivity.
Defined.

(** ** SELECT: the shapes of a WHERE clause *)





























